(** * RenderStream-UE: schema ownership, scene selection and frame streams

    A shallow embedding of
      - [FFrameStream] (Private/FrameStream.cpp),
      - [SceneSelector_StreamingLevels] (Private/SceneSelector_StreamingLevels.cpp),
      - [RenderStreamLink::ScopedSchema] (Public/RenderStreamLink.h),
      - [ConvertFields] / [GenerateScene] (RenderStreamEditorModule.cpp),
    first the programs, then their properties. *)

From Stdlib Require Import ZArith Lia Bool List Reals Lra.
From Stdlib Require Import Floats.SpecFloat.
From Stdlib Require OrderedTypeEx.
From Stdlib Require Import Sorted.
From stdpp Require Import base option list gmap strings.

Open Scope Z_scope.

(** ** Machine integers *)

(** [int32_t] arithmetic, two's complement, wrap-around written out. *)
Definition int32_min : Z := - 2 ^ 31.
Definition int32_max : Z := 2 ^ 31 - 1.
Definition wrap_int32 (z : Z) : Z := (z + 2 ^ 31) mod 2 ^ 32 - 2 ^ 31.
Definition wrap_uint32 (z : Z) : Z := z mod 2 ^ 32.

(** A fixed-width integer type in general: its width and signedness,
    its range, and how a result is wrapped into it. *)
Record int_type : Type := mkIntType { bits : Z; is_signed : bool }.

Definition int_min (t : int_type) : Z :=
  if is_signed t then - 2 ^ (bits t - 1) else 0.

Definition int_max (t : int_type) : Z :=
  if is_signed t then 2 ^ (bits t - 1) - 1 else 2 ^ bits t - 1.

Definition wrap (t : int_type) (z : Z) : Z :=
  if is_signed t
  then (z + 2 ^ (bits t - 1)) mod 2 ^ bits t - 2 ^ (bits t - 1)
  else z mod 2 ^ bits t.

Definition int32_t : int_type := mkIntType 32 true.

(** ** Single precision floats: [float] is IEEE binary32 *)

Definition f32_prec : Z := 24.
Definition f32_emax : Z := 128.
Definition float := spec_float.

(** [(float)i] for an integer [i]. *)
Definition float_of_int (i : Z) : float :=
  binary_normalize f32_prec f32_emax i 0 false.
Definition fdiv (x y : float) : float := SFdiv f32_prec f32_emax x y.
Definition fleb (x y : float) : bool := SFleb x y.
Definition f32_zero : float := S754_zero false.
Definition f32_one : float := float_of_int 1.

(** *** Reading a float as a real number

    [2^e] as a real, the place of a real among the multiples of [2^e] as
    [SpecFloat] records it while shifting and dividing, and what it
    means for a positive real to round to a float of 24 bits. *)

(** [2^e]. *)
Definition bpow (e : Z) : R := powerRZ 2 e.

(** The real [x] lies at [m * 2^e], or between it and the next multiple
    of [2^e], as the location says. *)
Definition Rep (x : R) (m e : Z) (l : location) : Prop :=
  match l with
  | loc_Exact => x = (IZR m * bpow e)%R
  | loc_Inexact Lt => (IZR m * bpow e < x < (IZR m + / 2) * bpow e)%R
  | loc_Inexact Eq => x = ((IZR m + / 2) * bpow e)%R
  | loc_Inexact Gt => ((IZR m + / 2) * bpow e < x < (IZR m + 1) * bpow e)%R
  end.

(** The same for a mantissa with its round and sticky bits. *)
Definition RepR (x : R) (mrs : shr_record) (e : Z) : Prop :=
  0 <= shr_m mrs /\ Rep x (shr_m mrs) e (loc_of_shr_record mrs).

(** A mantissa of exactly 24 bits. *)
Definition normal (m : Z) : Prop := 2 ^ 23 <= m < 2 ^ 24.

(** [m * 2^e] is what [x] rounds to: [x] is cut to 24 bits at some scale,
    rounded to nearest even there, and renormalised if that carried. *)
Definition Rounds (x : R) (m e : Z) : Prop :=
  exists m1 e1 l1,
    Rep x m1 e1 l1 /\ normal m1
    /\ ((round_nearest_even m1 l1 < 2 ^ 24
         /\ m = round_nearest_even m1 l1 /\ e = e1)
        \/ (round_nearest_even m1 l1 = 2 ^ 24 /\ m = 2 ^ 23 /\ e = e1 + 1)).

(** The real number a finite positive float stands for. *)
Definition value (m e : Z) : R := (IZR m * bpow e)%R.

(** ** Types of RenderStreamLink.h used by the frame stream *)

Inductive RSPixelFormat : Type :=
| RS_FMT_INVALID
| RS_FMT_BGRA8
| RS_FMT_BGRX8
| RS_FMT_RGBA32F.

(** [StreamHandle] is [uint64_t]; 0 is the unbound handle. *)
Definition StreamHandle : Type := Z.

Record ProjectionClipping : Type := mkClipping {
  clip_left : float;
  clip_right : float;
  clip_top : float;
  clip_bottom : float
}.

Record FIntPoint : Type := mkIntPoint { X : Z; Y : Z }.
Record FIntRect : Type := mkIntRect { Min : FIntPoint; Max : FIntPoint }.

(** ** FFrameStream *)

Module FrameStream.

(** A GPU texture as the stream sees it: its size and pixel format.
    [FRHITexture2D::GetSizeX/GetSizeY] are [uint32]. *)
Record Texture : Type := mkTexture {
  GetSizeX : Z;
  GetSizeY : Z;
  tex_format : RSPixelFormat
}.

(** A fence object is identified by its address. *)
Definition Fence : Type := Z.

(** The members of [FFrameStream].  [m_bufTexture] and [m_fence] are
    nullable references.  [m_fenceValue] is an integer counter. *)
Record FFrameStream : Type := mkStream {
  m_streamName : string;
  m_channel : string;
  m_clipping : ProjectionClipping;
  m_bufTexture : option Texture;
  m_resolution : FIntPoint;
  m_handle : StreamHandle;
  m_fence : option Fence;
  m_fenceValue : Z
}.

(** What one call of [RSUCHelpers::SendFrame] is given. *)
Record Submission : Type := mkSubmission {
  sub_handle : StreamHandle;
  sub_bufTexture : option Texture;
  sub_fence : option Fence;
  sub_fenceValue : Z;
  sub_tTracked : Z;
  sub_source : Texture;
  sub_U : float * float;
  sub_V : float * float
}.

(** The normalised sub-rectangle computed at the head of
    [SendFrame_RenderingThread]. *)
Record SubRect : Type := mkSubRect {
  ULeft : float; URight : float; VTop : float; VBottom : float
}.

Definition normalized_rect (SourceTexture : Texture) (ViewportRect : FIntRect) : SubRect :=
  {| ULeft := fdiv (float_of_int (X (Min ViewportRect))) (float_of_int (GetSizeX SourceTexture));
     URight := fdiv (float_of_int (X (Max ViewportRect))) (float_of_int (GetSizeX SourceTexture));
     VTop := fdiv (float_of_int (Y (Min ViewportRect))) (float_of_int (GetSizeY SourceTexture));
     VBottom := fdiv (float_of_int (Y (Max ViewportRect))) (float_of_int (GetSizeY SourceTexture)) |}.

Section FenceType.

(** The integer type of [m_fenceValue].  Its declaration is in
    FrameStream.h; the router receives the counter as
    [Dx12Data::fenceValue], an [int32_t]. *)
Variable fence_t : int_type.

(** [SendFrame_RenderingThread]: the new stream and the frame handed to
    the helper.  [FrameData] is represented by its tracked time. *)
Definition SendFrame_RenderingThread (s : FFrameStream) (FrameData : Z)
    (SourceTexture : Texture) (ViewportRect : FIntRect) : FFrameStream * Submission :=
  let r := normalized_rect SourceTexture ViewportRect in
  let sent :=
    {| sub_handle := m_handle s;
       sub_bufTexture := m_bufTexture s;
       sub_fence := m_fence s;
       sub_fenceValue := m_fenceValue s;
       sub_tTracked := FrameData;
       sub_source := SourceTexture;
       sub_U := (ULeft r, URight r);
       sub_V := (VTop r, VBottom r) |} in
  (mkStream (m_streamName s) (m_channel s) (m_clipping s) (m_bufTexture s)
            (m_resolution s) (m_handle s) (m_fence s)
            (wrap fence_t (m_fenceValue s + 2)),
   sent).

(** One frame to send: frame data, source texture, viewport rectangle. *)
Definition Frame : Type := (Z * Texture * FIntRect)%type.

(** The stream after sending the given frames in order. *)
Fixpoint send_frames (s : FFrameStream) (frames : list Frame) : FFrameStream :=
  match frames with
  | [] => s
  | (fd, tex, rect) :: rest =>
      send_frames (fst (SendFrame_RenderingThread s fd tex rect)) rest
  end.

(** What the helper is handed, send by send. *)
Fixpoint submissions (s : FFrameStream) (frames : list Frame) : list Submission :=
  match frames with
  | [] => []
  | (fd, tex, rect) :: rest =>
      snd (SendFrame_RenderingThread s fd tex rect)
      :: submissions (fst (SendFrame_RenderingThread s fd tex rect)) rest
  end.

End FenceType.

Section Setup.

(** [RSUCHelpers::CreateStreamResources(m_bufTexture, m_fence, m_resolution, fmt)]
    lives in RSUCHelpers.inl; it receives the texture and the fence by
    reference and reports success. *)
Variable CreateStreamResources :
  option Texture -> option Fence -> FIntPoint -> RSPixelFormat ->
  bool * option Texture * option Fence.

Inductive Status : Type :=
| StatusNone
| StatusRed (msg : string)
| StatusGreen (msg : string).

Definition Setup (s : FFrameStream) (name : string) (Resolution : FIntPoint)
    (Channel : string) (Clipping : ProjectionClipping) (Handle : StreamHandle)
    (fmt : RSPixelFormat) : bool * FFrameStream * Status :=
  if negb (m_handle s =? 0) then (false, s, StatusNone)
  else
    let '(ok, tex, fence) :=
      CreateStreamResources (m_bufTexture s) (m_fence s) Resolution fmt in
    let s' := mkStream name Channel Clipping tex Resolution Handle fence (m_fenceValue s) in
    if negb ok then (false, s', StatusNone)
    else if Handle =? 0 then (false, s', StatusRed "Error: Unable to create stream")
    else (true, s', StatusGreen "Connected to stream").

End Setup.

(** The stream as the constructor leaves it, the members without an
    initialiser shown zeroed. *)
Definition new_stream : FFrameStream :=
  mkStream "" "" (mkClipping f32_zero f32_zero f32_zero f32_zero) None
           (mkIntPoint 0 0) 0 None 0.

(** Two allocators to run [Setup] with: one that cannot allocate and
    leaves both references as they were, one that allocates a texture of
    the requested size and a fence at address 1. *)
Definition out_of_memory (tex : option Texture) (fence : option Fence)
    (Resolution : FIntPoint) (fmt : RSPixelFormat) : bool * option Texture * option Fence :=
  (false, tex, fence).

Definition allocate (tex : option Texture) (fence : option Fence)
    (Resolution : FIntPoint) (fmt : RSPixelFormat) : bool * option Texture * option Fence :=
  (true, Some (mkTexture (X Resolution) (Y Resolution) fmt), Some 1).

Definition full_hd : FIntPoint := mkIntPoint 1920 1080.
Definition no_clipping : ProjectionClipping :=
  mkClipping f32_zero f32_one f32_zero f32_one.

(** A stream whose fence counter is two below the largest [int32]. *)
Definition late_stream : FFrameStream :=
  mkStream "late" "main" no_clipping (Some (mkTexture 1920 1080 RS_FMT_BGRA8))
           full_hd 9 (Some 1) (int32_max - 1).

Definition full_frame : Frame :=
  (0, mkTexture 1920 1080 RS_FMT_BGRA8, mkIntRect (mkIntPoint 0 0) full_hd).

End FrameStream.

(** ** SceneSelector_StreamingLevels *)

Module SceneSelector_StreamingLevels.

(** An actor is known by its address; 0 is [nullptr]. *)
Definition AActor : Type := Z.
Definition nullactor : AActor := 0.

(** One [ULevelStreaming] object of the world.  [GetWorld] is the prefix
    [StreamingLevelsPrefix] of the world the level belongs to, if any. *)
Record ULevelStreaming : Type := mkLevel {
  GetWorldAssetPackageName : string;
  GetWorld : option string;
  IsLevelLoaded : bool;
  ShouldBeVisible : bool;
  GetLevelScriptActor : AActor
}.

(** A [ULevelStreaming*] is the position of the object in
    [World.GetStreamingLevels()]; [None] is [nullptr].  The position
    names the object in the world it was taken from and in every world
    that holds the same level objects in the same places (see
    [same_level_objects] below), as the world of one session does from
    frame to frame; in a world whose list is ordered differently it would
    name another object than the pointer of the code does, so a binding is
    followed only in such worlds. *)
Definition LevelPtr : Type := option nat.

Record UWorld : Type := mkWorld {
  PersistentLevelScriptActor : AActor;
  GetStreamingLevels : list ULevelStreaming
}.

Definition SetShouldBeVisible (v : bool) (l : ULevelStreaming) : ULevelStreaming :=
  mkLevel (GetWorldAssetPackageName l) (GetWorld l) (IsLevelLoaded l) v
          (GetLevelScriptActor l).

(** The part of [RemoteParameters] that [OnLoadedSchema] reads. *)
Record SceneDecl : Type := mkSceneDecl {
  name : string;
  decl_nParameters : Z;
  decl_hash : Z
}.

Record SchemaSpec : Type := mkSpec {
  streamingLevel : LevelPtr;
  persistentRoot : AActor;
  hash : Z;
  nParameters : Z;
  loaded : bool
}.

Definition set_loaded (spec : SchemaSpec) : SchemaSpec :=
  mkSpec (streamingLevel spec) (persistentRoot spec) (hash spec) (nParameters spec) true.

(** Every binding without a streaming level is marked loaded. *)
Definition base_loaded (specs : list SchemaSpec) : Prop :=
  forall i spec, specs !! i = Some spec ->
    streamingLevel spec = None -> loaded spec = true.

(** What a call leaves behind besides the new bindings and the new world. *)
Inductive Event : Type :=
| LogSkipValidation (scene : string)
| LogSceneIdError (sceneId size : nat)
| LogLoadingLevel (package : string)
| LoadStreamLevel (package : string)
| LogValidating (sceneId : nat)
| LogValidationFailed (sceneId : nat)
| ApplyParameters (sceneId : nat) (roots : list AActor).

(** A call runs to its end, or stops at a failed [check], or follows a
    pointer that is not an object of the world. *)
Inductive Outcome (A : Type) : Type :=
| Done (a : A)
| CheckFailed
| BadPointer.
Arguments Done {A} a.
Arguments CheckFailed {A}.
Arguments BadPointer {A}.

#[global] Instance Outcome_bind : MBind Outcome := fun A B k m =>
  match m with
  | Done a => k a
  | CheckFailed => CheckFailed
  | BadPointer => BadPointer
  end.

Definition deref (World : UWorld) (p : nat) : Outcome ULevelStreaming :=
  match GetStreamingLevels World !! p with
  | Some l => Done l
  | None => BadPointer
  end.

Section Engine.

(** Engine string helpers. *)
Variable GetShortName : string -> string.
Variable RemoveFromStart : string -> string -> string.
Variable FString_eq : string -> string -> bool.

(** [ValidateParameters(Schema().scenes.scenes[sceneId], roots)] of the
    base class: the stored scene is found by its index. *)
Variable ValidateParameters : UWorld -> nat -> list AActor -> bool.

(** A [SchemaSpec] as [m_specs.resize] creates it. *)
Variable SchemaSpec_default : SchemaSpec.

Definition LevelName (streaming : ULevelStreaming) : string :=
  let short := GetShortName (GetWorldAssetPackageName streaming) in
  match GetWorld streaming with
  | Some prefix => RemoveFromStart short prefix
  | None => short
  end.

(** [findStreamingLevelByName]: the first level of this name, searching
    [levels] whose first element sits at position [i]. *)
Fixpoint find_from (levels : list ULevelStreaming) (i : nat) (FindName : string) : LevelPtr :=
  match levels with
  | [] => None
  | streaming :: rest =>
      if FString_eq FindName (LevelName streaming) then Some i
      else find_from rest (S i) FindName
  end.

Definition findStreamingLevelByName (World : UWorld) (FindName : string) : LevelPtr :=
  find_from (GetStreamingLevels World) 0%nat FindName.

(** [found] is the first level of the world with the name [FindName], or
    [nullptr] when the world has no level of this name. *)
Definition first_of_name (World : UWorld) (FindName : string) (found : LevelPtr) : Prop :=
  match found with
  | Some p =>
      exists l, GetStreamingLevels World !! p = Some l
                /\ FString_eq FindName (LevelName l) = true
                /\ forall k l', (k < p)%nat -> GetStreamingLevels World !! k = Some l' ->
                                FString_eq FindName (LevelName l') = false
  | None =>
      forall k l', GetStreamingLevels World !! k = Some l' ->
                   FString_eq FindName (LevelName l') = false
  end.

(** [ValidateLevel(sceneId)] over the bindings [specs]. *)
Definition ValidateLevel (World : UWorld) (specs : list SchemaSpec) (sceneId : nat)
  : Outcome (bool * list Event) :=
  match specs !! sceneId with
  | None => BadPointer
  | Some spec =>
      levelRoot ← (match streamingLevel spec with
                    | Some p => l ← deref World p; Done (GetLevelScriptActor l)
                    | None => Done nullactor
                    end : Outcome AActor);
      if ValidateParameters World sceneId [persistentRoot spec; levelRoot]
      then Done (true, [LogValidating sceneId])
      else Done (false, [LogValidating sceneId; LogValidationFailed sceneId])
  end.

(** The body of the loop of [OnLoadedSchema] for scene [i]. *)
Definition OnLoadedSchema_step (World : UWorld) (i : nat) (parameters : SceneDecl)
    (st : list SchemaSpec * list Event) : Outcome (list SchemaSpec * list Event) :=
  let '(specs, log) := st in
  let found := findStreamingLevelByName World (name parameters) in
  match specs !! i with
  | None => BadPointer
  | Some old =>
      let spec := mkSpec found (PersistentLevelScriptActor World)
                         (decl_hash parameters) (decl_nParameters parameters) (loaded old) in
      levelLoaded ← (match found with
                      | Some p => l ← deref World p; Done (IsLevelLoaded l)
                      | None => Done true
                      end : Outcome bool);
      if (levelLoaded : bool)
      then
        let specs' := <[i := set_loaded spec]> specs in
        r ← ValidateLevel World specs' i;
        Done (specs', log ++ snd r)
      else
        Done (<[i := spec]> specs, log ++ [LogSkipValidation (name parameters)])
  end.

Fixpoint OnLoadedSchema_loop (World : UWorld) (i : nat) (scenes : list SceneDecl)
    (st : list SchemaSpec * list Event) : Outcome (list SchemaSpec * list Event) :=
  match scenes with
  | [] => Done st
  | parameters :: rest =>
      st' ← OnLoadedSchema_step World i parameters st;
      OnLoadedSchema_loop World (S i) rest st'
  end.

(** [OnLoadedSchema(World, Schema)] on the bindings [m_specs]: the
    returned flag, the new bindings and the log. *)
Definition OnLoadedSchema (World : UWorld) (Schema : list SceneDecl)
    (m_specs : list SchemaSpec) : Outcome (bool * list SchemaSpec * list Event) :=
  let resized := resize (length Schema) SchemaSpec_default m_specs in
  st ← OnLoadedSchema_loop World 0%nat Schema (resized, []);
  Done (true, fst st, snd st).

(** The two activation loops of [ApplyScene]. *)
Definition hide_all (levels : list ULevelStreaming) : list ULevelStreaming :=
  map (SetShouldBeVisible false) levels.

Fixpoint activate_from (spec : SchemaSpec) (sceneId : nat) (j : nat)
    (levels : list ULevelStreaming) : list ULevelStreaming * list Event :=
  match levels with
  | [] => ([], [])
  | streaming :: rest =>
      let '(rest', log) := activate_from spec sceneId (S j) rest in
      if decide (streamingLevel spec = Some j) then
        if negb (IsLevelLoaded streaming) then (streaming :: rest', log)
        else (SetShouldBeVisible true streaming :: rest',
              ApplyParameters sceneId [persistentRoot spec; GetLevelScriptActor streaming] :: log)
      else if decide (streamingLevel spec <> None) then
        (SetShouldBeVisible false streaming :: rest', log)
      else (streaming :: rest', log)
  end.

Definition activate (World : UWorld) (spec : SchemaSpec) (sceneId : nat)
  : UWorld * list Event :=
  let root := PersistentLevelScriptActor World in
  if bool_decide (streamingLevel spec = None) && (persistentRoot spec =? root)
  then (mkWorld root (hide_all (GetStreamingLevels World)),
        [ApplyParameters sceneId [root]])
  else
    let '(levels, log) := activate_from spec sceneId 0%nat (GetStreamingLevels World) in
    (mkWorld root levels, log).

(** [ApplyScene(World, sceneId)] on the bindings [m_specs]. *)
Definition ApplyScene (World : UWorld) (sceneId : nat) (m_specs : list SchemaSpec)
  : Outcome (list SchemaSpec * UWorld * list Event) :=
  match m_specs !! sceneId with
  | None => Done (m_specs, World, [LogSceneIdError sceneId (length m_specs)])
  | Some spec =>
      if negb (loaded spec) then
        match streamingLevel spec with
        | None => CheckFailed
        | Some p =>
            l ← deref World p;
            if negb (IsLevelLoaded l) then
              Done (m_specs, World,
                    [LogLoadingLevel (GetWorldAssetPackageName l);
                     LoadStreamLevel (GetWorldAssetPackageName l)])
            else
              let specs' := <[sceneId := set_loaded spec]> m_specs in
              r ← ValidateLevel World specs' sceneId;
              let '(World', log) := activate World (set_loaded spec) sceneId in
              Done (specs', World', snd r ++ log)
        end
      else
        let '(World', log) := activate World spec sceneId in
        Done (m_specs, World', log)
  end.

(** [ApplyScene] called once per frame, for [frames] frames, on a world
    that does not change in between. *)
Fixpoint apply_each_frame (frames : nat) (World : UWorld) (sceneId : nat)
    (m_specs : list SchemaSpec) : Outcome (list SchemaSpec * UWorld * list Event) :=
  match frames with
  | O => Done (m_specs, World, [])
  | S frames' =>
      r ← ApplyScene World sceneId m_specs;
      r' ← apply_each_frame frames' r.1.2 sceneId r.1.1;
      Done (r'.1.1, r'.1.2, r.2 ++ r'.2)
  end.

(** A run of [ApplyScene] calls, each with the world as it is then and
    its scene index, on the bindings the call before left. *)
Fixpoint apply_scenes (calls : list (UWorld * nat)) (m_specs : list SchemaSpec)
  : Outcome (list SchemaSpec) :=
  match calls with
  | [] => Done m_specs
  | (World, sceneId) :: rest =>
      r ← ApplyScene World sceneId m_specs;
      apply_scenes rest r.1.1
  end.

(** *** What one pass of [OnLoadedSchema] amounts to, scene by scene *)

(** No level to load, or the level is loaded. *)
Definition level_ready (World : UWorld) (found : LevelPtr) : bool :=
  match found with
  | None => true
  | Some p =>
      match GetStreamingLevels World !! p with
      | Some l => IsLevelLoaded l
      | None => false
      end
  end.

Definition level_root (World : UWorld) (found : LevelPtr) : AActor :=
  match found with
  | None => nullactor
  | Some p =>
      match GetStreamingLevels World !! p with
      | Some l => GetLevelScriptActor l
      | None => nullactor
      end
  end.

Definition validation_events (World : UWorld) (sceneId : nat) (spec : SchemaSpec)
  : list Event :=
  if ValidateParameters World sceneId
       [persistentRoot spec; level_root World (streamingLevel spec)]
  then [LogValidating sceneId]
  else [LogValidating sceneId; LogValidationFailed sceneId].

Definition bound_spec (World : UWorld) (old : SchemaSpec) (parameters : SceneDecl)
  : SchemaSpec :=
  let found := findStreamingLevelByName World (name parameters) in
  mkSpec found (PersistentLevelScriptActor World) (decl_hash parameters)
         (decl_nParameters parameters)
         (if level_ready World found then true else loaded old).

Definition scene_events (World : UWorld) (i : nat) (old : SchemaSpec)
    (parameters : SceneDecl) : list Event :=
  if level_ready World (findStreamingLevelByName World (name parameters))
  then validation_events World i (bound_spec World old parameters)
  else [LogSkipValidation (name parameters)].

End Engine.

(** *** A world to run the selector in

    The persistent level with script actor 100 and two streaming levels,
    "Forest" (not loaded) and "Cave" (loaded, visible); the schema
    declares the scenes "Base" and "Forest". *)
Definition short_name (path : string) : string := path.
Definition remove_prefix (s prefix : string) : string := s.
Definition accept_all (World : UWorld) (sceneId : nat) (roots : list AActor) : bool := true.
Definition blank_spec : SchemaSpec := mkSpec None nullactor 0 0 false.

Definition demo_world : UWorld :=
  mkWorld 100 [mkLevel "Forest" None false false nullactor;
               mkLevel "Cave" None true true 102].

(** The same world once "Forest" has been loaded. *)
Definition demo_world_loaded : UWorld :=
  mkWorld 100 [mkLevel "Forest" None true false 101;
               mkLevel "Cave" None true true 102].

Definition demo_schema : list SceneDecl :=
  [mkSceneDecl "Base" 2 11; mkSceneDecl "Forest" 3 12].

Definition demo_specs : list SchemaSpec :=
  [mkSpec None 100 11 2 true; mkSpec (Some 0%nat) 100 12 3 false].

(** *** Comparing worlds and logs *)

(** [World'] holds the level objects of [World], each in its place: as
    many levels, each with the package and the world it had.  What a
    level object changes over time is left free: whether it is loaded,
    whether it is visible, its script actor. *)
Definition same_level_objects (World World' : UWorld) : Prop :=
  Forall2 (fun l l' => GetWorldAssetPackageName l = GetWorldAssetPackageName l'
                       /\ GetWorld l = GetWorld l')
          (GetStreamingLevels World) (GetStreamingLevels World').

(** Two levels that differ in their visibility at most. *)
Definition same_but_visibility (l l' : ULevelStreaming) : Prop :=
  l' = SetShouldBeVisible (ShouldBeVisible l') l.

(** The events of [ValidateLevel]. *)
Definition is_validation (e : Event) : bool :=
  match e with
  | LogValidating _ | LogValidationFailed _ => true
  | _ => false
  end.

End SceneSelector_StreamingLevels.

(** ** RenderStreamLink::ScopedSchema and the allocations it owns *)

Module RenderStreamLink.

(** An address; 0 is [nullptr]. *)
Definition ptr : Type := Z.
Definition nullptr : ptr := 0.

Record RemoteParameter : Type := mkRemoteParameter {
  group : ptr;
  displayName : ptr;
  key : ptr;
  min : float;
  max : float;
  step : float;
  defaultValue : float;
  nOptions : Z;
  options : ptr;
  dmxOffset : Z;
  dmxType : Z
}.

Record RemoteParameters : Type := mkRemoteParameters {
  name : ptr;
  nParameters : Z;
  parameters : ptr;
  hash : Z
}.

Record Scenes : Type := mkScenes { nScenes : Z; scenes : ptr }.
Record Channels : Type := mkChannels { nChannels : Z; channels : ptr }.
Record Schema : Type := mkSchema { schema_channels : Channels; schema_scenes : Scenes }.

(** What one [malloc]/[_strdup] block holds. *)
Inductive block : Type :=
| Chars (s : string)
| Strings (a : list ptr)
| ParameterArray (a : list RemoteParameter)
| SceneArray (a : list RemoteParameters).

(** The C heap: the blocks that are allocated, and the addresses that
    were handed to [free] so far, latest first. *)
Record heap : Type := mkHeap {
  live : gmap Z block;
  freed : list ptr
}.

(** [free(p)]: nothing for [nullptr]; releases a live block; anything
    else (a second [free], a wild pointer) is undefined and stops. *)
Definition free (p : ptr) (h : heap) : option heap :=
  if p =? 0 then Some h
  else match live h !! p with
       | Some _ => Some (mkHeap (delete p (live h)) (p :: freed h))
       | None => None
       end.

(** Reading element [i] of an array; reading through [nullptr], a freed
    block, a block of another kind or past its end is undefined. *)
Definition load_string_ptr (h : heap) (arr : ptr) (i : nat) : option ptr :=
  if arr =? 0 then None
  else match live h !! arr with
       | Some (Strings a) => a !! i
       | _ => None
       end.

Definition load_parameter (h : heap) (arr : ptr) (i : nat) : option RemoteParameter :=
  if arr =? 0 then None
  else match live h !! arr with
       | Some (ParameterArray a) => a !! i
       | _ => None
       end.

Definition load_scene (h : heap) (arr : ptr) (i : nat) : option RemoteParameters :=
  if arr =? 0 then None
  else match live h !! arr with
       | Some (SceneArray a) => a !! i
       | _ => None
       end.

(** [for (k = i; k < i + n; ++k) free(arr[k]);] *)
Fixpoint free_strings (arr : ptr) (i n : nat) (h : heap) : option heap :=
  match n with
  | O => Some h
  | S n' =>
      p ← load_string_ptr h arr i;
      h' ← free p h;
      free_strings arr (S i) n' h'
  end.

(** The body of the loop over the parameters of a scene.  The element
    [parameter] of the array is read when the iteration starts; the array
    itself is freed after the loop. *)
Definition free_parameter (parameter : RemoteParameter) (h : heap) : option heap :=
  h1 ← free (group parameter) h;
  h2 ← free (displayName parameter) h1;
  h3 ← free (key parameter) h2;
  h4 ← free_strings (options parameter) 0 (Z.to_nat (nOptions parameter)) h3;
  free (options parameter) h4.

Fixpoint free_parameters (arr : ptr) (j n : nat) (h : heap) : option heap :=
  match n with
  | O => Some h
  | S n' =>
      parameter ← load_parameter h arr j;
      h' ← free_parameter parameter h;
      free_parameters arr (S j) n' h'
  end.

(** The body of the loop over the scenes. *)
Definition free_scene (scene : RemoteParameters) (h : heap) : option heap :=
  h1 ← free (name scene) h;
  h2 ← free_parameters (parameters scene) 0 (Z.to_nat (nParameters scene)) h1;
  free (parameters scene) h2.

Fixpoint free_scenes (arr : ptr) (i n : nat) (h : heap) : option heap :=
  match n with
  | O => Some h
  | S n' =>
      scene ← load_scene h arr i;
      h' ← free_scene scene h;
      free_scenes arr (S i) n' h'
  end.

Record ScopedSchema : Type := mkScoped { schema : Schema }.

(** [clear()]: the empty schema. *)
Definition clear : ScopedSchema :=
  mkScoped (mkSchema (mkChannels 0 nullptr) (mkScenes 0 nullptr)).

(** [reset()]: the object and the heap afterwards. *)
Definition reset (s : ScopedSchema) (h : heap) : option (ScopedSchema * heap) :=
  let ch := schema_channels (schema s) in
  let sc := schema_scenes (schema s) in
  h1 ← free_strings (channels ch) 0 (Z.to_nat (nChannels ch)) h;
  h2 ← free (channels ch) h1;
  h3 ← free_scenes (scenes sc) 0 (Z.to_nat (nScenes sc)) h2;
  h4 ← free (scenes sc) h3;
  Some (clear, h4).

(** The destructor. *)
Definition destroy (s : ScopedSchema) (h : heap) : option heap :=
  snd <$> reset s h.

(** The move constructor: the new object, [other] afterwards, the heap. *)
Definition move_construct (other : ScopedSchema) (h : heap)
  : option (ScopedSchema * ScopedSchema * heap) :=
  let this := mkScoped (schema other) in
  r ← reset other h;
  Some (this, fst r, snd r).

(** Move assignment [this = std::move(other)] where [this] and [other]
    are two objects: the new [this], [other] afterwards, the heap.  For
    [a = std::move(a)] see [move_assign_self]. *)
Definition move_assign (this other : ScopedSchema) (h : heap)
  : option (ScopedSchema * ScopedSchema * heap) :=
  let this' := mkScoped (schema other) in
  r ← reset other h;
  Some (this', fst r, snd r).

(** Self-assignment [a = std::move(a)]: [this] and [other] are one
    object.  The assignment of [schema] to itself leaves it as it is, and
    then the object, being [other], is reset: the object and the heap
    afterwards. *)
Definition move_assign_self (this : ScopedSchema) (h : heap)
  : option (ScopedSchema * heap) :=
  let this' := mkScoped (schema this) in
  reset this' h.

(** *** The allocations a schema reaches, in the order [reset] visits them *)

Definition nonnull (p : ptr) : list ptr := if p =? 0 then [] else [p].

Fixpoint strings_footprint (h : heap) (arr : ptr) (i n : nat) : option (list ptr) :=
  match n with
  | O => Some []
  | S n' =>
      p ← load_string_ptr h arr i;
      rest ← strings_footprint h arr (S i) n';
      Some (nonnull p ++ rest)
  end.

Definition parameter_footprint (h : heap) (parameter : RemoteParameter) : option (list ptr) :=
  opts ← strings_footprint h (options parameter) 0 (Z.to_nat (nOptions parameter));
  Some (nonnull (group parameter) ++ nonnull (displayName parameter)
        ++ nonnull (key parameter) ++ opts ++ nonnull (options parameter)).

Fixpoint parameters_footprint (h : heap) (arr : ptr) (j n : nat) : option (list ptr) :=
  match n with
  | O => Some []
  | S n' =>
      parameter ← load_parameter h arr j;
      here ← parameter_footprint h parameter;
      rest ← parameters_footprint h arr (S j) n';
      Some (here ++ rest)
  end.

Definition scene_footprint (h : heap) (scene : RemoteParameters) : option (list ptr) :=
  ps ← parameters_footprint h (parameters scene) 0 (Z.to_nat (nParameters scene));
  Some (nonnull (name scene) ++ ps ++ nonnull (parameters scene)).

Fixpoint scenes_footprint (h : heap) (arr : ptr) (i n : nat) : option (list ptr) :=
  match n with
  | O => Some []
  | S n' =>
      scene ← load_scene h arr i;
      here ← scene_footprint h scene;
      rest ← scenes_footprint h arr (S i) n';
      Some (here ++ rest)
  end.

Definition footprint (h : heap) (s : ScopedSchema) : option (list ptr) :=
  let ch := schema_channels (schema s) in
  let sc := schema_scenes (schema s) in
  cs ← strings_footprint h (channels ch) 0 (Z.to_nat (nChannels ch));
  ss ← scenes_footprint h (scenes sc) 0 (Z.to_nat (nScenes sc));
  Some (cs ++ nonnull (channels ch) ++ ss ++ nonnull (scenes sc)).

(** [s] owns its allocations in [h]: every string and array it reaches is
    there, is allocated, and is reached once. *)
Definition owns (h : heap) (s : ScopedSchema) (allocations : list ptr) : Prop :=
  footprint h s = Some allocations
  /\ NoDup allocations
  /\ Forall (fun p => is_Some (live h !! p)) allocations.

(** The heap [h] without the blocks at [ps]. *)
Definition without (m : gmap Z block) (ps : list ptr) : gmap Z block :=
  fold_left (fun m p => delete p m) ps m.

(** [cur] is [h0] after the blocks at [done] were freed, in this order. *)
Definition released (h0 : heap) (done : list ptr) (cur : heap) : Prop :=
  live cur = without (live h0) done /\ freed cur = rev done ++ freed h0.

(** *** A populated schema to run the operations on

    One channel ["main"]; one scene ["Forest"] with one parameter that has
    two options. *)
Definition demo_heap : heap :=
  mkHeap (list_to_map
    [ (10, Strings [11]); (11, Chars "main");
      (20, SceneArray [mkRemoteParameters 21 1 30 77]);
      (21, Chars "Forest");
      (30, ParameterArray
             [mkRemoteParameter 31 32 33 f32_zero f32_one f32_one f32_zero 2 40 (-1) 2]);
      (31, Chars "Lighting"); (32, Chars "Mode"); (33, Chars "Mode");
      (40, Strings [41; 42]); (41, Chars "Off"); (42, Chars "On");
      (50, Strings [51]); (51, Chars "old") ]) [].

Definition demo_schema : ScopedSchema :=
  mkScoped (mkSchema (mkChannels 1 10) (mkScenes 1 20)).

(** A second object, owning the channel array at 50. *)
Definition demo_old : ScopedSchema :=
  mkScoped (mkSchema (mkChannels 1 50) (mkScenes 0 nullptr)).

End RenderStreamLink.

(** ** The editor module: ConvertFields and GenerateScene *)

Module RenderStreamEditor.

(** [TArray::Num()] is an [int32]: an array never holds more elements. *)
Definition TArray_ok {A} (a : list A) : Prop :=
  Z.of_nat (length a) <= int32_max.

Definition Num {A} (a : list A) : Z := Z.of_nat (length a).

Record FRenderStreamExposedParameterEntry : Type := mkEntry {
  Group : string;
  DisplayName : string;
  Key : string;
  Min : float;
  Max : float;
  Step : float;
  DefaultValue : float;
  Options : list string;
  DmxOffset : Z;
  DmxType : Z
}.

Record URenderStreamChannelCacheAsset : Type := mkCache {
  Level : string;
  Channels : list string;
  ExposedParams : list FRenderStreamExposedParameterEntry;
  SubLevels : list string
}.

(** The records written for the router.  A C string made by [_strdup]
    and an array made by [malloc] stand here by what they hold; an array
    slot that was never written is [None]. *)
Record RemoteParameter : Type := mkRemoteParameter {
  group : string;
  displayName : string;
  key : string;
  min : float;
  max : float;
  step : float;
  defaultValue : float;
  nOptions : Z;
  options : list (option string);
  dmxOffset : Z;
  dmxType : Z
}.

Record RemoteParameters : Type := mkRemoteParameters {
  name : string;
  nParameters : Z;
  parameters : list (option RemoteParameter)
}.

Section Conversion.

Variable TCHAR_TO_UTF8 : string -> string.
Variable GetShortName : string -> string.

(** [malloc(n * sizeof(T))]: [n] slots, none written. *)
Definition malloc {A} (n : Z) : list (option A) := replicate (Z.to_nat n) None.

(** [a[i] = x]; writing past the end of the block is undefined. *)
Definition store {A} (a : list (option A)) (i : nat) (x : A) : option (list (option A)) :=
  if decide (i < length a)%nat then Some (<[i := Some x]> a) else None.

(** [for (j = from; j < nOptions; ++j) options[j] = _strdup(Options[j]);]
    with [todo] the iterations left. *)
Fixpoint fill_options (out : list (option string)) (Options : list string)
    (j todo : nat) : option (list (option string)) :=
  match todo with
  | O => Some out
  | S todo' =>
      s ← Options !! j;
      out' ← store out j (TCHAR_TO_UTF8 s);
      fill_options out' Options (S j) todo'
  end.

(** The body of the loop of [ConvertFields]. *)
Definition convert_entry (entry : FRenderStreamExposedParameterEntry) : option RemoteParameter :=
  let n := wrap_uint32 (Num (Options entry)) in
  opts ← fill_options (malloc n) (Options entry) 0 (Z.to_nat n);
  Some {| group := TCHAR_TO_UTF8 (Group entry);
          displayName := TCHAR_TO_UTF8 (DisplayName entry);
          key := TCHAR_TO_UTF8 (Key entry);
          min := Min entry;
          max := Max entry;
          step := Step entry;
          defaultValue := DefaultValue entry;
          nOptions := n;
          options := opts;
          dmxOffset := -1;
          dmxType := 2 |}.

(** [ConvertFields(outputIterator, input)], the iterator standing at slot
    [pos] of the array [out]. *)
Fixpoint ConvertFields (out : list (option RemoteParameter)) (pos : nat)
    (input : list FRenderStreamExposedParameterEntry) : option (list (option RemoteParameter)) :=
  match input with
  | [] => Some out
  | entry :: rest =>
      parameter ← convert_entry entry;
      out' ← store out pos parameter;
      ConvertFields out' (S pos) rest
  end.

(** [GenerateScene(SceneParameters, cache, persistent)]; [persistent] may
    be [nullptr]. *)
Definition GenerateScene (cache : URenderStreamChannelCacheAsset)
    (persistent : option URenderStreamChannelCacheAsset) : option RemoteParameters :=
  let sceneName := GetShortName (Level cache) in
  let nParams :=
    wrap_uint32 (wrap_int32
      ((match persistent with Some p => Num (ExposedParams p) | None => 0 end)
       + Num (ExposedParams cache))) in
  let array := malloc nParams in
  '(array1, offset) ←
     match persistent with
     | Some p =>
         a ← ConvertFields array 0 (ExposedParams p);
         Some (a, length (ExposedParams p))
     | None => Some (array, 0%nat)
     end;
  array2 ← ConvertFields array1 offset (ExposedParams cache);
  Some {| name := TCHAR_TO_UTF8 sceneName;
          nParameters := nParams;
          parameters := array2 |}.

(** What an entry becomes, field by field. *)
Definition converted (entry : FRenderStreamExposedParameterEntry) : RemoteParameter :=
  {| group := TCHAR_TO_UTF8 (Group entry);
     displayName := TCHAR_TO_UTF8 (DisplayName entry);
     key := TCHAR_TO_UTF8 (Key entry);
     min := Min entry;
     max := Max entry;
     step := Step entry;
     defaultValue := DefaultValue entry;
     nOptions := Num (Options entry);
     options := map (fun s => Some (TCHAR_TO_UTF8 s)) (Options entry);
     dmxOffset := -1;
     dmxType := 2 |}.

Definition persistent_params (persistent : option URenderStreamChannelCacheAsset)
  : list FRenderStreamExposedParameterEntry :=
  match persistent with
  | Some p => ExposedParams p
  | None => []
  end.

End Conversion.

(** *** Two caches to generate a scene from *)
Definition utf8 (s : string) : string := s.
Definition package_short_name (path : string) : string := path.

Definition persistent_cache : URenderStreamChannelCacheAsset :=
  mkCache "Main" ["main"]
    [mkEntry "Sun" "Intensity" "Intensity" f32_zero f32_one f32_one f32_zero [] (-1) 2]
    ["Forest"].

Definition forest_cache : URenderStreamChannelCacheAsset :=
  mkCache "Forest" []
    [mkEntry "Fog" "Enabled" "Enabled" f32_zero f32_one f32_one f32_zero ["Off"; "On"] (-1) 2;
     mkEntry "Fog" "Density" "Density" f32_zero f32_one f32_one f32_zero [] (-1) 2]
    [].

(** *** The exposed parameters of a level script actor *)

Record UEnum : Type := mkEnum {
  GetMaxEnumValue : Z;
  GetDisplayNameTextByIndex : Z -> string
}.

(** What [EnumOptions] asks a numeric property. *)
Record FNumericProperty : Type := mkNumeric {
  IsEnum : bool;
  GetIntPropertyEnum : option UEnum
}.

(** The class of a property, as the chain of [CastField] in
    [GenerateParameters] tells it, with the value the property has in the
    actor: a [uint8] for a byte, an [int32] for an int, the components of
    an [FVector], [FColor] or [FLinearColor] for these structs. *)
Inductive PropertyValue : Type :=
| BoolProperty (v : bool)
| ByteProperty (v : Z) (numeric : FNumericProperty)
| IntProperty (v : Z) (numeric : FNumericProperty)
| FloatProperty (v : float)
| VectorProperty (vx vy vz : float)
| ColorProperty (r g b a : Z)
| LinearColorProperty (r g b a : float)
| StructProperty
| OtherProperty.

(** A property of the class of the actor.  The metadata [ClampMin] and
    [ClampMax] are [None] where [HasMetaData] is false. *)
Record FProperty : Type := mkProperty {
  GetName : string;
  Category : string;
  CPF_Edit : bool;
  CPF_BlueprintVisible : bool;
  CPF_DisableEditOnInstance : bool;
  ClampMin : option string;
  ClampMax : option string;
  property_value : PropertyValue
}.

(** An actor, by the properties its class declares. *)
Definition AActor : Type := list FProperty.

Definition IsEmpty (s : string) : bool :=
  match s with
  | EmptyString => true
  | _ => false
  end.

(** The literals [0.001f] and [0.0001f]: the floats nearest to 1/1000 and
    to 1/10000. *)
Definition f32_0_001 : float := fdiv (float_of_int 1) (float_of_int 1000).
Definition f32_0_0001 : float := fdiv (float_of_int 1) (float_of_int 10000).

(** [CreateField(parameter, ...)]: the entry it fills in. *)
Definition CreateField (group displayName_ suffix key_ undecoratedSuffix : string)
    (min max step defaultValue : float) (options : list string)
  : FRenderStreamExposedParameterEntry :=
  let key := key_ +:+ (if IsEmpty undecoratedSuffix then "" else "_" +:+ undecoratedSuffix) in
  let displayName := displayName_ +:+ (if IsEmpty suffix then "" else " " +:+ suffix) in
  let '(min, max, step) :=
    if 0 <? Num options
    then (float_of_int 0, float_of_int (Num options - 1), float_of_int 1)
    else (min, max, step) in
  mkEntry group displayName key min max step defaultValue options (-1) 2.

Definition EnumOptions (NumericProperty : FNumericProperty) : list string :=
  if negb (IsEnum NumericProperty) then []
  else match GetIntPropertyEnum NumericProperty with
       | None => []
       | Some Enum =>
           map (fun i => GetDisplayNameTextByIndex Enum (Z.of_nat i))
               (seq 0 (Z.to_nat (GetMaxEnumValue Enum)))
       end.

Section Parameters.

Variable Atof : string -> float.

(** [HasLimits ? Atof(ClampMin) : lo] and [HasLimits ? Atof(ClampMax) : hi]. *)
Definition limits (Property : FProperty) (lo hi : Z) : float * float :=
  match ClampMin Property, ClampMax Property with
  | Some least, Some most => (Atof least, Atof most)
  | _, _ => (float_of_int lo, float_of_int hi)
  end.

(** The body of the loop of [GenerateParameters] for one property; the
    log lines are left out. *)
Definition GenerateParameters_step (Parameters : list FRenderStreamExposedParameterEntry)
    (Property : FProperty) : list FRenderStreamExposedParameterEntry :=
  let Name := GetName Property in
  let Category := Category Property in
  if negb (CPF_Edit Property && CPF_BlueprintVisible Property)
     || CPF_DisableEditOnInstance Property
  then Parameters
  else
    match property_value Property with
    | BoolProperty v =>
        Parameters ++
        [CreateField Category Name "" Name "" (float_of_int 0) (float_of_int 1)
           (float_of_int 1) (if v then float_of_int 1 else float_of_int 0) ["Off"; "On"]]
    | ByteProperty v numeric =>
        let Options := EnumOptions numeric in
        let '(Min, Max) := limits Property 0 255 in
        Parameters ++
        [CreateField Category Name "" Name "" Min Max (float_of_int 1) (float_of_int v)
           Options]
    | IntProperty v numeric =>
        let Options := EnumOptions numeric in
        let '(Min, Max) := limits Property (-1000) 1000 in
        Parameters ++
        [CreateField Category Name "" Name "" Min Max (float_of_int 1) (float_of_int v)
           Options]
    | FloatProperty v =>
        let '(Min, Max) := limits Property (-1) 1 in
        Parameters ++ [CreateField Category Name "" Name "" Min Max f32_0_001 v []]
    | VectorProperty vx vy vz =>
        Parameters ++
        [CreateField Category Name "x" Name "x" (float_of_int (-1)) (float_of_int 1)
           f32_0_001 vx [];
         CreateField Category Name "y" Name "y" (float_of_int (-1)) (float_of_int 1)
           f32_0_001 vy [];
         CreateField Category Name "z" Name "z" (float_of_int (-1)) (float_of_int 1)
           f32_0_001 vz []]
    | ColorProperty r g b a =>
        Parameters ++
        [CreateField Category Name "r" Name "r" (float_of_int 0) (float_of_int 1)
           f32_0_0001 (fdiv (float_of_int r) (float_of_int 255)) [];
         CreateField Category Name "g" Name "g" (float_of_int 0) (float_of_int 1)
           f32_0_0001 (fdiv (float_of_int g) (float_of_int 255)) [];
         CreateField Category Name "b" Name "b" (float_of_int 0) (float_of_int 1)
           f32_0_0001 (fdiv (float_of_int b) (float_of_int 255)) [];
         CreateField Category Name "a" Name "a" (float_of_int 0) (float_of_int 1)
           f32_0_0001 (fdiv (float_of_int a) (float_of_int 255)) []]
    | LinearColorProperty r g b a =>
        Parameters ++
        [CreateField Category Name "r" Name "r" (float_of_int 0) (float_of_int 1)
           f32_0_0001 r [];
         CreateField Category Name "g" Name "g" (float_of_int 0) (float_of_int 1)
           f32_0_0001 g [];
         CreateField Category Name "b" Name "b" (float_of_int 0) (float_of_int 1)
           f32_0_0001 b [];
         CreateField Category Name "a" Name "a" (float_of_int 0) (float_of_int 1)
           f32_0_0001 a []]
    | StructProperty => Parameters
    | OtherProperty => Parameters
    end.

(** [GenerateParameters(Parameters, Root)]; [Root] may be [nullptr]. *)
Definition GenerateParameters (Parameters : list FRenderStreamExposedParameterEntry)
    (Root : option AActor) : list FRenderStreamExposedParameterEntry :=
  match Root with
  | None => Parameters
  | Some properties => fold_left GenerateParameters_step properties Parameters
  end.

End Parameters.

(** Whether [GenerateParameters] takes the property up, and the number
    of entries it makes of it. *)
Definition exposed (Property : FProperty) : bool :=
  CPF_Edit Property && CPF_BlueprintVisible Property
  && negb (CPF_DisableEditOnInstance Property).

Definition fields_of (Property : FProperty) : nat :=
  if exposed Property then
    match property_value Property with
    | BoolProperty _ | ByteProperty _ _ | IntProperty _ _ | FloatProperty _ => 1
    | VectorProperty _ _ _ => 3
    | ColorProperty _ _ _ _ | LinearColorProperty _ _ _ _ => 4
    | StructProperty | OtherProperty => 0
    end
  else 0.

Definition fields_of_actor (Root : option AActor) : nat :=
  match Root with
  | None => 0
  | Some properties => sum_list_with fields_of properties
  end.

(** An entry as [CreateField] leaves it: automatic DMX offset, 16 bit
    big-endian DMX, and with options the range of their indices. *)
Definition created (entry : FRenderStreamExposedParameterEntry) : Prop :=
  DmxOffset entry = -1 /\ DmxType entry = 2
  /\ (Options entry <> [] ->
      Min entry = f32_zero
      /\ Max entry = float_of_int (Num (Options entry) - 1)
      /\ Step entry = f32_one).

(** The default value of an entry is within its range. *)
Definition default_in_range (entry : FRenderStreamExposedParameterEntry) : bool :=
  fleb (Min entry) (DefaultValue entry) && fleb (DefaultValue entry) (Max entry).

(** *** The flag [DirtyAssetMetadata] *)

(** A class object, by its address. *)
Definition UClass : Type := Z.

(** What [OnBeginFrame] did about the metadata: [GenerateAssetMetadata]
    ran, or returned at once because the link is not available. *)
Inductive Generation : Type := Generated | SkippedUnavailable.

Section DirtyFlag.

Variable UWorld_StaticClass : UClass.

Definition OnPostSaveWorld (bSuccess : bool) (DirtyAssetMetadata : bool) : bool :=
  if bSuccess then true else DirtyAssetMetadata.

Definition OnAssetsDeleted (DeletedAssetClasses : list UClass) (DirtyAssetMetadata : bool)
  : bool :=
  if bool_decide (UWorld_StaticClass ∈ DeletedAssetClasses) then true
  else DirtyAssetMetadata.

(** [OnBeginFrame], with whether the link is available when it runs. *)
Definition OnBeginFrame (isAvailable : bool) (DirtyAssetMetadata : bool)
  : list Generation * bool :=
  if DirtyAssetMetadata
  then ([if isAvailable then Generated else SkippedUnavailable], false)
  else ([], DirtyAssetMetadata).

Inductive EditorEvent : Type :=
| PostSaveWorld (bSuccess : bool)
| AssetsDeleted (DeletedAssetClasses : list UClass)
| BeginFrame (isAvailable : bool).

(** The delegates called in the order of [events]. *)
Fixpoint editor_run (events : list EditorEvent) (DirtyAssetMetadata : bool)
  : list Generation * bool :=
  match events with
  | [] => ([], DirtyAssetMetadata)
  | PostSaveWorld bSuccess :: rest =>
      editor_run rest (OnPostSaveWorld bSuccess DirtyAssetMetadata)
  | AssetsDeleted classes :: rest =>
      editor_run rest (OnAssetsDeleted classes DirtyAssetMetadata)
  | BeginFrame isAvailable :: rest =>
      let '(done, dirty) := OnBeginFrame isAvailable DirtyAssetMetadata in
      let '(later, final) := editor_run rest dirty in
      (done ++ later, final)
  end.

(** An event that sets the flag. *)
Definition dirties (e : EditorEvent) : bool :=
  match e with
  | PostSaveWorld bSuccess => bSuccess
  | AssetsDeleted classes => bool_decide (UWorld_StaticClass ∈ classes)
  | BeginFrame _ => false
  end.

Definition is_frame (e : EditorEvent) : bool :=
  match e with
  | BeginFrame _ => true
  | _ => false
  end.

End DirtyFlag.

(** *** [GenerateAssetMetadata]: from the caches to the schema *)

Inductive ERenderStreamSceneSelector : Type :=
| Selector_None
| Selector_StreamingLevels
| Selector_Maps.

(** A cache asset: its address and what it holds. *)
Definition CacheRef : Type := Z * URenderStreamChannelCacheAsset.

(** A part of [GenerateAssetMetadata] runs to its end, or stops at the
    [check] of [TMap::operator[]] for a key that is not in the map, or
    leaves defined behaviour. *)
Inductive Result (A : Type) : Type :=
| Ok (a : A)
| KeyNotFound
| Undefined.
Arguments Ok {A} a.
Arguments KeyNotFound {A}.
Arguments Undefined {A}.

#[global] Instance Result_bind : MBind Result := fun A B k m =>
  match m with
  | Ok a => k a
  | KeyNotFound => KeyNotFound
  | Undefined => Undefined
  end.

(** The order of [std::string]. *)
Definition string_lt (a b : string) : Prop := String.compare a b = Lt.

(** [std::set<std::string>::emplace], the set being the list of its
    elements in their order. *)
Fixpoint set_emplace (x : string) (s : list string) : list string :=
  match s with
  | [] => [x]
  | y :: rest =>
      match String.compare x y with
      | Lt => x :: y :: rest
      | Eq => y :: rest
      | Gt => y :: set_emplace x rest
      end
  end.

Definition wrap_size_t (z : Z) : Z := z mod 2 ^ 64.

(** What the loop over the caches works on. *)
Record Collected : Type := mkCollected {
  ChannelCaches : list CacheRef;
  CachesForDelete : list CacheRef;
  ChannelSet : list string;
  LevelParams : gmap string CacheRef
}.

(** The caches whose level package exists, and what the loop over the
    caches leaves in [LevelParams] for a path: the last such cache of
    this level. *)
Definition level_exists (DoesPackageExist : string -> bool) (Cache : CacheRef) : bool :=
  DoesPackageExist (Level Cache.2).

Definition cache_of_level (DoesPackageExist : string -> bool) (caches : list CacheRef)
    (Path : string) : option CacheRef :=
  last (List.filter (fun Cache => level_exists DoesPackageExist Cache
                                  && bool_decide (Level Cache.2 = Path)) caches).

(** The arrays of a cache are within the size of a [TArray]. *)
Definition well_sized (cache : URenderStreamChannelCacheAsset) : Prop :=
  TArray_ok (ExposedParams cache)
  /\ Forall (fun entry => TArray_ok (Options entry)) (ExposedParams cache).

(** The scene [GenerateScene] writes for [cache] under [persistent]. *)
Definition generated_scene (TCHAR_TO_UTF8 GetShortName : string -> string)
    (cache : URenderStreamChannelCacheAsset)
    (persistent : option URenderStreamChannelCacheAsset) : RemoteParameters :=
  mkRemoteParameters (TCHAR_TO_UTF8 (GetShortName (Level cache)))
    (Num (persistent_params persistent) + Num (ExposedParams cache))
    (map (fun entry => Some (converted TCHAR_TO_UTF8 entry))
         (persistent_params persistent ++ ExposedParams cache)).

Section Metadata.

Variable TCHAR_TO_UTF8 : string -> string.
Variable GetShortName : string -> string.
Variable TCHAR_TO_ANSI : string -> string.
Variable DoesPackageExist : string -> bool.

Definition emplace_channels (cache : URenderStreamChannelCacheAsset) (s : list string)
  : list string :=
  fold_left (fun s Channel => set_emplace (TCHAR_TO_ANSI Channel) s) (Channels cache) s.

(** What the loop over [remaining] adds to the set of channels and to
    [LevelParams]. *)
Definition collected_channels (remaining : list CacheRef) (channels : list string)
  : list string :=
  fold_left (fun s Cache => if level_exists DoesPackageExist Cache
                            then emplace_channels Cache.2 s else s)
            remaining channels.

Definition collected_params (remaining : list CacheRef) (params : gmap string CacheRef)
  : gmap string CacheRef :=
  fold_left (fun m Cache => if level_exists DoesPackageExist Cache
                            then <[Level Cache.2 := Cache]> m else m)
            remaining params.

(** [for (size_t i = 0; i < ChannelCaches.Num(); ++i)] from [i] on, with
    [RemoveAt(i); --i;] for a cache whose level is gone.  [fuel] bounds
    the number of iterations. *)
Fixpoint collect_loop (fuel : nat) (i : Z) (st : Collected) : option Collected :=
  match fuel with
  | O => None
  | S fuel' =>
      if i <? Num (ChannelCaches st) then
        match ChannelCaches st !! Z.to_nat i with
        | None => None
        | Some Cache =>
            if DoesPackageExist (Level Cache.2) then
              collect_loop fuel' (wrap_size_t (i + 1))
                (mkCollected (ChannelCaches st) (CachesForDelete st)
                   (emplace_channels Cache.2 (ChannelSet st))
                   (<[Level Cache.2 := Cache]> (LevelParams st)))
            else
              collect_loop fuel' (wrap_size_t (wrap_size_t (i - 1) + 1))
                (mkCollected (delete (Z.to_nat i) (ChannelCaches st))
                   (CachesForDelete st ++ [Cache])
                   (ChannelSet st) (LevelParams st))
        end
      else Some st
  end.

(** [GenerateScene] on the slot [*SceneParameters++], the pointer standing
    at slot [pos] of [array]. *)
Definition write_scene (array : list (option RemoteParameters)) (pos : nat)
    (cache : URenderStreamChannelCacheAsset)
    (persistent : option URenderStreamChannelCacheAsset)
  : Result (list (option RemoteParameters)) :=
  match GenerateScene TCHAR_TO_UTF8 GetShortName cache persistent with
  | None => Undefined
  | Some scene =>
      match store array pos scene with
      | None => Undefined
      | Some array' => Ok array'
      end
  end.

(** [LevelParams[Path]]. *)
Definition LevelParams_at (params : gmap string CacheRef) (Path : string)
  : Result CacheRef :=
  match params !! Path with
  | Some Cache => Ok Cache
  | None => KeyNotFound
  end.

(** The loop over [MainMap->SubLevels]: the next slot gets the scene of
    [LevelParams[Path]] with [MainMap] as the persistent level. *)
Fixpoint sublevel_scenes (params : gmap string CacheRef)
    (MainMap : URenderStreamChannelCacheAsset) (paths : list string)
    (array : list (option RemoteParameters)) (pos : nat)
  : Result (list (option RemoteParameters)) :=
  match paths with
  | [] => Ok array
  | Path :: rest =>
      Cache ← LevelParams_at params Path;
      array' ← write_scene array pos Cache.2 (Some MainMap);
      sublevel_scenes params MainMap rest array' (S pos)
  end.

(** [for (Path : Cache->SubLevels) LevelParents.Add(LevelParams[Path], Cache);]
    The map is keyed by the address of the sublevel's cache. *)
Fixpoint add_parents (params : gmap string CacheRef) (Cache : CacheRef)
    (paths : list string) (LevelParents : gmap Z CacheRef) : Result (gmap Z CacheRef) :=
  match paths with
  | [] => Ok LevelParents
  | Path :: rest =>
      Child ← LevelParams_at params Path;
      add_parents params Cache rest (<[Child.1 := Cache]> LevelParents)
  end.

Fixpoint level_parents (params : gmap string CacheRef) (caches : list CacheRef)
    (LevelParents : gmap Z CacheRef) : Result (gmap Z CacheRef) :=
  match caches with
  | [] => Ok LevelParents
  | Cache :: rest =>
      LevelParents' ← add_parents params Cache (SubLevels Cache.2) LevelParents;
      level_parents params rest LevelParents'
  end.

(** The loop over [ChannelCaches]: the next slot gets the scene of
    [Cache] with its entry in [LevelParents], if any, as the persistent
    level. *)
Fixpoint map_scenes (LevelParents : gmap Z CacheRef) (caches : list CacheRef)
    (array : list (option RemoteParameters)) (pos : nat)
  : Result (list (option RemoteParameters)) :=
  match caches with
  | [] => Ok array
  | Cache :: rest =>
      array' ← write_scene array pos Cache.2 (snd <$> LevelParents !! Cache.1);
      map_scenes LevelParents rest array' (S pos)
  end.

(** The [switch] over the scene selector: [nScenes] and the array
    [scenes] of the schema, [nullptr] being the empty array.  [MainMap]
    is what [GetDefaultMapCache] returned. *)
Definition build_scenes (selector : ERenderStreamSceneSelector) (st : Collected)
    (MainMap : option CacheRef) : Result (Z * list (option RemoteParameters)) :=
  match selector with
  | Selector_None =>
      match MainMap with
      | Some Main =>
          array ← write_scene (malloc 1) 0 Main.2 None;
          Ok (1, array)
      | None => Ok (0, [])
      end
  | Selector_StreamingLevels =>
      match MainMap with
      | Some Main =>
          let nScenes := wrap_uint32 (wrap_int32 (1 + Num (SubLevels Main.2))) in
          array ← write_scene (malloc nScenes) 0 Main.2 None;
          array' ← sublevel_scenes (LevelParams st) Main.2 (SubLevels Main.2) array 1;
          Ok (nScenes, array')
      | None => Ok (0, [])
      end
  | Selector_Maps =>
      LevelParents ← level_parents (LevelParams st) (ChannelCaches st) ∅;
      let nScenes := wrap_uint32 (Num (ChannelCaches st)) in
      array ← map_scenes LevelParents (ChannelCaches st) (malloc nScenes) 0;
      Ok (nScenes, array)
  end.

(** The channels of the schema: [nChannels] and one string for each
    element of the set, in its order. *)
Definition build_channels (st : Collected) : Z * list string :=
  let nChannels := wrap_uint32 (Num (ChannelSet st)) in
  (nChannels, take (Z.to_nat nChannels) (ChannelSet st)).

(** From the caches the object library returned to the schema handed to
    [rs_saveSchema]. *)
Definition metadata_schema (selector : ERenderStreamSceneSelector)
    (caches : list CacheRef) (MainMap : option CacheRef)
  : Result (Collected * (Z * list string) * (Z * list (option RemoteParameters))) :=
  match collect_loop (S (length caches)) 0 (mkCollected caches [] [] ∅) with
  | None => Undefined
  | Some st =>
      scenes ← build_scenes selector st MainMap;
      Ok (st, build_channels st, scenes)
  end.

End Metadata.

(** [a] is the address of the cache of a level that [Parent] lists among
    [paths]. *)
Definition parent_of (params : gmap string CacheRef) (Parent : CacheRef)
    (paths : list string) (a : Z) : Prop :=
  exists Path Child, Path ∈ paths /\ params !! Path = Some Child /\ Child.1 = a.

(** *** An actor and the caches of three levels to run the generation on *)

(** A bool and a colour that are exposed, and an int that is not. *)
Definition demo_actor : AActor :=
  [mkProperty "Fog" "Weather" true true false None None (BoolProperty true);
   mkProperty "Tint" "Look" true true false None None (ColorProperty 255 128 0 255);
   mkProperty "Seed" "Internal" true false false None None
     (IntProperty 7 (mkNumeric false None))].

Definition parse_float (text : string) : float := f32_zero.

(** The cache of a level whose package was deleted. *)
Definition gone_cache : URenderStreamChannelCacheAsset :=
  mkCache "Gone" ["aux"] [] [].

Definition demo_caches : list CacheRef :=
  [(1, persistent_cache); (2, gone_cache); (3, forest_cache)].

Definition package_exists (path : string) : bool := negb (String.eqb path "Gone").

End RenderStreamEditor.

(** * Properties *)

(** ** binary32: conversion from integers and division

    The operations of [SpecFloat] at precision 24, followed through their
    shifts and roundings on positive operands in the range the frame
    stream uses. *)

Section Binary32.

Lemma bpow_pos (e : Z) : (0 < bpow e)%R.
Proof. apply powerRZ_lt. lra. Qed.

Lemma bpow_add (a b : Z) : bpow (a + b) = (bpow a * bpow b)%R.
Proof. apply powerRZ_add. lra. Qed.

Lemma bpow_succ (e : Z) : bpow (e + 1) = (2 * bpow e)%R.
Proof. rewrite bpow_add. unfold bpow at 2. simpl. lra. Qed.

Lemma bpow_le (a b : Z) : a <= b -> (bpow a <= bpow b)%R.
Proof.
  intros Hab.
  replace b with (a + Z.of_nat (Z.to_nat (b - a))) by lia.
  generalize (Z.to_nat (b - a)). intros n. induction n as [|n IH].
  - rewrite Z.add_0_r. lra.
  - rewrite Nat2Z.inj_succ. unfold Z.succ. rewrite Z.add_assoc, bpow_succ.
    pose proof (bpow_pos (a + Z.of_nat n)). lra.
Qed.

Lemma bpow_IZR (k : Z) : 0 <= k -> bpow k = IZR (2 ^ k).
Proof.
  intros Hk. pattern k. apply natlike_ind; [reflexivity| |exact Hk].
  intros n Hn IH. unfold Z.succ. rewrite bpow_succ, IH, Z.pow_add_r by lia.
  rewrite mult_IZR. change (2 ^ 1) with 2. lra.
Qed.

Lemma loc_of_shr_record_of_loc (m : Z) (l : location) :
  loc_of_shr_record (shr_record_of_loc m l) = l.
Proof. destruct l as [|[| |]]; reflexivity. Qed.

Lemma shr_m_shr_record_of_loc (m : Z) (l : location) :
  shr_m (shr_record_of_loc m l) = m.
Proof. destruct l as [|[| |]]; reflexivity. Qed.

Lemma Rep_bounds (x : R) (m e : Z) (l : location) :
  Rep x m e l -> (IZR m * bpow e <= x < (IZR m + 1) * bpow e)%R.
Proof.
  pose proof (bpow_pos e) as HB.
  destruct l as [|[| |]]; cbn; intros H; nra.
Qed.

Lemma shr_1_m (mrs : shr_record) :
  0 <= shr_m mrs -> shr_m (shr_1 mrs) = shr_m mrs / 2.
Proof.
  destruct mrs as [m r s]. cbn [shr_m]. intros Hm.
  destruct m as [|[p|p|]|p]; cbn [shr_1 shr_m].
  - reflexivity.
  - apply (Z.div_unique _ _ _ 1); lia.
  - apply (Z.div_unique _ _ _ 0); lia.
  - reflexivity.
  - lia.
Qed.

(** One shift to the right keeps the place of [x], at the next scale. *)
Lemma shr_1_Rep (x : R) (mrs : shr_record) (e : Z) :
  RepR x mrs e -> RepR x (shr_1 mrs) (e + 1).
Proof.
  destruct mrs as [m r s]. unfold RepR. cbn [shr_m]. intros [Hm H].
  pose proof (bpow_pos e) as HB.
  assert (Hhalf : exists p b, m = 2 * p + Z.b2z b /\ 0 <= p
            /\ shr_1 (Build_shr_record m r s) = Build_shr_record p b (r || s)).
  { destruct m as [|[p|p|]|p]; try lia.
    - exists 0, false. repeat split; lia.
    - exists (Zpos p), true. repeat split; cbn; lia.
    - exists (Zpos p), false. repeat split; cbn; lia.
    - exists 0, true. repeat split; cbn; lia. }
  destruct Hhalf as (p & b & -> & Hp & ->). cbn [shr_m]. split; [exact Hp|].
  destruct b, r, s; cbn [Z.b2z orb loc_of_shr_record Rep] in H |- *;
    rewrite bpow_succ; rewrite plus_IZR, mult_IZR in H;
    set (P := IZR p) in *; set (B := bpow e) in *; lra.
Qed.

(** [p] shifts to the right: the mantissa is divided by [2^p] and the
    place of [x] is kept. *)
Lemma iter_pos_shr_1 (x : R) (m0 e0 : Z) :
  forall (p : positive) (mrs : shr_record) (k : Z),
  (0 <= k /\ RepR x mrs (e0 + k) /\ shr_m mrs = m0 / 2 ^ k) ->
  let mrs' := SpecFloat.iter_pos shr_1 p mrs in
  0 <= k + Zpos p /\ RepR x mrs' (e0 + (k + Zpos p))
  /\ shr_m mrs' = m0 / 2 ^ (k + Zpos p).
Proof.
  assert (Hstep : forall mrs k,
            (0 <= k /\ RepR x mrs (e0 + k) /\ shr_m mrs = m0 / 2 ^ k) ->
            0 <= k + 1 /\ RepR x (shr_1 mrs) (e0 + (k + 1))
            /\ shr_m (shr_1 mrs) = m0 / 2 ^ (k + 1)).
  { intros mrs k (Hk & Hrep & Hm). split; [lia|]. split.
    - rewrite Z.add_assoc. apply shr_1_Rep. exact Hrep.
    - rewrite shr_1_m by apply Hrep. rewrite Hm, Z.pow_add_r by lia.
      change (2 ^ 1) with 2. apply Z.div_div; lia. }
  induction p as [p IH|p IH|]; intros mrs k H; cbn [SpecFloat.iter_pos].
  - apply Hstep in H. apply IH in H. apply IH in H. cbv zeta in H.
    replace (k + Zpos p~1) with (k + 1 + Zpos p + Zpos p) by lia. exact H.
  - apply IH in H. apply IH in H. cbv zeta in H.
    replace (k + Zpos p~0) with (k + Zpos p + Zpos p) by lia. exact H.
  - apply Hstep. exact H.
Qed.

(** The number of binary digits of a positive integer. *)
Lemma digits2_pos_bounds (p : positive) :
  2 ^ (Zpos (digits2_pos p) - 1) <= Zpos p < 2 ^ Zpos (digits2_pos p).
Proof.
  induction p as [p IH|p IH|]; cbn [digits2_pos].
  - rewrite Pos2Z.inj_succ. unfold Z.succ.
    replace (Zpos (digits2_pos p) + 1 - 1) with (Zpos (digits2_pos p) - 1 + 1) by lia.
    rewrite !Z.pow_add_r by lia. change (2 ^ 1) with 2. lia.
  - rewrite Pos2Z.inj_succ. unfold Z.succ.
    replace (Zpos (digits2_pos p) + 1 - 1) with (Zpos (digits2_pos p) - 1 + 1) by lia.
    rewrite !Z.pow_add_r by lia. change (2 ^ 1) with 2. lia.
  - cbn. lia.
Qed.

Lemma Zdigits2_unique (m k : Z) :
  2 ^ (k - 1) <= m < 2 ^ k -> 0 < m -> Zdigits2 m = k.
Proof.
  intros [Hlo Hhi] Hm. destruct m as [|p|p]; try lia. cbn [Zdigits2].
  pose proof (digits2_pos_bounds p) as [Dlo Dhi].
  assert (Hk : 0 < k).
  { destruct (Z_lt_le_dec 0 k) as [|Hneg]; [assumption|].
    destruct (Z.eq_dec k 0) as [->|]; [cbn in Hhi; lia|].
    rewrite (Z.pow_neg_r 2 k) in Hhi by lia. lia. }
  destruct (Z.lt_trichotomy (Zpos (digits2_pos p)) k) as [Hlt|[Heq|Hgt]].
  - assert (2 ^ Zpos (digits2_pos p) <= 2 ^ (k - 1)) by (apply Z.pow_le_mono_r; lia). lia.
  - exact Heq.
  - assert (2 ^ k <= 2 ^ (Zpos (digits2_pos p) - 1)) by (apply Z.pow_le_mono_r; lia). lia.
Qed.

Lemma Zdigits2_bounds (m : Z) :
  0 < m -> 2 ^ (Zdigits2 m - 1) <= m < 2 ^ Zdigits2 m.
Proof. destruct m as [|p|p]; try lia. intros _. apply digits2_pos_bounds. Qed.

Lemma fexp_normal (k : Z) : -125 <= k -> fexp 24 128 k = k - 24.
Proof. unfold fexp, emin. lia. Qed.

(** For a mantissa of at least 24 bits, away from the subnormal range,
    [shr_fexp] cuts to exactly 24 bits and keeps the place of [x]. *)
Lemma shr_fexp_spec (x : R) (m e : Z) (l : location) :
  0 < m -> Rep x m e l -> 24 <= Zdigits2 m -> -125 <= Zdigits2 m + e ->
  exists mrs,
    shr_fexp 24 128 m e l = (mrs, e + (Zdigits2 m - 24))
    /\ RepR x mrs (e + (Zdigits2 m - 24))
    /\ normal (shr_m mrs).
Proof.
  intros Hm Hrep Hd He. unfold shr_fexp. rewrite fexp_normal by lia.
  pose proof (Zdigits2_bounds m Hm) as [Hlo Hhi].
  set (d := Zdigits2 m) in *.
  replace (d + e - 24 - e) with (d - 24) by lia.
  destruct (d - 24) as [|p|p] eqn:Hn; try lia.
  - exists (shr_record_of_loc m l). cbn [shr]. rewrite Z.add_0_r.
    split; [reflexivity|]. unfold RepR, normal.
    rewrite shr_m_shr_record_of_loc, loc_of_shr_record_of_loc.
    replace d with 24 in * by lia. change (24 - 1) with 23 in Hlo.
    repeat split; try lia. exact Hrep.
  - cbn [shr].
    destruct (iter_pos_shr_1 x m e p (shr_record_of_loc m l) 0) as (_ & Hrep' & Hm').
    { split; [lia|]. rewrite Z.add_0_r. unfold RepR.
      rewrite shr_m_shr_record_of_loc, loc_of_shr_record_of_loc.
      change (2 ^ 0) with 1. rewrite Z.div_1_r. repeat split; [lia | exact Hrep]. }
    rewrite Z.add_0_l in Hrep', Hm'.
    exists (SpecFloat.iter_pos shr_1 p (shr_record_of_loc m l)).
    split; [reflexivity|]. split; [exact Hrep'|].
    unfold normal. rewrite Hm'.
    assert (Hpow : 0 < 2 ^ Zpos p) by (apply Z.pow_pos_nonneg; lia).
    assert (Hd1 : 2 ^ (d - 1) = 2 ^ 23 * 2 ^ Zpos p).
    { rewrite <- Z.pow_add_r by lia. f_equal. lia. }
    assert (Hd2 : 2 ^ d = 2 ^ 24 * 2 ^ Zpos p).
    { rewrite <- Z.pow_add_r by lia. f_equal. lia. }
    set (P := 2 ^ Zpos p) in *. set (D1 := 2 ^ (d - 1)) in *. set (D := 2 ^ d) in *.
    change (2 ^ 23) with 8388608 in *. change (2 ^ 24) with 16777216 in *.
    split.
    + apply Z.div_le_lower_bound; [exact Hpow|]. lia.
    + apply Z.div_lt_upper_bound; [exact Hpow|]. lia.
Qed.

Lemma rne_bounds (m : Z) (l : location) :
  m <= round_nearest_even m l <= m + 1.
Proof.
  destruct l as [|[| |]]; cbn [round_nearest_even]; try lia.
  destruct (Z.even m); lia.
Qed.

Lemma IZR_succ_le (a b : Z) : a < b -> (IZR a + 1 <= IZR b)%R.
Proof. intros H. rewrite <- (plus_IZR a 1). apply IZR_le. lia. Qed.

(** Rounding to nearest even at one scale is monotone. *)
Lemma rne_mono (x y : R) (m m' e : Z) (l l' : location) :
  Rep x m e l -> Rep y m' e l' -> (x <= y)%R ->
  round_nearest_even m l <= round_nearest_even m' l'.
Proof.
  intros Hx Hy Hxy.
  pose proof (bpow_pos e) as HB.
  pose proof (Rep_bounds _ _ _ _ Hx) as Bx.
  pose proof (Rep_bounds _ _ _ _ Hy) as By.
  pose proof (rne_bounds m l) as Rx. pose proof (rne_bounds m' l') as Ry.
  destruct (Z.lt_trichotomy m m') as [Hlt|[->|Hgt]].
  - lia.
  - set (B := bpow e) in *. set (M := IZR m') in *.
    destruct l as [|[| |]], l' as [|[| |]]; cbn [round_nearest_even Rep] in *;
      fold B in Hx, Hy; fold M in Hx, Hy;
      try destruct (Z.even m'); try lia; exfalso; nra.
  - exfalso. apply IZR_succ_le in Hgt.
    set (B := bpow e) in *. nra.
Qed.

(** The rounding at the end of every operation: from a mantissa of at
    least 24 bits it produces a finite float of exactly 24 bits that [x]
    rounds to. *)
Lemma binary_round_aux_spec (x : R) (mx ex : Z) (lx : location) :
  0 < mx -> Rep x mx ex lx -> 24 <= Zdigits2 mx ->
  -125 <= Zdigits2 mx + ex <= 127 ->
  exists m e,
    binary_round_aux 24 128 false mx ex lx = S754_finite false m e
    /\ normal (Zpos m) /\ Rounds x (Zpos m) e
    /\ ex <= e <= Zdigits2 mx + ex - 23.
Proof.
  intros Hm Hrep Hd He.
  destruct (shr_fexp_spec x mx ex lx Hm Hrep Hd ltac:(lia))
    as (mrs & Hshr & [Hm1 Hrep1] & Hnormal).
  unfold binary_round_aux. rewrite Hshr.
  set (e1 := ex + (Zdigits2 mx - 24)) in *.
  set (m1 := shr_m mrs) in *. set (l1 := loc_of_shr_record mrs) in *.
  pose proof (rne_bounds m1 l1) as Hrne.
  set (m2 := round_nearest_even m1 l1) in *.
  unfold normal in Hnormal.
  destruct (Z_lt_le_dec m2 (2 ^ 24)) as [Hsmall|Hcarry].
  - assert (Hd2 : Zdigits2 m2 = 24) by (apply Zdigits2_unique; [change (24 - 1) with 23|]; lia).
    unfold shr_fexp. rewrite Hd2, fexp_normal by lia.
    replace (24 + e1 - 24 - e1) with 0 by lia. cbn [shr shr_record_of_loc shr_m].
    destruct m2 as [|p|p] eqn:Hp; try lia.
    assert (Hle : (e1 <=? 128 - 24) = true) by (apply Z.leb_le; lia).
    rewrite Hle. exists p, e1. split; [reflexivity|].
    split; [unfold normal; lia|]. split; [|lia].
    exists m1, e1, l1. split; [exact Hrep1|]. split; [exact Hnormal|].
    left. fold m2. rewrite Hp. repeat split. lia.
  - assert (Hm2 : m2 = 2 ^ 24) by lia.
    unfold shr_fexp. rewrite Hm2. change (Zdigits2 (2 ^ 24)) with 25.
    rewrite fexp_normal by lia.
    replace (25 + e1 - 24 - e1) with 1 by lia.
    change (shr (shr_record_of_loc (2 ^ 24) loc_Exact) e1 1)
      with (Build_shr_record (2 ^ 23) false false, e1 + 1).
    cbn [shr_m]. change (2 ^ 23) with (Zpos 8388608).
    assert (Hle : (e1 + 1 <=? 128 - 24) = true) by (apply Z.leb_le; lia).
    rewrite Hle. exists 8388608%positive, (e1 + 1). split; [reflexivity|].
    split; [unfold normal; lia|]. split; [|lia].
    exists m1, e1, l1. split; [exact Hrep1|]. split; [exact Hnormal|].
    right. fold m2. split; [exact Hm2 | split; reflexivity].
Qed.

(** Rounding is monotone: the smaller real rounds to the smaller float,
    read as the pair of exponent and 24-bit mantissa. *)
Lemma Rounds_mono (x y : R) (m e m' e' : Z) :
  Rounds x m e -> Rounds y m' e' -> (x <= y)%R ->
  e < e' \/ (e = e' /\ m <= m').
Proof.
  intros (m1 & e1 & l1 & Hx & Nx & Cx) (m1' & e1' & l1' & Hy & Ny & Cy) Hxy.
  pose proof (Rep_bounds _ _ _ _ Hx) as Bx.
  pose proof (Rep_bounds _ _ _ _ Hy) as By.
  pose proof (rne_bounds m1 l1) as Rx. pose proof (rne_bounds m1' l1') as Ry.
  unfold normal in Nx, Ny.
  change (2 ^ 23) with 8388608 in *. change (2 ^ 24) with 16777216 in *.
  destruct (Z.lt_trichotomy e1 e1') as [Hlt|[->|Hgt]].
  - lia.
  - pose proof (rne_mono x y m1 m1' e1' l1 l1' Hx Hy Hxy) as Hmono. lia.
  - exfalso.
    pose proof (bpow_le (e1' + 1) e1 ltac:(lia)) as Hpow.
    rewrite bpow_succ in Hpow.
    pose proof (bpow_pos e1') as HB'.
    assert (H1 : (8388608 <= IZR m1)%R) by (apply IZR_le; lia).
    assert (H2 : (IZR m1' + 1 <= 16777216)%R)
      by (rewrite <- (plus_IZR m1' 1); apply IZR_le; lia).
    set (B := bpow e1) in *. set (B' := bpow e1') in *.
    assert (H3 : (8388608 * B <= x)%R) by nra.
    assert (H4 : (y < 16777216 * B')%R) by nra.
    nra.
Qed.

Lemma Pos_iter_xO (k p : positive) :
  Zpos (Pos.iter xO p k) = Zpos p * 2 ^ Zpos k.
Proof.
  induction k as [|k IH] using Pos.peano_ind.
  - cbn. lia.
  - rewrite Pos.iter_succ, Pos2Z.inj_xO, IH, Pos2Z.inj_succ.
    unfold Z.succ. rewrite Z.pow_add_r by lia. change (2 ^ 1) with 2. lia.
Qed.

Lemma bpow_neg_IZR (k : Z) : 0 <= k -> (IZR (2 ^ k) * bpow (- k) = 1)%R.
Proof.
  intros Hk. rewrite <- bpow_IZR by exact Hk. rewrite <- bpow_add.
  replace (k + - k) with 0 by lia. reflexivity.
Qed.

(** [(float)i] for a positive integer below [2^32]. *)
Lemma float_of_int_spec (i : Z) :
  0 < i < 2 ^ 32 ->
  exists m e,
    float_of_int i = S754_finite false m e
    /\ normal (Zpos m) /\ Rounds (IZR i) (Zpos m) e /\ -23 <= e <= 9.
Proof.
  intros [Hpos Hhi]. destruct i as [|p|p]; try lia.
  unfold float_of_int, f32_prec, f32_emax. cbn [binary_normalize]. unfold binary_round.
  pose proof (digits2_pos_bounds p) as [Dlo Dhi].
  set (d := Zpos (digits2_pos p)) in *.
  assert (Hd : 1 <= d <= 32).
  { split; [subst d; lia|].
    destruct (Z_lt_le_dec 32 d) as [Hbig|]; [|assumption].
    assert (2 ^ 32 <= 2 ^ (d - 1)) by (apply Z.pow_le_mono_r; lia). lia. }
  rewrite fexp_normal by lia. unfold shl_align.
  replace (d + 0 - 24 - 0) with (d - 24) by lia.
  destruct (d - 24) as [|k|k] eqn:Hk.
  - destruct (binary_round_aux_spec (IZR (Zpos p)) (Zpos p) 0 loc_Exact) as (m & e & Hr & Hn & HR & He);
      [lia | cbn; change (bpow 0) with 1%R; lra | cbn [Zdigits2]; fold d; lia
      | cbn [Zdigits2]; fold d; lia |].
    cbn [Zdigits2] in He. fold d in He.
    exists m, e. split; [exact Hr|]. split; [exact Hn|]. split; [exact HR|]. lia.
  - destruct (binary_round_aux_spec (IZR (Zpos p)) (Zpos p) 0 loc_Exact) as (m & e & Hr & Hn & HR & He);
      [lia | cbn; change (bpow 0) with 1%R; lra | cbn [Zdigits2]; fold d; lia
      | cbn [Zdigits2]; fold d; lia |].
    cbn [Zdigits2] in He. fold d in He.
    exists m, e. split; [exact Hr|]. split; [exact Hn|]. split; [exact HR|]. lia.
  - assert (Hmz : Zpos (Pos.iter xO p k) = Zpos p * 2 ^ Zpos k) by apply Pos_iter_xO.
    assert (Hkd : Zpos k = 24 - d) by lia.
    assert (Hdig : Zdigits2 (Zpos (Pos.iter xO p k)) = 24).
    { apply Zdigits2_unique; [|lia]. rewrite Hmz.
      assert (E1 : 2 ^ (24 - 1) = 2 ^ (d - 1) * 2 ^ Zpos k)
        by (rewrite <- Z.pow_add_r by lia; f_equal; lia).
      assert (E2 : 2 ^ 24 = 2 ^ d * 2 ^ Zpos k)
        by (rewrite <- Z.pow_add_r by lia; f_equal; lia).
      assert (Hpow : 0 < 2 ^ Zpos k) by (apply Z.pow_pos_nonneg; lia).
      rewrite E1, E2. split.
      - apply Z.mul_le_mono_nonneg_r; lia.
      - apply Z.mul_lt_mono_pos_r; lia. }
    destruct (binary_round_aux_spec (IZR (Zpos p)) (Zpos (Pos.iter xO p k)) (d - 24) loc_Exact)
      as (m & e & Hr & Hn & HR & He);
      [lia | | lia | lia |].
    { cbn [Rep]. rewrite Hmz, mult_IZR.
      replace (d - 24) with (- Zpos k) by lia.
      rewrite Rmult_assoc, bpow_neg_IZR by lia. lra. }
    rewrite Hk in Hr. rewrite Hdig in He.
    replace (d + 0 - 24) with (Z.neg k) by lia.
    exists m, e. split; [exact Hr|]. split; [exact Hn|]. split; [exact HR|]. lia.
Qed.

(** The location [SFdiv] computes from the remainder of the division is
    the place of the exact quotient. *)
Lemma new_location_spec (n r q e : Z) :
  0 < n -> 0 <= r < n ->
  Rep ((IZR q + IZR r / IZR n) * bpow e) q e (new_location n r).
Proof.
  intros Hn [Hr0 Hrn].
  pose proof (bpow_pos e) as HB.
  assert (HN : (0 < IZR n)%R) by (apply IZR_lt; lia).
  set (rho := (IZR r / IZR n)%R).
  assert (Hrho : (rho * IZR n = IZR r)%R) by (unfold rho; field; lra).
  clearbody rho.
  assert (Hrho1 : (rho < 1)%R).
  { apply (Rmult_lt_reg_r (IZR n)); [exact HN|]. rewrite Hrho, Rmult_1_l.
    apply IZR_lt. lia. }
  assert (Hcmp : forall c, (2 * r ?= n) = c ->
            match c with
            | Lt => (rho < / 2)%R
            | Eq => (rho = / 2)%R
            | Gt => (/ 2 < rho)%R
            end).
  { intros c <-. destruct (Z.compare_spec (2 * r) n) as [E|L|G].
    - apply (Rmult_eq_reg_r (IZR n)); [|lra]. rewrite Hrho, <- E, mult_IZR. lra.
    - apply (Rmult_lt_reg_r (IZR n)); [exact HN|]. rewrite Hrho.
      apply IZR_lt in L. rewrite mult_IZR in L. lra.
    - apply (Rmult_lt_reg_r (IZR n)); [exact HN|]. rewrite Hrho.
      apply IZR_lt in G. rewrite mult_IZR in G. lra. }
  unfold new_location, new_location_even, new_location_odd.
  change IntDef.Z.eqb with Z.eqb. change IntDef.Z.compare with Z.compare.
  change IntDef.Z.even with Z.even. change IntDef.Z.mul with Z.mul.
  change IntDef.Z.add with Z.add.
  destruct (Z.even n) eqn:Heven; cbv beta.
  - destruct (Z.eq_dec r 0) as [->|Hr].
    + assert (rho = 0)%R by (apply (Rmult_eq_reg_r (IZR n)); lra).
      subst rho. rewrite Z.eqb_refl. cbn [Rep]. lra.
    + assert (Hrho0 : (0 < rho)%R).
      { apply (Rmult_lt_reg_r (IZR n)); [exact HN|]. rewrite Hrho, Rmult_0_l.
        apply IZR_lt. lia. }
      rewrite (proj2 (Z.eqb_neq r 0) Hr).
      specialize (Hcmp _ eq_refl). destruct (2 * r ?= n); cbn [Rep]; nra.
  - destruct (Z.eq_dec r 0) as [->|Hr].
    + assert (rho = 0)%R by (apply (Rmult_eq_reg_r (IZR n)); lra).
      subst rho. rewrite Z.eqb_refl. cbn [Rep]. lra.
    + assert (Hrho0 : (0 < rho)%R).
      { apply (Rmult_lt_reg_r (IZR n)); [exact HN|]. rewrite Hrho, Rmult_0_l.
        apply IZR_lt. lia. }
      rewrite (proj2 (Z.eqb_neq r 0) Hr).
      assert (Hodd : 2 * r <> n).
      { intros E. rewrite <- E, Z.even_mul in Heven. discriminate. }
      destruct (Z.compare_spec (2 * r + 1) n) as [E|L|G].
      * pose proof (Hcmp Lt ltac:(apply Z.compare_lt_iff; lia)) as H1.
        cbn [Rep]. nra.
      * pose proof (Hcmp Lt ltac:(apply Z.compare_lt_iff; lia)) as H1.
        cbn [Rep]. nra.
      * pose proof (Hcmp Gt ltac:(apply Z.compare_gt_iff; lia)) as H1.
        cbn [Rep]. nra.
Qed.

Lemma Zdigits2_24_25 (q : Z) :
  2 ^ 23 <= q < 2 ^ 25 -> 24 <= Zdigits2 q <= 25.
Proof.
  intros [Hlo Hhi]. pose proof (Zdigits2_bounds q ltac:(lia)) as [Dlo Dhi].
  split.
  - destruct (Z_lt_le_dec (Zdigits2 q) 24) as [Hsmall|]; [|assumption].
    assert (2 ^ Zdigits2 q <= 2 ^ 23) by (apply Z.pow_le_mono_r; lia). lia.
  - destruct (Z_lt_le_dec 25 (Zdigits2 q)) as [Hbig|]; [|assumption].
    assert (2 ^ 25 <= 2 ^ (Zdigits2 q - 1)) by (apply Z.pow_le_mono_r; lia). lia.
Qed.

(** The quotient of two positive normal floats. *)
Lemma fdiv_spec (ma : positive) (ea : Z) (mW : positive) (eW : Z) :
  normal (Zpos ma) -> normal (Zpos mW) ->
  -40 <= ea <= 40 -> -40 <= eW <= 40 ->
  exists m e,
    fdiv (S754_finite false ma ea) (S754_finite false mW eW) = S754_finite false m e
    /\ normal (Zpos m)
    /\ Rounds (value (Zpos ma) ea / value (Zpos mW) eW) (Zpos m) e.
Proof.
  intros Na NW Hea HeW. unfold fdiv, f32_prec, f32_emax. cbn [SFdiv xorb].
  unfold SFdiv_core_binary.
  assert (Da : Zdigits2 (Zpos ma) = 24) by (apply Zdigits2_unique; [exact Na | lia]).
  assert (DW : Zdigits2 (Zpos mW) = 24) by (apply Zdigits2_unique; [exact NW | lia]).
  rewrite Da, DW, fexp_normal by lia.
  replace (Z.min (24 + ea - (24 + eW) - 24) (ea - eW)) with (ea - eW - 24) by lia.
  replace (ea - eW - (ea - eW - 24)) with 24 by lia.
  change (match 24 with
          | 0 => Zpos ma
          | Zpos _ => Z.shiftl (Zpos ma) 24
          | Zneg _ => 0
          end) with (Z.shiftl (Zpos ma) 24).
  rewrite Z.shiftl_mul_pow2 by lia.
  pose proof (Z_div_mod (Zpos ma * 2 ^ 24) (Zpos mW) ltac:(lia)) as Hdiv.
  destruct (Z.div_eucl (Zpos ma * 2 ^ 24) (Zpos mW)) as [q r].
  destruct Hdiv as [Hqr Hr].
  unfold normal in Na, NW.
  change (2 ^ 23) with 8388608 in *. change (2 ^ 24) with 16777216 in *.
  assert (Hq : 8388608 <= q < 33554432) by nia.
  pose proof (Zdigits2_24_25 q Hq) as Dq.
  destruct (binary_round_aux_spec
              (value (Zpos ma) ea / value (Zpos mW) eW) q (ea - eW - 24)
              (new_location (Zpos mW) r))
    as (m & e & Hround & Hn & HR & _); [lia | | lia | lia |].
  { replace (value (Zpos ma) ea / value (Zpos mW) eW)%R
      with ((IZR q + IZR r / IZR (Zpos mW)) * bpow (ea - eW - 24))%R.
    - apply new_location_spec; lia.
    - unfold value.
      replace ea with ((ea - eW - 24) + eW + 24) at 2 by lia.
      rewrite !bpow_add, (bpow_IZR 24) by lia.
      change (2 ^ 24) with 16777216.
      pose proof (bpow_pos eW). pose proof (bpow_pos (ea - eW - 24)).
      assert (HW : (0 < IZR (Zpos mW))%R) by (apply IZR_lt; lia).
      assert (Hqr' : (IZR (Zpos ma) * 16777216 = IZR (Zpos mW) * IZR q + IZR r)%R).
      { rewrite <- mult_IZR, <- mult_IZR, <- plus_IZR. f_equal. exact Hqr. }
      field_simplify_eq; [|lra]. nra. }
  exists m, e. split; [exact Hround|]. split; [exact Hn | exact HR].
Qed.

(** [<=] on positive finite floats compares exponents, then mantissas. *)
Lemma SFleb_finite (m m' : positive) (e e' : Z) :
  e < e' \/ (e = e' /\ Zpos m <= Zpos m') ->
  SFleb (S754_finite false m e) (S754_finite false m' e') = true.
Proof.
  intros H. unfold SFleb, SFcompare.
  change IntDef.Z.compare with Z.compare.
  change PosDef.Pos.compare_cont with Pos.compare_cont.
  destruct (Z.compare_spec e e') as [E|L|G].
  - destruct H as [H|[_ H]]; [lia|].
    change (Pos.compare_cont Eq m m') with (Pos.compare m m').
    destruct (Pos.compare_spec m m'); [reflexivity | reflexivity | lia].
  - reflexivity.
  - lia.
Qed.

Lemma value_pos (m e : Z) : 0 < m -> (0 < value m e)%R.
Proof.
  intros Hm. unfold value. apply Rmult_lt_0_compat; [apply IZR_lt; lia | apply bpow_pos].
Qed.

(** The order of normal floats, read as pairs, is the order of their values. *)
Lemma value_le (m e m' e' : Z) :
  normal m -> normal m' ->
  e < e' \/ (e = e' /\ m <= m') ->
  (value m e <= value m' e')%R.
Proof.
  unfold normal, value. change (2 ^ 23) with 8388608. change (2 ^ 24) with 16777216.
  intros [Hlo Hhi] [Hlo' Hhi'] [Hlt|[-> Hle]].
  - pose proof (bpow_le (e + 1) e' ltac:(lia)) as Hpow. rewrite bpow_succ in Hpow.
    pose proof (bpow_pos e) as HB.
    assert (H1 : (IZR m <= 16777216)%R) by (apply IZR_le; lia).
    assert (H2 : (8388608 <= IZR m')%R) by (apply IZR_le; lia).
    set (B := bpow e) in *. set (B' := bpow e') in *.
    assert (H3 : (IZR m * B <= 16777216 * B)%R) by nra.
    assert (H4 : (8388608 * B' <= IZR m' * B')%R) by nra.
    lra.
  - pose proof (bpow_pos e') as HB. apply IZR_le in Hle. nra.
Qed.

Lemma Rounds_one : Rounds 1 (2 ^ 23) (-23).
Proof.
  exists (2 ^ 23), (-23), loc_Exact. split.
  - cbn [Rep]. symmetry. apply (bpow_neg_IZR 23). lia.
  - split; [unfold normal; lia|]. left. cbn [round_nearest_even]. lia.
Qed.

Lemma f32_one_eq : f32_one = S754_finite false 8388608 (-23).
Proof. reflexivity. Qed.

(** The quotient of two integers as [SendFrame_RenderingThread] computes
    it: between 0 and 1, and monotone in the numerator. *)
Lemma unit_interval (a b W : Z) :
  0 < W < 2 ^ 32 -> 0 <= a <= b -> b <= W ->
  fleb f32_zero (fdiv (float_of_int a) (float_of_int W)) = true
  /\ fleb (fdiv (float_of_int a) (float_of_int W))
          (fdiv (float_of_int b) (float_of_int W)) = true
  /\ fleb (fdiv (float_of_int b) (float_of_int W)) f32_one = true.
Proof.
  intros HW Hab HbW.
  destruct (float_of_int_spec W HW) as (mW & eW & EW & NW & RW & BW).
  assert (Hquot : forall i, 0 < i <= W ->
            exists m e, fdiv (float_of_int i) (float_of_int W) = S754_finite false m e
                        /\ exists mi ei, normal (Zpos mi)
                             /\ Rounds (IZR i) (Zpos mi) ei
                             /\ Rounds (value (Zpos mi) ei / value (Zpos mW) eW) (Zpos m) e).
  { intros i Hi. destruct (float_of_int_spec i ltac:(lia)) as (mi & ei & Ei & Ni & Ri & Bi).
    destruct (fdiv_spec mi ei mW eW Ni NW ltac:(lia) ltac:(lia)) as (m & e & Ed & _ & Rd).
    exists m, e. rewrite Ei, EW. split; [exact Ed|]. exists mi, ei. auto. }
  assert (Hzero : fdiv (float_of_int 0) (float_of_int W) = S754_zero false).
  { rewrite EW. reflexivity. }
  assert (HvW : (0 < value (Zpos mW) eW)%R) by (apply value_pos; lia).
  assert (Hone : forall i, 0 < i <= W ->
            fleb (fdiv (float_of_int i) (float_of_int W)) f32_one = true).
  { intros i Hi. destruct (Hquot i Hi) as (m & e & -> & mi & ei & Ni & Ri & Rd).
    rewrite f32_one_eq. apply SFleb_finite.
    change (Zpos 8388608) with (2 ^ 23).
    apply (Rounds_mono _ 1 _ _ _ _ Rd Rounds_one).
    assert (Hle : (value (Zpos mi) ei <= value (Zpos mW) eW)%R).
    { apply value_le; [exact Ni | exact NW |].
      apply (Rounds_mono _ _ _ _ _ _ Ri RW). apply IZR_le. lia. }
    apply (Rmult_le_reg_r (value (Zpos mW) eW)); [exact HvW|].
    unfold Rdiv. rewrite Rmult_assoc, Rinv_l by lra. lra. }
  destruct (Z.eq_dec a 0) as [->|Ha]; [destruct (Z.eq_dec b 0) as [->|Hb]|].
  - rewrite Hzero. repeat split; reflexivity.
  - rewrite Hzero. destruct (Hquot b ltac:(lia)) as (m & e & Eb & _).
    split; [reflexivity|]. split; [rewrite Eb; reflexivity | apply Hone; lia].
  - destruct (Hquot a ltac:(lia)) as (m & e & Ea & mi & ei & Ni & Ri & Rd).
    destruct (Hquot b ltac:(lia)) as (m' & e' & Eb & mi' & ei' & Ni' & Ri' & Rd').
    split; [rewrite Ea; reflexivity|].
    split; [|apply Hone; lia].
    rewrite Ea, Eb. apply SFleb_finite.
    apply (Rounds_mono _ _ _ _ _ _ Rd Rd').
    assert (Hle : (value (Zpos mi) ei <= value (Zpos mi') ei')%R).
    { apply value_le; [exact Ni | exact Ni' |].
      apply (Rounds_mono _ _ _ _ _ _ Ri Ri'). apply IZR_le. lia. }
    unfold Rdiv. apply Rmult_le_compat_r; [|exact Hle].
    apply Rlt_le, Rinv_0_lt_compat. exact HvW.
Qed.

End Binary32.

(** ** FFrameStream: the fence counter *)

Section FenceCounter.
Import FrameStream.

Variable fence_t : int_type.
Hypothesis fence_bits : 1 <= bits fence_t.

Local Abbreviation SendFrame := (SendFrame_RenderingThread fence_t).
Local Abbreviation send := (send_frames fence_t).

Lemma pow2_double : 2 ^ bits fence_t = 2 * 2 ^ (bits fence_t - 1).
Proof.
  replace (bits fence_t) with (bits fence_t - 1 + 1) at 1 by lia.
  rewrite Z.pow_add_r by lia. change (2 ^ 1) with 2. lia.
Qed.

Lemma wrap_in_range (z : Z) :
  int_min fence_t <= z <= int_max fence_t -> wrap fence_t z = z.
Proof.
  unfold wrap, int_min, int_max. pose proof pow2_double as Hd.
  destruct (is_signed fence_t); intros Hz.
  - rewrite Z.mod_small by lia. lia.
  - apply Z.mod_small. lia.
Qed.


(** One past the largest value is the smallest value. *)
Lemma wrap_past_max : wrap fence_t (int_max fence_t + 1) = int_min fence_t.
Proof.
  unfold wrap, int_min, int_max. pose proof pow2_double as Hd.
  assert (Hpos : 0 < 2 ^ (bits fence_t - 1)) by (apply Z.pow_pos_nonneg; lia).
  destruct (is_signed fence_t).
  - replace (2 ^ (bits fence_t - 1) - 1 + 1 + 2 ^ (bits fence_t - 1))
      with (2 ^ bits fence_t) by lia.
    rewrite Z.mod_same by lia. lia.
  - replace (2 ^ bits fence_t - 1 + 1) with (2 ^ bits fence_t) by lia.
    apply Z.mod_same. lia.
Qed.

Lemma SendFrame_fence (s : FFrameStream) (fd : Z) (tex : Texture) (rect : FIntRect) :
  m_fenceValue (fst (SendFrame s fd tex rect)) = wrap fence_t (m_fenceValue s + 2).
Proof. reflexivity. Qed.



Lemma send_frames_fence (frames : list Frame) : forall s,
  int_min fence_t <= m_fenceValue s ->
  m_fenceValue s + 2 * Z.of_nat (length frames) <= int_max fence_t ->
  m_fenceValue (send s frames) = m_fenceValue s + 2 * Z.of_nat (length frames).
Proof.
  induction frames as [|[[fd tex] rect] rest IH]; intros s Hlo Hhi.
  - simpl. lia.
  - cbn [send_frames]. cbn [length] in Hhi |- *.
    assert (Hstep : m_fenceValue (fst (SendFrame s fd tex rect)) = m_fenceValue s + 2).
    { rewrite SendFrame_fence. apply wrap_in_range. lia. }
    rewrite IH; rewrite Hstep; lia.
Qed.

(** X4.  The stream whose counter is one send short of the end of the range
    wraps: the next send takes it to the other end or past it. *)
Lemma SendFrame_wraps (s : FFrameStream) (fd : Z) (tex : Texture) (rect : FIntRect) :
  m_fenceValue s = int_max fence_t - 1 ->
  m_fenceValue (fst (SendFrame s fd tex rect)) = int_min fence_t.
Proof.
  intros Htop. rewrite SendFrame_fence, Htop.
  replace (int_max fence_t - 1 + 2) with (int_max fence_t + 1) by lia.
  apply wrap_past_max.
Qed.


End FenceCounter.



(** ** FFrameStream: the normalised sub-rectangle *)

Section SubRectangle.
Import FrameStream.

Variable fence_t : int_type.

(** C4.  For a source image of positive size and a viewport rectangle
    inside it, [SendFrame_RenderingThread] hands over the quotients of
    the rectangle's bounds by the image size, computed in [float], and
    they satisfy [0 <= ULeft <= URight <= 1] and
    [0 <= VTop <= VBottom <= 1]. *)
Theorem normalized_rect_in_unit_square (s : FFrameStream) (FrameData : Z)
    (SourceTexture : Texture) (ViewportRect : FIntRect) :
  0 < GetSizeX SourceTexture < 2 ^ 32 ->
  0 < GetSizeY SourceTexture < 2 ^ 32 ->
  0 <= X (Min ViewportRect) <= X (Max ViewportRect) ->
  X (Max ViewportRect) <= GetSizeX SourceTexture ->
  0 <= Y (Min ViewportRect) <= Y (Max ViewportRect) ->
  Y (Max ViewportRect) <= GetSizeY SourceTexture ->
  let sent :=
    snd (SendFrame_RenderingThread fence_t s FrameData SourceTexture ViewportRect) in
  let uLeft := fdiv (float_of_int (X (Min ViewportRect)))
                    (float_of_int (GetSizeX SourceTexture)) in
  let uRight := fdiv (float_of_int (X (Max ViewportRect)))
                     (float_of_int (GetSizeX SourceTexture)) in
  let vTop := fdiv (float_of_int (Y (Min ViewportRect)))
                   (float_of_int (GetSizeY SourceTexture)) in
  let vBottom := fdiv (float_of_int (Y (Max ViewportRect)))
                      (float_of_int (GetSizeY SourceTexture)) in
  sub_U sent = (uLeft, uRight)
  /\ sub_V sent = (vTop, vBottom)
  /\ normalized_rect SourceTexture ViewportRect = mkSubRect uLeft uRight vTop vBottom
  /\ fleb f32_zero uLeft = true
  /\ fleb uLeft uRight = true
  /\ fleb uRight f32_one = true
  /\ fleb f32_zero vTop = true
  /\ fleb vTop vBottom = true
  /\ fleb vBottom f32_one = true.
Proof.
  intros HW HH HX HXW HY HYH sent uLeft uRight vTop vBottom.
  destruct (unit_interval _ _ _ HW HX HXW) as (U1 & U2 & U3).
  destruct (unit_interval _ _ _ HH HY HYH) as (V1 & V2 & V3).
  repeat split; assumption.
Qed.

End SubRectangle.

Lemma normalized_rect_in_unit_square_witness :
  let r := FrameStream.normalized_rect (FrameStream.mkTexture 1920 1080 RS_FMT_BGRA8)
             (mkIntRect (mkIntPoint 480 0) (mkIntPoint 1440 1080)) in
  fleb f32_zero (FrameStream.ULeft r) = true
  /\ fleb (FrameStream.ULeft r) (FrameStream.URight r) = true
  /\ fleb (FrameStream.URight r) f32_one = true
  /\ fleb f32_zero (FrameStream.VTop r) = true
  /\ fleb (FrameStream.VTop r) (FrameStream.VBottom r) = true
  /\ fleb (FrameStream.VBottom r) f32_one = true.
Proof.
  apply (normalized_rect_in_unit_square int32_t FrameStream.new_stream 0
           (FrameStream.mkTexture 1920 1080 RS_FMT_BGRA8)
           (mkIntRect (mkIntPoint 480 0) (mkIntPoint 1440 1080)));
    simpl; lia.
Defined.

(** ** FFrameStream: Setup *)

Section SetupFailure.
Import FrameStream.

Variable CreateStreamResources :
  option Texture -> option Fence -> FIntPoint -> RSPixelFormat ->
  bool * option Texture * option Fence.

Lemma Setup_bound (s : FFrameStream) name Resolution Channel Clipping Handle fmt :
  m_handle s <> 0 ->
  Setup CreateStreamResources s name Resolution Channel Clipping Handle fmt
  = (false, s, StatusNone).
Proof.
  intros Hbound. unfold Setup.
  destruct (Z.eqb_spec (m_handle s) 0) as [E|_]; [contradiction | reflexivity].
Qed.

(** X3.  A second [Setup] on a stream that a first one has bound fails and
    leaves the first binding as it is. *)
Lemma Setup_twice (s s1 : FFrameStream) (status : Status)
    name Resolution Channel Clipping Handle fmt
    name' Resolution' Channel' Clipping' Handle' fmt' :
  Setup CreateStreamResources s name Resolution Channel Clipping Handle fmt
  = (true, s1, status) ->
  Setup CreateStreamResources s1 name' Resolution' Channel' Clipping' Handle' fmt'
  = (false, s1, StatusNone).
Proof.
  intros Hfirst. apply Setup_bound. revert Hfirst. unfold Setup.
  destruct (Z.eqb_spec (m_handle s) 0) as [_|_]; cbn [negb]; [|discriminate].
  destruct (CreateStreamResources _ _ _ _) as [[ok tex] fence].
  destruct ok; cbn [negb]; [|discriminate].
  destruct (Z.eqb_spec Handle 0) as [_|Hne]; [discriminate|].
  intros [= <- _]. exact Hne.
Qed.

(** C2, as the code has it.  [Setup] reports failure exactly in the three
    cases.  On a stream that is already bound nothing is changed.  When
    the resources were created and the handle given is 0, the stream
    stays unbound, and holds the name, channel, clipping and resolution
    given and the resources created. *)
Theorem Setup_failure (s : FFrameStream) (name : string) (Resolution : FIntPoint)
    (Channel : string) (Clipping : ProjectionClipping) (Handle : StreamHandle)
    (fmt : RSPixelFormat) :
  let result := Setup CreateStreamResources s name Resolution Channel Clipping Handle fmt in
  let created := CreateStreamResources (m_bufTexture s) (m_fence s) Resolution fmt in
  (result.1.1 = false <->
     m_handle s <> 0 \/ created.1.1 = false \/ Handle = 0)
  /\ (m_handle s <> 0 -> result = (false, s, StatusNone))
  /\ (m_handle s = 0 -> created.1.1 = true -> Handle = 0 ->
      result.1.1 = false
      /\ m_handle result.1.2 = 0
      /\ result.1.2 = mkStream name Channel Clipping created.1.2 Resolution 0
                               created.2 (m_fenceValue s)).
Proof.
  intros result created. subst result created. unfold Setup.
  destruct (CreateStreamResources (m_bufTexture s) (m_fence s) Resolution fmt)
    as [[ok tex] fence].
  destruct (Z.eqb_spec (m_handle s) 0) as [Eh|Nh]; cbn [negb fst snd].
  - destruct ok; cbn [negb fst snd];
      destruct (Z.eqb_spec Handle 0) as [E0|N0]; cbn [fst snd]; subst;
      repeat split; intros; try tauto; try congruence; auto.
  - repeat split; intros; try tauto; try congruence.
Qed.

End SetupFailure.

(** C2 as stated fails: on an unbound stream, when the resources cannot
    be created [Setup] fails and leaves the handle it was given in
    [m_handle]; when the handle given is 0 it fails and has changed the
    name. *)
Lemma Setup_failure_mutates :
  let failed_alloc :=
    FrameStream.Setup FrameStream.out_of_memory FrameStream.new_stream
      "wall" FrameStream.full_hd "main" FrameStream.no_clipping 7 RS_FMT_BGRA8 in
  let refused :=
    FrameStream.Setup FrameStream.allocate FrameStream.new_stream
      "wall" FrameStream.full_hd "main" FrameStream.no_clipping 0 RS_FMT_BGRA8 in
  FrameStream.m_handle FrameStream.new_stream = 0
  /\ failed_alloc.1.1 = false
  /\ FrameStream.m_handle failed_alloc.1.2 = 7
  /\ failed_alloc.1.2 <> FrameStream.new_stream
  /\ refused.1.1 = false
  /\ FrameStream.m_streamName refused.1.2 = "wall"
  /\ refused.1.2 <> FrameStream.new_stream.
Proof. vm_compute. repeat split; congruence. Qed.

(** ** SceneSelector_StreamingLevels *)

Section SelectorProperties.
Import SceneSelector_StreamingLevels.

Variable GetShortName : string -> string.
Variable RemoveFromStart : string -> string -> string.
Variable FString_eq : string -> string -> bool.
Variable ValidateParameters : UWorld -> nat -> list AActor -> bool.
Variable SchemaSpec_default : SchemaSpec.

Local Abbreviation find := (findStreamingLevelByName GetShortName RemoveFromStart FString_eq).
Local Abbreviation step := (OnLoadedSchema_step GetShortName RemoveFromStart FString_eq ValidateParameters).
Local Abbreviation loop := (OnLoadedSchema_loop GetShortName RemoveFromStart FString_eq ValidateParameters).
Local Abbreviation bound := (bound_spec GetShortName RemoveFromStart FString_eq).
Local Abbreviation events_of := (scene_events GetShortName RemoveFromStart FString_eq ValidateParameters).

(** A level found by name is an object of the world. *)
Lemma find_from_in_world (levels : list ULevelStreaming) (FindName : string) :
  forall (i p : nat),
  find_from GetShortName RemoveFromStart FString_eq levels i FindName = Some p ->
  (i <= p)%nat /\ is_Some (levels !! (p - i)%nat).
Proof.
  induction levels as [|l rest IH]; intros i p; cbn [find_from].
  - discriminate.
  - destruct (FString_eq FindName _).
    + intros [= <-]. rewrite Nat.sub_diag. split; [lia | eexists; reflexivity].
    + intros Hrest. destruct (IH _ _ Hrest) as [Hle Hsome]. split; [lia|].
      replace (p - i)%nat with (S (p - S i)) by lia. exact Hsome.
Qed.

Lemma find_in_world (World : UWorld) (FindName : string) (p : nat) :
  find World FindName = Some p -> is_Some (GetStreamingLevels World !! p).
Proof.
  intros Hfind. apply find_from_in_world in Hfind as [_ Hsome].
  rewrite Nat.sub_0_r in Hsome. exact Hsome.
Qed.

Lemma ValidateLevel_bound (World : UWorld) (specs : list SchemaSpec) (i : nat)
    (spec : SchemaSpec) :
  specs !! i = Some spec ->
  (forall p, streamingLevel spec = Some p -> is_Some (GetStreamingLevels World !! p)) ->
  exists ok, ValidateLevel ValidateParameters World specs i
             = Done (ok, validation_events ValidateParameters World i spec).
Proof.
  intros Hspec Hvalid. unfold ValidateLevel, validation_events, level_root. rewrite Hspec.
  destruct (streamingLevel spec) as [p|] eqn:Hp.
  - destruct (Hvalid p eq_refl) as [l Hl]. unfold deref. rewrite Hl. cbn.
    destruct (ValidateParameters _ _ _); eexists; reflexivity.
  - cbn. destruct (ValidateParameters _ _ _); eexists; reflexivity.
Qed.

(** One iteration of the loop of [OnLoadedSchema]. *)
Lemma OnLoadedSchema_step_spec (World : UWorld) (i : nat) (parameters : SceneDecl)
    (specs : list SchemaSpec) (log : list Event) (old : SchemaSpec) :
  specs !! i = Some old ->
  step World i parameters (specs, log)
  = Done (<[i := bound World old parameters]> specs,
          log ++ events_of World i old parameters).
Proof.
  intros Hold. unfold OnLoadedSchema_step, bound_spec, scene_events, level_ready.
  rewrite Hold.
  assert (Hi : (i < length specs)%nat) by (eapply lookup_lt_Some; eassumption).
  destruct (find World (name parameters)) as [p|] eqn:Hfind.
  - destruct (find_in_world _ _ _ Hfind) as [l Hl].
    unfold deref at 1. rewrite Hl. cbn [mbind Outcome_bind].
    destruct (IsLevelLoaded l) eqn:Hloaded.
    + edestruct (ValidateLevel_bound World
                   (<[i := set_loaded (mkSpec (Some p) (PersistentLevelScriptActor World)
                                              (decl_hash parameters)
                                              (decl_nParameters parameters) (loaded old))]> specs)
                   i) as [ok Hok].
      { apply list_lookup_insert_eq. exact Hi. }
      { cbn. intros q [= <-]. eauto. }
      rewrite Hok. cbn. unfold bound_spec, level_ready. rewrite Hfind, Hl, Hloaded.
      reflexivity.
    + reflexivity.
  - cbn [mbind Outcome_bind].
    edestruct (ValidateLevel_bound World
                 (<[i := set_loaded (mkSpec None (PersistentLevelScriptActor World)
                                            (decl_hash parameters)
                                            (decl_nParameters parameters) (loaded old))]> specs)
                 i) as [ok Hok].
    { apply list_lookup_insert_eq. exact Hi. }
    { cbn. discriminate. }
    rewrite Hok. cbn. unfold bound_spec, level_ready. rewrite Hfind. reflexivity.
Qed.

(** The whole loop: it runs to its end, rebinds exactly the scenes it is
    given and logs the events of each. *)
Lemma OnLoadedSchema_loop_spec (World : UWorld) (scenes : list SceneDecl) :
  forall (i : nat) (specs : list SchemaSpec) (log : list Event),
  (i + length scenes <= length specs)%nat ->
  exists specs' log',
    loop World i scenes (specs, log) = Done (specs', log')
    /\ length specs' = length specs
    /\ (forall j, (j < i \/ i + length scenes <= j)%nat -> specs' !! j = specs !! j)
    /\ (forall k parameters, scenes !! k = Some parameters ->
          exists old, specs !! (i + k)%nat = Some old
                      /\ specs' !! (i + k)%nat = Some (bound World old parameters))
    /\ (forall e, e ∈ log' <->
          e ∈ log \/ exists k parameters old,
                       scenes !! k = Some parameters
                       /\ specs !! (i + k)%nat = Some old
                       /\ e ∈ events_of World (i + k) old parameters).
Proof.
  induction scenes as [|parameters rest IH]; intros i specs log Hlen.
  - exists specs, log. cbn [OnLoadedSchema_loop]. repeat split; auto.
    + intros k p Hk. rewrite lookup_nil in Hk. discriminate.
    + intros [He|(k & p & old & Hk & _)]; [exact He|].
      rewrite lookup_nil in Hk. discriminate.
  - cbn [length] in Hlen.
    destruct (lookup_lt_is_Some_2 specs i ltac:(lia)) as [old Hold].
    cbn [OnLoadedSchema_loop]. rewrite (OnLoadedSchema_step_spec _ _ _ _ _ _ Hold).
    cbn [mbind Outcome_bind].
    destruct (IH (S i) (<[i := bound World old parameters]> specs)
                 (log ++ events_of World i old parameters))
      as (specs' & log' & Hrun & Hlen' & Hout & Hin & Hlog).
    { rewrite length_insert. lia. }
    exists specs', log'. rewrite Hrun. split; [reflexivity|].
    rewrite length_insert in Hlen'. split; [exact Hlen'|]. split; [|split].
    + intros j Hj. rewrite Hout by (cbn [length] in Hj; lia).
      apply list_lookup_insert_ne. cbn [length] in Hj. lia.
    + intros [|k] p Hk.
      * cbn in Hk. injection Hk as <-. exists old. rewrite Nat.add_0_r.
        split; [exact Hold|]. rewrite Hout by lia.
        apply list_lookup_insert_eq. lia.
      * cbn in Hk. destruct (Hin k p Hk) as (old' & Hold' & Hnew).
        replace (S i + k)%nat with (i + S k)%nat in * by lia.
        exists old'. split; [|exact Hnew].
        rewrite list_lookup_insert_ne in Hold' by lia. exact Hold'.
    + intros e. rewrite Hlog, elem_of_app. split.
      * intros [[He|He]|(k & p & old' & Hk & Hold' & He)].
        -- left; exact He.
        -- right. exists 0%nat, parameters, old. rewrite Nat.add_0_r. auto.
        -- right. exists (S k), p, old'.
           replace (i + S k)%nat with (S i + k)%nat by lia.
           rewrite list_lookup_insert_ne in Hold' by lia. auto.
      * intros [He|([|k] & p & old' & Hk & Hold' & He)].
        -- left; left; exact He.
        -- cbn in Hk. injection Hk as <-. rewrite Nat.add_0_r in *.
           rewrite Hold in Hold'. injection Hold' as <-. left; right; exact He.
        -- right. exists k, p, old'. cbn in Hk.
           replace (S i + k)%nat with (i + S k)%nat by lia.
           rewrite list_lookup_insert_ne by lia. auto.
Qed.

Lemma events_of_inv (World : UWorld) (k : nat) (old : SchemaSpec)
    (parameters : SceneDecl) (e : Event) :
  e ∈ events_of World k old parameters ->
  (level_ready World (find World (name parameters)) = true
   /\ (e = LogValidating k
       \/ e = LogValidationFailed k
          /\ ValidateParameters World k
               [PersistentLevelScriptActor World;
                level_root World (find World (name parameters))] = false))
  \/ (level_ready World (find World (name parameters)) = false
      /\ e = LogSkipValidation (name parameters)).
Proof.
  unfold scene_events, validation_events, bound_spec. cbn.
  destruct (level_ready World _).
  - destruct (ValidateParameters World k _) eqn:Hv; intros He; left; split; auto.
    + apply list_elem_of_singleton in He. auto.
    + apply elem_of_cons in He as [->|He]; [auto|].
      apply list_elem_of_singleton in He. auto.
  - intros He. apply list_elem_of_singleton in He. right. auto.
Qed.

Lemma events_of_validating (World : UWorld) (k : nat) (old : SchemaSpec)
    (parameters : SceneDecl) :
  level_ready World (find World (name parameters)) = true ->
  LogValidating k ∈ events_of World k old parameters
  /\ (ValidateParameters World k
        [PersistentLevelScriptActor World;
         level_root World (find World (name parameters))] = false ->
      LogValidationFailed k ∈ events_of World k old parameters).
Proof.
  intros Hready. unfold scene_events, validation_events, bound_spec. cbn.
  rewrite Hready. split.
  - destruct (ValidateParameters World k _); apply elem_of_cons; auto.
  - intros ->. apply elem_of_cons. right. apply elem_of_cons. auto.
Qed.

(** The whole of [OnLoadedSchema], ready for use below. *)
Lemma OnLoadedSchema_spec (World : UWorld) (Schema : list SceneDecl)
    (m_specs : list SchemaSpec) :
  let resized := resize (length Schema) SchemaSpec_default m_specs in
  exists specs log,
    OnLoadedSchema GetShortName RemoveFromStart FString_eq ValidateParameters
                   SchemaSpec_default World Schema m_specs = Done (true, specs, log)
    /\ length specs = length Schema
    /\ (forall i parameters, Schema !! i = Some parameters ->
          exists old, resized !! i = Some old
                      /\ specs !! i = Some (bound World old parameters))
    /\ (forall e, e ∈ log <->
          exists k parameters old,
            Schema !! k = Some parameters /\ resized !! k = Some old
            /\ e ∈ events_of World k old parameters).
Proof.
  intros resized. unfold OnLoadedSchema. fold resized.
  destruct (OnLoadedSchema_loop_spec World Schema 0 resized [])
    as (specs & log & Hrun & Hlen & _ & Hin & Hlog).
  { subst resized. rewrite length_resize. lia. }
  exists specs, log. rewrite Hrun. split; [reflexivity|].
  split; [subst resized; rewrite Hlen, length_resize; reflexivity|].
  split; [exact Hin|].
  intros e. rewrite Hlog. split.
  - intros [He|He]; [inversion He | exact He].
  - auto.
Qed.

Lemma ValidateLevel_no_check (World : UWorld) (specs : list SchemaSpec) (i : nat) :
  ValidateLevel ValidateParameters World specs i <> CheckFailed.
Proof.
  unfold ValidateLevel. destruct (specs !! i) as [spec|]; [|discriminate].
  destruct (streamingLevel spec) as [p|]; cbn.
  - unfold deref. destruct (GetStreamingLevels World !! p); cbn; [|discriminate].
    destruct (ValidateParameters _ _ _); discriminate.
  - destruct (ValidateParameters _ _ _); discriminate.
Qed.

Lemma ApplyScene_no_check (World : UWorld) (sceneId : nat) (specs : list SchemaSpec) :
  base_loaded specs ->
  ApplyScene ValidateParameters World sceneId specs <> CheckFailed.
Proof.
  intros Hloaded. unfold ApplyScene.
  destruct (specs !! sceneId) as [spec|] eqn:Hspec; [|discriminate].
  destruct (loaded spec) eqn:Hl; cbn [negb].
  - destruct (activate World spec sceneId). discriminate.
  - destruct (streamingLevel spec) as [p|] eqn:Hp.
    + unfold deref. destruct (GetStreamingLevels World !! p) as [l|]; cbn; [|discriminate].
      destruct (IsLevelLoaded l); cbn; [|discriminate].
      destruct (ValidateLevel ValidateParameters World _ sceneId) as [r| |] eqn:Hv; cbn.
      * destruct (activate World (set_loaded spec) sceneId). discriminate.
      * exfalso. eapply ValidateLevel_no_check. exact Hv.
      * discriminate.
    + rewrite (Hloaded sceneId spec Hspec Hp) in Hl. discriminate.
Qed.

Lemma ApplyScene_base_loaded (World World' : UWorld) (sceneId : nat)
    (specs specs' : list SchemaSpec) (log : list Event) :
  base_loaded specs ->
  ApplyScene ValidateParameters World sceneId specs = Done (specs', World', log) ->
  base_loaded specs'.
Proof.
  intros Hloaded. unfold ApplyScene.
  destruct (specs !! sceneId) as [spec|] eqn:Hspec; [|intros [= <- _ _]; exact Hloaded].
  destruct (loaded spec) eqn:Hl; cbn [negb].
  - destruct (activate World spec sceneId). intros [= <- _ _]. exact Hloaded.
  - destruct (streamingLevel spec) as [p|] eqn:Hp; [|discriminate].
    unfold deref. destruct (GetStreamingLevels World !! p) as [l|]; cbn; [|discriminate].
    destruct (IsLevelLoaded l); cbn; [|intros [= <- _ _]; exact Hloaded].
    destruct (ValidateLevel ValidateParameters World _ sceneId) as [r| |]; cbn;
      [|discriminate|discriminate].
    destruct (activate World (set_loaded spec) sceneId). intros [= <- _ _].
    intros i spec' Hi Hnull. destruct (decide (i = sceneId)) as [->|Hne].
    + rewrite list_lookup_insert_eq in Hi by (eapply lookup_lt_Some; eassumption).
      injection Hi as <-. reflexivity.
    + rewrite list_lookup_insert_ne in Hi by congruence. eapply Hloaded; eassumption.
Qed.

Lemma apply_scenes_no_check (calls : list (UWorld * nat)) : forall specs,
  base_loaded specs ->
  apply_scenes ValidateParameters calls specs <> CheckFailed.
Proof.
  induction calls as [|[World sceneId] rest IH]; intros specs Hloaded; [discriminate|].
  cbn [apply_scenes].
  destruct (ApplyScene ValidateParameters World sceneId specs) as [[[specs' World'] log]| |]
    eqn:Hcall; cbn.
  - apply IH. eapply ApplyScene_base_loaded; eassumption.
  - exfalso. eapply ApplyScene_no_check; eassumption.
  - discriminate.
Qed.

(** C9.  After [OnLoadedSchema] every binding without a streaming level
    is marked loaded, so no later [ApplyScene] on these bindings, in any
    world and for any scene index, stops at the [check], nor does any run
    of such calls. *)
Theorem check_in_ApplyScene_holds (World : UWorld) (Schema : list SceneDecl)
    (m_specs : list SchemaSpec) :
  exists specs log,
    OnLoadedSchema GetShortName RemoveFromStart FString_eq ValidateParameters
                   SchemaSpec_default World Schema m_specs = Done (true, specs, log)
    /\ (forall i spec, specs !! i = Some spec ->
          streamingLevel spec = None -> loaded spec = true)
    /\ (forall (World' : UWorld) (sceneId : nat),
          ApplyScene ValidateParameters World' sceneId specs <> CheckFailed)
    /\ (forall calls : list (UWorld * nat),
          apply_scenes ValidateParameters calls specs <> CheckFailed).
Proof.
  destruct (OnLoadedSchema_spec World Schema m_specs)
    as (specs & log & Hrun & Hlen & Hin & _).
  assert (Hloaded : base_loaded specs).
  { intros i spec Hspec Hnull.
    assert (Hi : (i < length Schema)%nat)
      by (rewrite <- Hlen; eapply lookup_lt_Some; eassumption).
    destruct (lookup_lt_is_Some_2 Schema i Hi) as [parameters Hp].
    destruct (Hin i parameters Hp) as (old & _ & Hnew).
    rewrite Hnew in Hspec. injection Hspec as <-.
    cbn in Hnull |- *. rewrite Hnull. reflexivity. }
  exists specs, log. split; [exact Hrun|]. split; [exact Hloaded|]. split.
  - intros World' sceneId. apply ApplyScene_no_check. exact Hloaded.
  - intros calls. apply apply_scenes_no_check. exact Hloaded.
Qed.

End SelectorProperties.

Section ApplySceneProperties.
Import SceneSelector_StreamingLevels.

Variable ValidateParameters : UWorld -> nat -> list AActor -> bool.

(** C6.  For a scene index at or past the number of bindings,
    [ApplyScene] logs the error and leaves the bindings and every level
    of the world as they were. *)
Theorem ApplyScene_out_of_range (World : UWorld) (sceneId : nat)
    (m_specs : list SchemaSpec) :
  (length m_specs <= sceneId)%nat ->
  ApplyScene ValidateParameters World sceneId m_specs
  = Done (m_specs, World, [LogSceneIdError sceneId (length m_specs)]).
Proof.
  intros Hrange. unfold ApplyScene.
  rewrite (lookup_ge_None_2 m_specs sceneId Hrange). reflexivity.
Qed.

(** What the second activation loop does to the levels from position
    [j] on, for a binding whose level is [p]. *)
Lemma activate_from_levels (spec : SchemaSpec) (sceneId p : nat) :
  streamingLevel spec = Some p ->
  forall (levels : list ULevelStreaming) (j k : nat),
  (activate_from spec sceneId j levels).1 !! k
  = (fun l => if decide (j + k = p)%nat
              then (if IsLevelLoaded l then SetShouldBeVisible true l else l)
              else SetShouldBeVisible false l) <$> levels !! k.
Proof.
  intros Hp. induction levels as [|l rest IH]; intros j k.
  - reflexivity.
  - cbn [activate_from]. specialize (IH (S j)).
    destruct (activate_from spec sceneId (S j) rest) as [rest' log] eqn:Hrest.
    rewrite Hp. cbn [fst] in IH.
    destruct k as [|k].
    + rewrite Nat.add_0_r.
      destruct (IsLevelLoaded l) eqn:Hloaded; simpl;
        repeat case_decide; simplify_eq; rewrite ?Hloaded; try reflexivity;
        congruence.
    + replace (j + S k)%nat with (S j + k)%nat by lia.
      transitivity (rest' !! k); [|apply IH].
      destruct (negb (IsLevelLoaded l)); repeat case_decide; reflexivity.
Qed.

Lemma activate_from_length (spec : SchemaSpec) (sceneId : nat) :
  forall (levels : list ULevelStreaming) (j : nat),
  length (activate_from spec sceneId j levels).1 = length levels.
Proof.
  induction levels as [|l rest IH]; intros j; [reflexivity|].
  cbn [activate_from]. specialize (IH (S j)).
  destruct (activate_from spec sceneId (S j) rest) as [rest' log].
  cbn [fst] in IH.
  destruct (negb (IsLevelLoaded l)); repeat case_decide; cbn; rewrite IH; reflexivity.
Qed.

(** The one call of [ApplyParameters] it makes. *)
Lemma activate_from_log (spec : SchemaSpec) (sceneId p : nat) :
  streamingLevel spec = Some p ->
  forall (levels : list ULevelStreaming) (j : nat) (l : ULevelStreaming),
  (j <= p)%nat -> levels !! (p - j)%nat = Some l -> IsLevelLoaded l = true ->
  (activate_from spec sceneId j levels).2
  = [ApplyParameters sceneId [persistentRoot spec; GetLevelScriptActor l]].
Proof.
  intros Hp.
  assert (Hpast : forall levels j, (p < j)%nat ->
                    (activate_from spec sceneId j levels).2 = []).
  { induction levels as [|l rest IH]; intros j Hj; [reflexivity|].
    cbn [activate_from]. specialize (IH (S j) ltac:(lia)).
    destruct (activate_from spec sceneId (S j) rest) as [rest' log].
    cbn [snd] in IH. subst log. rewrite Hp.
    destruct (negb (IsLevelLoaded l)); repeat case_decide; simplify_eq;
      try reflexivity; try lia; congruence. }
  induction levels as [|l0 rest IH]; intros j l Hj Hl Hloaded.
  - rewrite lookup_nil in Hl. discriminate.
  - cbn [activate_from]. rewrite Hp.
    destruct (decide (p = j)) as [->|N].
    + rewrite Nat.sub_diag in Hl. cbn in Hl. injection Hl as ->.
      specialize (Hpast rest (S j) ltac:(lia)).
      destruct (activate_from spec sceneId (S j) rest) as [rest' log].
      cbn [snd] in Hpast. subst log. rewrite Hloaded.
      repeat case_decide; simplify_eq; reflexivity.
    + assert (Hlt : (j < p)%nat) by lia.
      replace (p - j)%nat with (S (p - S j)) in Hl by lia. cbn in Hl.
      specialize (IH (S j) l ltac:(lia) Hl Hloaded).
      destruct (activate_from spec sceneId (S j) rest) as [rest' log].
      cbn [snd] in IH. subst log.
      destruct (negb (IsLevelLoaded l0)); repeat case_decide; simplify_eq;
        try reflexivity; congruence.
Qed.

Lemma ApplyScene_pending (World : UWorld) (sceneId : nat) (m_specs : list SchemaSpec)
    (spec : SchemaSpec) (p : nat) (l : ULevelStreaming) :
  m_specs !! sceneId = Some spec ->
  loaded spec = false ->
  streamingLevel spec = Some p ->
  GetStreamingLevels World !! p = Some l ->
  IsLevelLoaded l = false ->
  ApplyScene ValidateParameters World sceneId m_specs
  = Done (m_specs, World,
          [LogLoadingLevel (GetWorldAssetPackageName l);
           LoadStreamLevel (GetWorldAssetPackageName l)]).
Proof.
  intros Hspec Hloaded Hp Hl Hpending. unfold ApplyScene, deref.
  rewrite Hspec, Hloaded, Hp, Hl. cbn. rewrite Hpending. reflexivity.
Qed.

(** In a world that holds the level objects of another, a position names
    the object it named there. *)
Lemma same_level_objects_lookup (World World' : UWorld) (p : nat)
    (l l' : ULevelStreaming) :
  same_level_objects World World' ->
  GetStreamingLevels World !! p = Some l ->
  GetStreamingLevels World' !! p = Some l' ->
  GetWorldAssetPackageName l' = GetWorldAssetPackageName l /\ GetWorld l' = GetWorld l.
Proof.
  intros Hsame Hl Hl'.
  destruct (Forall2_lookup_lr _ _ _ _ _ _ Hsame Hl Hl') as [Hpackage Hworld]. auto.
Qed.

(** The first call for a binding once its level is loaded. *)
Lemma ApplyScene_first_activation (World' : UWorld) (sceneId : nat)
    (m_specs : list SchemaSpec) (spec : SchemaSpec) (p : nat) (l' : ULevelStreaming) :
  m_specs !! sceneId = Some spec ->
  loaded spec = false ->
  streamingLevel spec = Some p ->
  GetStreamingLevels World' !! p = Some l' ->
  IsLevelLoaded l' = true ->
  exists levels,
    ApplyScene ValidateParameters World' sceneId m_specs
    = Done (<[sceneId := set_loaded spec]> m_specs,
            mkWorld (PersistentLevelScriptActor World') levels,
            validation_events ValidateParameters World' sceneId (set_loaded spec)
            ++ [ApplyParameters sceneId [persistentRoot spec; GetLevelScriptActor l']])
    /\ length levels = length (GetStreamingLevels World')
    /\ forall k, levels !! k
                 = SetShouldBeVisible (bool_decide (k = p))
                   <$> GetStreamingLevels World' !! k.
Proof.
  intros Hspec Hloaded Hp Hl' Hready.
  assert (Hi : (sceneId < length m_specs)%nat) by (eapply lookup_lt_Some; eassumption).
  unfold ApplyScene, deref. rewrite Hspec, Hloaded, Hp, Hl'. cbn. rewrite Hready. cbn.
  edestruct (ValidateLevel_bound ValidateParameters World'
               (<[sceneId := set_loaded spec]> m_specs) sceneId (set_loaded spec))
    as [ok Hok].
  { apply list_lookup_insert_eq. exact Hi. }
  { cbn. rewrite Hp. intros q [= <-]. eauto. }
  rewrite Hok. cbn. unfold activate. cbn [streamingLevel set_loaded]. rewrite Hp.
  rewrite bool_decide_eq_false_2 by discriminate. cbn [andb].
  pose proof (activate_from_levels (set_loaded spec) sceneId p Hp
                (GetStreamingLevels World') 0) as Hlevels.
  pose proof (activate_from_length (set_loaded spec) sceneId
                (GetStreamingLevels World') 0) as Hlength.
  pose proof (activate_from_log (set_loaded spec) sceneId p Hp
                (GetStreamingLevels World') 0 l' ltac:(lia)) as Hlog.
  rewrite Nat.sub_0_r in Hlog. specialize (Hlog Hl' Hready).
  destruct (activate_from (set_loaded spec) sceneId 0 (GetStreamingLevels World'))
    as [levels log].
  cbn [fst snd] in *. subst log. exists levels.
  split; [reflexivity|]. split; [exact Hlength|].
  intros k. rewrite Hlevels. cbn [Nat.add].
  destruct (GetStreamingLevels World' !! k) as [lk|] eqn:Hk; [|reflexivity].
  cbn. f_equal. destruct (decide (k = p)) as [->|N].
  - rewrite bool_decide_eq_true_2 by reflexivity.
    rewrite Hl' in Hk. injection Hk as <-. rewrite Hready. reflexivity.
  - rewrite bool_decide_eq_false_2 by exact N. reflexivity.
Qed.

(** C5.  For a binding that is not loaded and whose streaming level is
    not loaded, [ApplyScene] asks for the level to be loaded and returns:
    bindings and world are as before, no parameters are applied.  Called
    every frame while the load is pending it does the same each time.
    Called later, in the world as it is then, with the same level objects
    in their places and the level of the binding loaded, it marks the
    binding loaded, validates it, shows the level of the scene, which is
    the level whose load was requested, hides every other level and
    applies the parameters of the persistent root and of the level. *)
Theorem ApplyScene_loads_then_activates (World : UWorld) (sceneId : nat)
    (m_specs : list SchemaSpec) (spec : SchemaSpec) (p : nat) (l : ULevelStreaming) :
  m_specs !! sceneId = Some spec ->
  loaded spec = false ->
  streamingLevel spec = Some p ->
  GetStreamingLevels World !! p = Some l ->
  IsLevelLoaded l = false ->
  let request := [LogLoadingLevel (GetWorldAssetPackageName l);
                  LoadStreamLevel (GetWorldAssetPackageName l)] in
  ApplyScene ValidateParameters World sceneId m_specs = Done (m_specs, World, request)
  /\ (forall frames : nat,
        apply_each_frame ValidateParameters frames World sceneId m_specs
        = Done (m_specs, World, concat (replicate frames request)))
  /\ (forall (World' : UWorld) (l' : ULevelStreaming),
        same_level_objects World World' ->
        GetStreamingLevels World' !! p = Some l' ->
        IsLevelLoaded l' = true ->
        GetWorldAssetPackageName l' = GetWorldAssetPackageName l
        /\ exists levels,
             ApplyScene ValidateParameters World' sceneId m_specs
             = Done (<[sceneId := set_loaded spec]> m_specs,
                     mkWorld (PersistentLevelScriptActor World') levels,
                     validation_events ValidateParameters World' sceneId (set_loaded spec)
                     ++ [ApplyParameters sceneId
                           [persistentRoot spec; GetLevelScriptActor l']])
             /\ length levels = length (GetStreamingLevels World')
             /\ forall k, levels !! k
                          = SetShouldBeVisible (bool_decide (k = p))
                            <$> GetStreamingLevels World' !! k).
Proof.
  intros Hspec Hloaded Hp Hl Hpending request.
  pose proof (ApplyScene_pending _ _ _ _ _ _ Hspec Hloaded Hp Hl Hpending) as Hcall.
  split; [exact Hcall|]. split.
  - induction frames as [|frames IH]; [reflexivity|].
    cbn [apply_each_frame]. rewrite Hcall. cbn. rewrite IH. reflexivity.
  - intros World' l' Hsame Hl' Hready. split.
    + apply (same_level_objects_lookup World World' p l l' Hsame Hl Hl').
    + apply (ApplyScene_first_activation World' sceneId m_specs spec p l');
        assumption.
Qed.

End ApplySceneProperties.

(** The scenario of two scenes, "Base" and "Forest", the level of
    "Forest" not yet loaded: [OnLoadedSchema] validates "Base" and skips
    "Forest"; [ApplyScene 1] asks for the level and changes nothing; once
    it is loaded, [ApplyScene 1] shows "Forest" and hides "Cave". *)
Example scenario_OnLoadedSchema :
  SceneSelector_StreamingLevels.OnLoadedSchema SceneSelector_StreamingLevels.short_name SceneSelector_StreamingLevels.remove_prefix
    String.eqb SceneSelector_StreamingLevels.accept_all SceneSelector_StreamingLevels.blank_spec
    SceneSelector_StreamingLevels.demo_world SceneSelector_StreamingLevels.demo_schema []
  = SceneSelector_StreamingLevels.Done
      (true, SceneSelector_StreamingLevels.demo_specs,
       [SceneSelector_StreamingLevels.LogValidating 0; SceneSelector_StreamingLevels.LogSkipValidation "Forest"]).
Proof. reflexivity. Qed.

Example scenario_ApplyScene_loaded :
  SceneSelector_StreamingLevels.ApplyScene SceneSelector_StreamingLevels.accept_all SceneSelector_StreamingLevels.demo_world_loaded 1
    SceneSelector_StreamingLevels.demo_specs
  = SceneSelector_StreamingLevels.Done
      ([SceneSelector_StreamingLevels.mkSpec None 100 11 2 true;
        SceneSelector_StreamingLevels.mkSpec (Some 0%nat) 100 12 3 true],
       SceneSelector_StreamingLevels.mkWorld 100
         [SceneSelector_StreamingLevels.mkLevel "Forest" None true true 101;
          SceneSelector_StreamingLevels.mkLevel "Cave" None true false 102],
       [SceneSelector_StreamingLevels.LogValidating 1; SceneSelector_StreamingLevels.ApplyParameters 1 [100; 101]]).
Proof. reflexivity. Qed.

Lemma ApplyScene_out_of_range_witness :
  SceneSelector_StreamingLevels.ApplyScene SceneSelector_StreamingLevels.accept_all SceneSelector_StreamingLevels.demo_world 2
    SceneSelector_StreamingLevels.demo_specs
  = SceneSelector_StreamingLevels.Done
      (SceneSelector_StreamingLevels.demo_specs, SceneSelector_StreamingLevels.demo_world,
       [SceneSelector_StreamingLevels.LogSceneIdError 2 2]).
Proof.
  apply (ApplyScene_out_of_range SceneSelector_StreamingLevels.accept_all SceneSelector_StreamingLevels.demo_world 2
           SceneSelector_StreamingLevels.demo_specs).
  simpl. lia.
Defined.

Lemma demo_world_same_objects :
  SceneSelector_StreamingLevels.same_level_objects
    SceneSelector_StreamingLevels.demo_world SceneSelector_StreamingLevels.demo_world_loaded.
Proof. repeat constructor. Qed.

Lemma ApplyScene_loads_then_activates_witness :
  SceneSelector_StreamingLevels.ApplyScene SceneSelector_StreamingLevels.accept_all SceneSelector_StreamingLevels.demo_world 1
    SceneSelector_StreamingLevels.demo_specs
  = SceneSelector_StreamingLevels.Done
      (SceneSelector_StreamingLevels.demo_specs, SceneSelector_StreamingLevels.demo_world,
       [SceneSelector_StreamingLevels.LogLoadingLevel "Forest"; SceneSelector_StreamingLevels.LoadStreamLevel "Forest"])
  /\ exists levels,
       SceneSelector_StreamingLevels.ApplyScene SceneSelector_StreamingLevels.accept_all
         SceneSelector_StreamingLevels.demo_world_loaded 1
         SceneSelector_StreamingLevels.demo_specs
       = SceneSelector_StreamingLevels.Done
           (<[1%nat := SceneSelector_StreamingLevels.mkSpec (Some 0%nat) 100 12 3 true]>
              SceneSelector_StreamingLevels.demo_specs,
            SceneSelector_StreamingLevels.mkWorld 100 levels,
            [SceneSelector_StreamingLevels.LogValidating 1;
             SceneSelector_StreamingLevels.ApplyParameters 1 [100; 101]])
       /\ levels !! 0%nat
          = Some (SceneSelector_StreamingLevels.mkLevel "Forest" None true true 101)
       /\ levels !! 1%nat
          = Some (SceneSelector_StreamingLevels.mkLevel "Cave" None true false 102).
Proof.
  destruct (ApplyScene_loads_then_activates SceneSelector_StreamingLevels.accept_all
              SceneSelector_StreamingLevels.demo_world 1 SceneSelector_StreamingLevels.demo_specs
              (SceneSelector_StreamingLevels.mkSpec (Some 0%nat) 100 12 3 false) 0
              (SceneSelector_StreamingLevels.mkLevel "Forest" None false false
                 SceneSelector_StreamingLevels.nullactor)
              eq_refl eq_refl eq_refl eq_refl eq_refl)
    as (Hfirst & _ & Hlater).
  split; [exact Hfirst|].
  destruct (Hlater SceneSelector_StreamingLevels.demo_world_loaded
              (SceneSelector_StreamingLevels.mkLevel "Forest" None true false 101)
              demo_world_same_objects eq_refl eq_refl)
    as (_ & levels & Hcall & _ & Hlevels).
  exists levels. split; [exact Hcall|].
  split; rewrite Hlevels; reflexivity.
Defined.

(** ** The editor module: GenerateScene *)

Section GenerateSceneProperties.
Import RenderStreamEditor.

Variable TCHAR_TO_UTF8 : string -> string.
Variable GetShortName : string -> string.

Lemma wrap_uint32_Num {A} (a : list A) : TArray_ok a -> wrap_uint32 (Num a) = Num a.
Proof.
  unfold TArray_ok, wrap_uint32, Num, int32_max. intros Hok.
  apply Z.mod_small. lia.
Qed.

(** The sum of two array sizes, computed in [int32] and converted to
    [uint32_t], is the sum. *)
Lemma nParams_sum (a b : Z) :
  0 <= a <= int32_max -> 0 <= b <= int32_max ->
  wrap_uint32 (wrap_int32 (a + b)) = a + b.
Proof.
  unfold wrap_uint32, wrap_int32, int32_max. intros Ha Hb.
  destruct (Z_lt_le_dec (a + b) (2 ^ 31)) as [Hsmall|Hbig].
  - rewrite (Z.mod_small (a + b + 2 ^ 31)) by lia.
    replace (a + b + 2 ^ 31 - 2 ^ 31) with (a + b) by lia.
    apply Z.mod_small. lia.
  - replace (a + b + 2 ^ 31) with (a + b - 2 ^ 31 + 1 * 2 ^ 32) by lia.
    rewrite Z.mod_add by lia. rewrite (Z.mod_small (a + b - 2 ^ 31)) by lia.
    replace (a + b - 2 ^ 31 - 2 ^ 31) with (a + b + (-1) * 2 ^ 32) by lia.
    rewrite Z.mod_add by lia. apply Z.mod_small. lia.
Qed.

Lemma store_next {A} (pre post : list (option A)) (x : A) :
  store (pre ++ None :: post) (length pre) x = Some ((pre ++ [Some x]) ++ post).
Proof.
  unfold store. rewrite decide_True by (rewrite length_app; cbn; lia).
  f_equal. rewrite insert_app_r_alt by lia. rewrite Nat.sub_diag.
  rewrite <- app_assoc. reflexivity.
Qed.

Lemma fill_options_spec (Options : list string) :
  forall (todo : nat) (done : list string),
  Options = done ++ drop (length done) Options ->
  (length done + todo = length Options)%nat ->
  fill_options TCHAR_TO_UTF8
    (map (fun s => Some (TCHAR_TO_UTF8 s)) done ++ replicate todo None)
    Options (length done) todo
  = Some (map (fun s => Some (TCHAR_TO_UTF8 s)) Options).
Proof.
  induction todo as [|todo IH]; intros done Hsplit Hlen.
  - cbn. rewrite app_nil_r. f_equal. f_equal.
    rewrite drop_ge in Hsplit by lia. rewrite app_nil_r in Hsplit. congruence.
  - cbn [fill_options].
    destruct (lookup_lt_is_Some_2 Options (length done) ltac:(lia)) as [s Hs].
    rewrite Hs. cbn [mbind option_bind].
    cbn [replicate].
    replace (length done)
      with (length (map (fun s => Some (TCHAR_TO_UTF8 s)) done)) at 1
      by apply length_map.
    rewrite store_next. cbn [mbind option_bind].
    specialize (IH (done ++ [s])).
    rewrite length_app in IH. cbn [length] in IH.
    rewrite map_app in IH. cbn [map] in IH.
    replace (length done + 1)%nat with (S (length done)) in IH by lia.
    apply IH; [|lia].
    rewrite <- app_assoc. cbn [app].
    rewrite <- (drop_S _ _ _ Hs). exact Hsplit.
Qed.

Lemma convert_entry_spec (entry : FRenderStreamExposedParameterEntry) :
  TArray_ok (Options entry) ->
  convert_entry TCHAR_TO_UTF8 entry = Some (converted TCHAR_TO_UTF8 entry).
Proof.
  intros Hok. unfold convert_entry, converted, malloc.
  rewrite (wrap_uint32_Num _ Hok). unfold Num. rewrite Nat2Z.id.
  pose proof (fill_options_spec (Options entry) (length (Options entry)) []) as Hfill.
  cbn [map app length] in Hfill. rewrite Hfill; [reflexivity | reflexivity | lia].
Qed.

Lemma ConvertFields_spec (input : list FRenderStreamExposedParameterEntry) :
  forall (pre post : list (option RemoteParameter)),
  Forall (fun entry => TArray_ok (Options entry)) input ->
  ConvertFields TCHAR_TO_UTF8
    (pre ++ replicate (length input) None ++ post) (length pre) input
  = Some (pre ++ map (fun entry => Some (converted TCHAR_TO_UTF8 entry)) input ++ post).
Proof.
  induction input as [|entry rest IH]; intros pre post Hok.
  - reflexivity.
  - inversion Hok as [|? ? Hentry Hrest]; subst.
    cbn [ConvertFields]. rewrite (convert_entry_spec _ Hentry).
    cbn [mbind option_bind length replicate app].
    rewrite store_next. cbn [mbind option_bind].
    specialize (IH (pre ++ [Some (converted TCHAR_TO_UTF8 entry)]) post Hrest).
    rewrite length_app in IH. cbn [length] in IH.
    replace (length pre + 1)%nat with (S (length pre)) in IH by lia.
    rewrite IH. rewrite <- app_assoc. reflexivity.
Qed.

(** C10.  [GenerateScene] sets [nParameters] to the number of exposed
    parameters of the persistent cache (0 without one) plus that of the
    scene cache, and fills the array with the parameters of the
    persistent cache followed by those of the scene cache, each in its
    order and each a field by field copy of its entry. *)
Theorem GenerateScene_parameters (cache : URenderStreamChannelCacheAsset)
    (persistent : option URenderStreamChannelCacheAsset) :
  TArray_ok (ExposedParams cache) ->
  TArray_ok (persistent_params persistent) ->
  Forall (fun entry => TArray_ok (Options entry))
         (persistent_params persistent ++ ExposedParams cache) ->
  GenerateScene TCHAR_TO_UTF8 GetShortName cache persistent
  = Some {| name := TCHAR_TO_UTF8 (GetShortName (Level cache));
            nParameters := Num (persistent_params persistent) + Num (ExposedParams cache);
            parameters :=
              map (fun entry => Some (converted TCHAR_TO_UTF8 entry))
                  (persistent_params persistent ++ ExposedParams cache) |}.
Proof.
  intros Hcache Hpersistent Hoptions.
  apply Forall_app in Hoptions as [Hopt_p Hopt_c].
  unfold GenerateScene.
  assert (Hn : wrap_uint32 (wrap_int32
                 (match persistent with
                  | Some p => Num (ExposedParams p)
                  | None => 0
                  end + Num (ExposedParams cache)))
               = Num (persistent_params persistent) + Num (ExposedParams cache)).
  { unfold TArray_ok in *.
    destruct persistent as [p|]; cbn [persistent_params] in *;
      unfold Num in *; cbn [length] in *; apply nParams_sum;
      unfold int32_max in *; lia. }
  rewrite Hn. unfold malloc, Num.
  rewrite <- Nat2Z.inj_add, Nat2Z.id, replicate_add.
  destruct persistent as [p|]; cbn [persistent_params] in *.
  - pose proof (ConvertFields_spec (ExposedParams p) []
                  (replicate (length (ExposedParams cache)) None) Hopt_p) as Hfirst.
    cbn [app length] in Hfirst. rewrite Hfirst. cbn [mbind option_bind].
    pose proof (ConvertFields_spec (ExposedParams cache)
                  (map (fun entry => Some (converted TCHAR_TO_UTF8 entry)) (ExposedParams p))
                  [] Hopt_c) as Hsecond.
    rewrite length_map, !app_nil_r in Hsecond. rewrite Hsecond.
    cbn [mbind option_bind]. rewrite map_app. reflexivity.
  - cbn [mbind option_bind replicate app length].
    pose proof (ConvertFields_spec (ExposedParams cache) [] [] Hopt_c) as Hsecond.
    cbn [app length] in Hsecond. rewrite !app_nil_r in Hsecond. rewrite Hsecond.
    reflexivity.
Qed.

End GenerateSceneProperties.

Lemma GenerateScene_parameters_witness :
  RenderStreamEditor.GenerateScene RenderStreamEditor.utf8 RenderStreamEditor.package_short_name RenderStreamEditor.forest_cache
    (Some RenderStreamEditor.persistent_cache)
  = Some (RenderStreamEditor.mkRemoteParameters "Forest" (1 + 2)
            (map (fun entry => Some (RenderStreamEditor.converted RenderStreamEditor.utf8 entry))
                 (RenderStreamEditor.ExposedParams RenderStreamEditor.persistent_cache
                  ++ RenderStreamEditor.ExposedParams RenderStreamEditor.forest_cache))).
Proof.
  apply (GenerateScene_parameters RenderStreamEditor.utf8 RenderStreamEditor.package_short_name
           RenderStreamEditor.forest_cache (Some RenderStreamEditor.persistent_cache)).
  - unfold RenderStreamEditor.TArray_ok, int32_max. simpl. lia.
  - unfold RenderStreamEditor.TArray_ok, int32_max. simpl. lia.
  - unfold RenderStreamEditor.TArray_ok, int32_max. simpl.
    repeat constructor; simpl; lia.
Defined.

(** ** ScopedSchema: reset, destruction and moves *)

Section Ownership.
Import RenderStreamLink.

Lemma without_snoc (m : gmap Z block) (ps : list ptr) (p : ptr) :
  without m (ps ++ [p]) = delete p (without m ps).
Proof. unfold without. rewrite fold_left_app. reflexivity. Qed.

Lemma lookup_without (ps : list ptr) : forall (m : gmap Z block) (p : ptr),
  p ∉ ps -> without m ps !! p = m !! p.
Proof.
  induction ps as [|a ps IH]; intros m p Hp; [reflexivity|].
  apply not_elem_of_cons in Hp as [Hne Hp].
  cbn. unfold without in IH. rewrite IH by exact Hp.
  apply lookup_delete_ne. congruence.
Qed.

Lemma lookup_without_freed (ps : list ptr) : forall (m : gmap Z block) (p : ptr),
  p ∈ ps -> without m ps !! p = None.
Proof.
  induction ps as [|a ps IH] using rev_ind; intros m p Hp.
  - inversion Hp.
  - rewrite without_snoc. destruct (decide (p = a)) as [->|N].
    + apply lookup_delete_eq.
    + rewrite lookup_delete_ne by congruence. apply IH.
      apply elem_of_app in Hp as [Hp|Hp]; [exact Hp|].
      apply list_elem_of_singleton in Hp. congruence.
Qed.

Lemma NoDup_prefix (l k : list ptr) : NoDup (l ++ k) -> NoDup l.
Proof. intros H. apply NoDup_app in H as [H _]. exact H. Qed.

(** [NoDup] of a prefix of the list in [H], up to bracketing. *)
Ltac nodup_prefix H :=
  rewrite <- ?app_assoc in H; rewrite <- ?app_assoc;
  first [ exact H
        | eapply NoDup_prefix; rewrite <- ?app_assoc; exact H ].

Lemma released_start (h : heap) : released h [] h.
Proof. split; reflexivity. Qed.

Lemma not_in_nonnull_0 (p : ptr) : (0 : ptr) ∉ nonnull p.
Proof.
  unfold nonnull. destruct (Z.eqb_spec p 0); [inversion 1|].
  intros H. apply list_elem_of_singleton in H. congruence.
Qed.

(** One [free] of a block that is still there. *)
Lemma released_free (h0 cur : heap) (done : list ptr) (p : ptr) :
  released h0 done cur ->
  NoDup (done ++ nonnull p) ->
  Forall (fun q => is_Some (live h0 !! q)) (nonnull p) ->
  exists cur', free p cur = Some cur' /\ released h0 (done ++ nonnull p) cur'.
Proof.
  intros [Hlive Hfreed] Hnodup Hthere. unfold free, nonnull in *.
  destruct (Z.eqb_spec p 0) as [->|Hp].
  - exists cur. rewrite app_nil_r. split; [reflexivity | split; assumption].
  - apply NoDup_app in Hnodup as (_ & Hfresh & _).
    assert (Hnew : p ∉ done)
      by (intros Hin; apply (Hfresh p Hin); apply list_elem_of_singleton; reflexivity).
    apply Forall_cons in Hthere as [[b Hb] _].
    rewrite Hlive, (lookup_without _ _ _ Hnew), Hb.
    eexists. split; [reflexivity|]. split; cbn.
    + rewrite without_snoc. reflexivity.
    + rewrite Hfreed, rev_app_distr. reflexivity.
Qed.

(** Reading an array that was not freed reads what was there at first. *)
Lemma released_live (h0 cur : heap) (done : list ptr) (arr : ptr) :
  released h0 done cur -> arr ∉ done -> live cur !! arr = live h0 !! arr.
Proof. intros [Hlive _] Hnew. rewrite Hlive. apply lookup_without. exact Hnew. Qed.

Lemma load_string_ptr_nonnull (h : heap) (arr : ptr) (i : nat) (p : ptr) :
  load_string_ptr h arr i = Some p -> nonnull arr = [arr].
Proof.
  unfold load_string_ptr, nonnull. destruct (arr =? 0); [discriminate | reflexivity].
Qed.

Lemma load_parameter_nonnull (h : heap) (arr : ptr) (i : nat) (x : RemoteParameter) :
  load_parameter h arr i = Some x -> nonnull arr = [arr].
Proof.
  unfold load_parameter, nonnull. destruct (arr =? 0); [discriminate | reflexivity].
Qed.

Lemma load_scene_nonnull (h : heap) (arr : ptr) (i : nat) (x : RemoteParameters) :
  load_scene h arr i = Some x -> nonnull arr = [arr].
Proof.
  unfold load_scene, nonnull. destruct (arr =? 0); [discriminate | reflexivity].
Qed.

(** The loop over an array of strings. *)
Lemma free_strings_released (h0 : heap) (arr : ptr) :
  forall (n i : nat) (done : list ptr) (cur : heap) (strs : list ptr),
  released h0 done cur ->
  strings_footprint h0 arr i n = Some strs ->
  NoDup (done ++ strs ++ nonnull arr) ->
  Forall (fun q => is_Some (live h0 !! q)) strs ->
  exists cur', free_strings arr i n cur = Some cur'
               /\ released h0 (done ++ strs) cur'.
Proof.
  induction n as [|n IH]; intros i done cur strs Hcur Hfp Hnodup Hthere.
  - cbn in Hfp. injection Hfp as <-. exists cur. rewrite app_nil_r. auto.
  - cbn [strings_footprint] in Hfp.
    destruct (load_string_ptr h0 arr i) as [p|] eqn:Hload; [|discriminate].
    cbn [mbind option_bind] in Hfp.
    destruct (strings_footprint h0 arr (S i) n) as [rest|] eqn:Hrest; [|discriminate].
    cbn in Hfp. injection Hfp as <-.
    rewrite (load_string_ptr_nonnull _ _ _ _ Hload) in Hnodup.
    assert (Harr : arr ∉ done).
    { apply NoDup_app in Hnodup as (_ & Hfresh & _).
      intros Hin. apply (Hfresh arr Hin).
      rewrite !elem_of_app, list_elem_of_singleton. auto. }
    cbn [free_strings].
    assert (Hsame : load_string_ptr cur arr i = Some p).
    { unfold load_string_ptr in *. rewrite (released_live _ _ _ _ Hcur Harr). exact Hload. }
    rewrite Hsame. cbn [mbind option_bind].
    apply Forall_app in Hthere as [Hp Hrest_there].
    destruct (released_free h0 cur done p Hcur) as (cur1 & Hfree & Hcur1); [|exact Hp|].
    { rewrite !app_assoc in Hnodup. apply NoDup_app in Hnodup as (Hnodup & _).
      apply NoDup_app in Hnodup as (Hnodup & _). exact Hnodup. }
    rewrite Hfree. cbn [mbind option_bind].
    destruct (IH (S i) (done ++ nonnull p) cur1 rest Hcur1 Hrest) as (cur' & Hrun & Hcur').
    { rewrite (load_string_ptr_nonnull _ _ _ _ Hload).
      rewrite <- !app_assoc in Hnodup |- *. exact Hnodup. }
    { exact Hrest_there. }
    exists cur'. rewrite <- app_assoc in Hcur'. auto.
Qed.

(** The body of the loop over the parameters. *)
Lemma free_parameter_released (h0 : heap) (parameter : RemoteParameter)
    (done : list ptr) (cur : heap) (owned : list ptr) :
  released h0 done cur ->
  parameter_footprint h0 parameter = Some owned ->
  NoDup (done ++ owned) ->
  Forall (fun q => is_Some (live h0 !! q)) owned ->
  exists cur', free_parameter parameter cur = Some cur'
               /\ released h0 (done ++ owned) cur'.
Proof.
  intros Hcur Hfp Hnodup Hthere. unfold parameter_footprint in Hfp.
  destruct (strings_footprint h0 (options parameter) 0 _) as [opts|] eqn:Hopts;
    [|discriminate].
  cbn in Hfp. injection Hfp as <-.
  apply Forall_app in Hthere as [Hg Hthere].
  apply Forall_app in Hthere as [Hd Hthere].
  apply Forall_app in Hthere as [Hk Hthere].
  apply Forall_app in Hthere as [Ho Ha].
  unfold free_parameter.
  destruct (released_free h0 cur done (group parameter) Hcur) as (c1 & E1 & R1);
    [nodup_prefix Hnodup | exact Hg |].
  rewrite E1. cbn [mbind option_bind].
  destruct (released_free h0 c1 _ (displayName parameter) R1) as (c2 & E2 & R2);
    [nodup_prefix Hnodup | exact Hd |].
  rewrite E2. cbn [mbind option_bind].
  destruct (released_free h0 c2 _ (key parameter) R2) as (c3 & E3 & R3);
    [nodup_prefix Hnodup | exact Hk |].
  rewrite E3. cbn [mbind option_bind].
  destruct (free_strings_released h0 (options parameter) _ 0 _ c3 opts R3 Hopts)
    as (c4 & E4 & R4); [nodup_prefix Hnodup | exact Ho |].
  rewrite E4. cbn [mbind option_bind].
  destruct (released_free h0 c4 _ (options parameter) R4) as (c5 & E5 & R5);
    [nodup_prefix Hnodup | exact Ha |].
  exists c5. split; [exact E5|]. rewrite <- !app_assoc in R5. exact R5.
Qed.

(** The loop over the parameters of a scene. *)
Lemma free_parameters_released (h0 : heap) (arr : ptr) :
  forall (n j : nat) (done : list ptr) (cur : heap) (owned : list ptr),
  released h0 done cur ->
  parameters_footprint h0 arr j n = Some owned ->
  NoDup (done ++ owned ++ nonnull arr) ->
  Forall (fun q => is_Some (live h0 !! q)) owned ->
  exists cur', free_parameters arr j n cur = Some cur'
               /\ released h0 (done ++ owned) cur'.
Proof.
  induction n as [|n IH]; intros j done cur owned Hcur Hfp Hnodup Hthere.
  - cbn in Hfp. injection Hfp as <-. exists cur. rewrite app_nil_r. auto.
  - cbn [parameters_footprint] in Hfp.
    destruct (load_parameter h0 arr j) as [parameter|] eqn:Hload; [|discriminate].
    cbn [mbind option_bind] in Hfp.
    destruct (parameter_footprint h0 parameter) as [here|] eqn:Hhere; [|discriminate].
    cbn [mbind option_bind] in Hfp.
    destruct (parameters_footprint h0 arr (S j) n) as [rest|] eqn:Hrest; [|discriminate].
    cbn in Hfp. injection Hfp as <-.
    assert (Harr : arr ∉ done).
    { rewrite (load_parameter_nonnull _ _ _ _ Hload) in Hnodup.
      apply NoDup_app in Hnodup as (_ & Hfresh & _).
      intros Hin. apply (Hfresh arr Hin). rewrite !elem_of_app, list_elem_of_singleton. auto. }
    cbn [free_parameters].
    assert (Hsame : load_parameter cur arr j = Some parameter).
    { unfold load_parameter in *. rewrite (released_live _ _ _ _ Hcur Harr). exact Hload. }
    rewrite Hsame. cbn [mbind option_bind].
    apply Forall_app in Hthere as [Hhere_there Hrest_there].
    destruct (free_parameter_released h0 parameter done cur here Hcur Hhere)
      as (cur1 & Hfree & Hcur1); [nodup_prefix Hnodup | exact Hhere_there |].
    rewrite Hfree. cbn [mbind option_bind].
    destruct (IH (S j) (done ++ here) cur1 rest Hcur1 Hrest) as (cur' & Hrun & Hcur');
      [nodup_prefix Hnodup | exact Hrest_there |].
    exists cur'. rewrite <- app_assoc in Hcur'. auto.
Qed.

(** The body of the loop over the scenes. *)
Lemma free_scene_released (h0 : heap) (scene : RemoteParameters)
    (done : list ptr) (cur : heap) (owned : list ptr) :
  released h0 done cur ->
  scene_footprint h0 scene = Some owned ->
  NoDup (done ++ owned) ->
  Forall (fun q => is_Some (live h0 !! q)) owned ->
  exists cur', free_scene scene cur = Some cur'
               /\ released h0 (done ++ owned) cur'.
Proof.
  intros Hcur Hfp Hnodup Hthere. unfold scene_footprint in Hfp.
  destruct (parameters_footprint h0 (parameters scene) 0 _) as [ps|] eqn:Hps;
    [|discriminate].
  cbn in Hfp. injection Hfp as <-.
  apply Forall_app in Hthere as [Hn Hthere].
  apply Forall_app in Hthere as [Hp Ha].
  unfold free_scene.
  destruct (released_free h0 cur done (name scene) Hcur) as (c1 & E1 & R1);
    [nodup_prefix Hnodup | exact Hn |].
  rewrite E1. cbn [mbind option_bind].
  destruct (free_parameters_released h0 (parameters scene) _ 0 _ c1 ps R1 Hps)
    as (c2 & E2 & R2); [nodup_prefix Hnodup | exact Hp |].
  rewrite E2. cbn [mbind option_bind].
  destruct (released_free h0 c2 _ (parameters scene) R2) as (c3 & E3 & R3);
    [nodup_prefix Hnodup | exact Ha |].
  exists c3. split; [exact E3|]. rewrite <- !app_assoc in R3. exact R3.
Qed.

(** The loop over the scenes. *)
Lemma free_scenes_released (h0 : heap) (arr : ptr) :
  forall (n i : nat) (done : list ptr) (cur : heap) (owned : list ptr),
  released h0 done cur ->
  scenes_footprint h0 arr i n = Some owned ->
  NoDup (done ++ owned ++ nonnull arr) ->
  Forall (fun q => is_Some (live h0 !! q)) owned ->
  exists cur', free_scenes arr i n cur = Some cur'
               /\ released h0 (done ++ owned) cur'.
Proof.
  induction n as [|n IH]; intros i done cur owned Hcur Hfp Hnodup Hthere.
  - cbn in Hfp. injection Hfp as <-. exists cur. rewrite app_nil_r. auto.
  - cbn [scenes_footprint] in Hfp.
    destruct (load_scene h0 arr i) as [scene|] eqn:Hload; [|discriminate].
    cbn [mbind option_bind] in Hfp.
    destruct (scene_footprint h0 scene) as [here|] eqn:Hhere; [|discriminate].
    cbn [mbind option_bind] in Hfp.
    destruct (scenes_footprint h0 arr (S i) n) as [rest|] eqn:Hrest; [|discriminate].
    cbn in Hfp. injection Hfp as <-.
    assert (Harr : arr ∉ done).
    { rewrite (load_scene_nonnull _ _ _ _ Hload) in Hnodup.
      apply NoDup_app in Hnodup as (_ & Hfresh & _).
      intros Hin. apply (Hfresh arr Hin). rewrite !elem_of_app, list_elem_of_singleton. auto. }
    cbn [free_scenes].
    assert (Hsame : load_scene cur arr i = Some scene).
    { unfold load_scene in *. rewrite (released_live _ _ _ _ Hcur Harr). exact Hload. }
    rewrite Hsame. cbn [mbind option_bind].
    apply Forall_app in Hthere as [Hhere_there Hrest_there].
    destruct (free_scene_released h0 scene done cur here Hcur Hhere)
      as (cur1 & Hfree & Hcur1); [nodup_prefix Hnodup | exact Hhere_there |].
    rewrite Hfree. cbn [mbind option_bind].
    destruct (IH (S i) (done ++ here) cur1 rest Hcur1 Hrest) as (cur' & Hrun & Hcur');
      [nodup_prefix Hnodup | exact Hrest_there |].
    exists cur'. rewrite <- app_assoc in Hcur'. auto.
Qed.

(** [reset] on a schema that owns its allocations: it completes, leaves
    the empty schema, and has freed exactly these allocations, each once,
    in the order of the footprint. *)
Lemma reset_owned (h : heap) (s : ScopedSchema) (allocations : list ptr) :
  owns h s allocations ->
  exists h', reset s h = Some (clear, h') /\ released h allocations h'.
Proof.
  intros (Hfp & Hnodup & Hthere). unfold footprint in Hfp.
  destruct (strings_footprint h _ 0 _) as [cs|] eqn:Hcs; [|discriminate].
  cbn [mbind option_bind] in Hfp.
  destruct (scenes_footprint h _ 0 _) as [ss|] eqn:Hss; [|discriminate].
  cbn in Hfp. injection Hfp as <-.
  apply Forall_app in Hthere as [Hc Hthere].
  apply Forall_app in Hthere as [Hca Hthere].
  apply Forall_app in Hthere as [Hs Hsa].
  change (NoDup ([] ++ cs ++ nonnull (channels (schema_channels (schema s))) ++ ss
                 ++ nonnull (scenes (schema_scenes (schema s))))) in Hnodup.
  unfold reset.
  destruct (free_strings_released h _ _ 0 [] h cs (released_start h) Hcs)
    as (h1 & E1 & R1); [nodup_prefix Hnodup | exact Hc |].
  rewrite E1. cbn [mbind option_bind].
  destruct (released_free h h1 _ (channels (schema_channels (schema s))) R1)
    as (h2 & E2 & R2); [nodup_prefix Hnodup | exact Hca |].
  rewrite E2. cbn [mbind option_bind].
  destruct (free_scenes_released h _ _ 0 _ h2 ss R2 Hss)
    as (h3 & E3 & R3); [nodup_prefix Hnodup | exact Hs |].
  rewrite E3. cbn [mbind option_bind].
  destruct (released_free h h3 _ (scenes (schema_scenes (schema s))) R3)
    as (h4 & E4 & R4); [nodup_prefix Hnodup | exact Hsa |].
  rewrite E4. cbn [mbind option_bind].
  exists h4. split; [reflexivity|]. rewrite <- !app_assoc in R4. exact R4.
Qed.

(** [reset] on the empty schema frees nothing. *)
Lemma reset_clear (h : heap) : reset clear h = Some (clear, h).
Proof. reflexivity. Qed.

(** Whatever [reset] started from, it ends in the empty schema. *)
Lemma reset_leaves_clear (s s' : ScopedSchema) (h h' : heap) :
  reset s h = Some (s', h') -> s' = clear.
Proof.
  unfold reset. intros Hreset.
  repeat match type of Hreset with
         | (mbind _ ?m) = Some _ => destruct m; cbn [mbind option_bind] in Hreset
         end; try discriminate.
  injection Hreset as <- _. reflexivity.
Qed.

Lemma reset_twice (s s' : ScopedSchema) (h h' : heap) :
  reset s h = Some (s', h') -> reset s' h' = Some (s', h').
Proof.
  intros Hreset. rewrite (reset_leaves_clear _ _ _ _ Hreset). apply reset_clear.
Qed.

(** C8.  On a schema that owns its allocations, [reset] frees every one
    of them, each once, and leaves the empty schema; a second [reset]
    then frees nothing and changes nothing, and so does the destructor,
    which is [reset].  From any state, a [reset] that has completed is
    followed by a [reset] that frees nothing. *)
Theorem reset_idempotent (h : heap) (s : ScopedSchema) (allocations : list ptr) :
  owns h s allocations ->
  exists h1,
    reset s h = Some (clear, h1)
    /\ freed h1 = rev allocations ++ freed h
    /\ NoDup allocations
    /\ live h1 = without (live h) allocations
    /\ (forall p, p ∈ allocations -> live h1 !! p = None)
    /\ (forall p, p ∉ allocations -> live h1 !! p = live h !! p)
    /\ reset clear h1 = Some (clear, h1)
    /\ destroy s h = Some h1
    /\ destroy clear h1 = Some h1
    /\ (forall (s0 s' : ScopedSchema) (h0 h' : heap),
          reset s0 h0 = Some (s', h') ->
          s' = clear /\ reset s' h' = Some (s', h')).
Proof.
  intros Howns. destruct (reset_owned h s allocations Howns) as (h1 & Hreset & Hlive & Hfreed).
  exists h1. split; [exact Hreset|]. split; [exact Hfreed|].
  split; [apply Howns|]. split; [exact Hlive|].
  split; [intros p Hp; rewrite Hlive; apply lookup_without_freed; exact Hp|].
  split; [intros p Hp; rewrite Hlive; apply lookup_without; exact Hp|].
  split; [apply reset_clear|].
  split; [unfold destroy; rewrite Hreset; reflexivity|].
  split; [reflexivity|].
  intros s0 s' h0 h' H0. split.
  - eapply reset_leaves_clear. exact H0.
  - eapply reset_twice. exact H0.
Qed.

(** After a move from a schema that owns its allocations, every one of
    them has been freed, while the destination holds the pointers. *)
Lemma move_construct_frees (h : heap) (s : ScopedSchema) (allocations : list ptr) :
  owns h s allocations ->
  exists h', move_construct s h = Some (s, clear, h')
             /\ forall p, p ∈ allocations -> live h' !! p = None.
Proof.
  intros Howns. destruct (reset_owned h s allocations Howns) as (h' & Hreset & Hlive & _).
  exists h'. unfold move_construct. rewrite Hreset. cbn. destruct s. split; [reflexivity|].
  intros p Hp. rewrite Hlive. apply lookup_without_freed. exact Hp.
Qed.

End Ownership.

Lemma demo_schema_owns :
  RenderStreamLink.owns RenderStreamLink.demo_heap RenderStreamLink.demo_schema [11; 10; 21; 31; 32; 33; 41; 42; 40; 30; 20].
Proof.
  split; [reflexivity|]. split.
  - apply (bool_decide_unpack _). reflexivity.
  - repeat constructor; eexists; reflexivity.
Qed.

Lemma reset_idempotent_witness :
  exists h1,
    RenderStreamLink.reset RenderStreamLink.demo_schema RenderStreamLink.demo_heap = Some (RenderStreamLink.clear, h1)
    /\ RenderStreamLink.freed h1 = [20; 30; 40; 42; 41; 33; 32; 31; 21; 10; 11]
    /\ RenderStreamLink.reset RenderStreamLink.clear h1 = Some (RenderStreamLink.clear, h1).
Proof.
  destruct (reset_idempotent RenderStreamLink.demo_heap RenderStreamLink.demo_schema _ demo_schema_owns)
    as (h1 & Hreset & Hfreed & _ & _ & _ & _ & Hagain & _).
  exists h1. split; [exact Hreset|]. split; [exact Hfreed | exact Hagain].
Defined.

(** C1, on the code.  The move constructor copies the pointers and then
    resets the source, which frees what the destination now points to:
    moving the demo schema frees all its eleven allocations, the channel
    array of the destination is no longer allocated, and destroying the
    destination reads and frees freed memory ([destroy] has no result).
    Move assignment does the same and, into a populated object, leaves
    the old contents of the destination allocated. *)
Theorem move_frees_the_destination :
  match RenderStreamLink.move_construct RenderStreamLink.demo_schema RenderStreamLink.demo_heap with
  | Some (this, other, h') =>
      this = RenderStreamLink.demo_schema
      /\ other = RenderStreamLink.clear
      /\ RenderStreamLink.freed h' = [20; 30; 40; 42; 41; 33; 32; 31; 21; 10; 11]
      /\ RenderStreamLink.live h' !! RenderStreamLink.channels (RenderStreamLink.schema_channels (RenderStreamLink.schema this)) = None
      /\ RenderStreamLink.destroy this h' = None
  | None => False
  end
  /\ match RenderStreamLink.move_assign RenderStreamLink.demo_old RenderStreamLink.demo_schema RenderStreamLink.demo_heap with
     | Some (this, other, h') =>
         this = RenderStreamLink.demo_schema
         /\ other = RenderStreamLink.clear
         /\ RenderStreamLink.live h' !! RenderStreamLink.channels (RenderStreamLink.schema_channels (RenderStreamLink.schema this)) = None
         /\ RenderStreamLink.live h' !! 50 = Some (RenderStreamLink.Strings [51])
         /\ RenderStreamLink.live h' !! 51 = Some (RenderStreamLink.Chars "old")
         /\ RenderStreamLink.destroy this h' = None
     | None => False
     end.
Proof. vm_compute. repeat split. Qed.

(** * Further properties *)

(** ** FFrameStream: what the router is handed *)

Section Submissions.
Import FrameStream.

Variable fence_t : int_type.
Hypothesis fence_bits : 1 <= bits fence_t.

Variable CreateStreamResources :
  option Texture -> option Fence -> FIntPoint -> RSPixelFormat ->
  bool * option Texture * option Fence.

Lemma send_frames_fields (frames : list Frame) : forall s,
  let s' := send_frames fence_t s frames in
  m_streamName s' = m_streamName s /\ m_channel s' = m_channel s
  /\ m_clipping s' = m_clipping s /\ m_bufTexture s' = m_bufTexture s
  /\ m_resolution s' = m_resolution s /\ m_handle s' = m_handle s
  /\ m_fence s' = m_fence s.
Proof.
  induction frames as [|[[fd tex] rect] rest IH]; intros s; cbn [send_frames].
  - repeat split.
  - specialize (IH (fst (SendFrame_RenderingThread fence_t s fd tex rect))). exact IH.
Qed.

Lemma submissions_length (frames : list Frame) : forall s,
  length (submissions fence_t s frames) = length frames.
Proof.
  induction frames as [|[[fd tex] rect] rest IH]; intros s; cbn [submissions length];
    [reflexivity | rewrite IH; reflexivity].
Qed.

Lemma submissions_lookup (frames : list Frame) : forall s k fd tex rect,
  frames !! k = Some (fd, tex, rect) ->
  submissions fence_t s frames !! k
  = Some (snd (SendFrame_RenderingThread fence_t
                 (send_frames fence_t s (take k frames)) fd tex rect)).
Proof.
  induction frames as [|[[fd0 tex0] rect0] rest IH]; intros s k fd tex rect Hk.
  - rewrite lookup_nil in Hk. discriminate.
  - destruct k as [|k].
    + cbn in Hk. injection Hk as -> -> ->. reflexivity.
    + cbn in Hk. cbn [submissions take send_frames].
      exact (IH _ _ _ _ _ Hk).
Qed.

(** X1.  While the counter stays within its type, sending leaves every member
    but the counter as it was, and the k-th frame handed to the router
    carries the handle, texture and fence of the stream, the tracked time,
    source and sub-rectangle of that frame, and the fence value
    [initial + 2k].  *)
Theorem submissions_tagged (s : FFrameStream) (frames : list Frame) :
  int_min fence_t <= m_fenceValue s ->
  m_fenceValue s + 2 * Z.of_nat (length frames) <= int_max fence_t ->
  send_frames fence_t s frames
  = mkStream (m_streamName s) (m_channel s) (m_clipping s) (m_bufTexture s)
             (m_resolution s) (m_handle s) (m_fence s)
             (m_fenceValue s + 2 * Z.of_nat (length frames))
  /\ length (submissions fence_t s frames) = length frames
  /\ forall (k : nat) fd tex rect,
       frames !! k = Some (fd, tex, rect) ->
       submissions fence_t s frames !! k
       = Some (mkSubmission (m_handle s) (m_bufTexture s) (m_fence s)
                 (m_fenceValue s + 2 * Z.of_nat k) fd tex
                 (ULeft (normalized_rect tex rect), URight (normalized_rect tex rect))
                 (VTop (normalized_rect tex rect), VBottom (normalized_rect tex rect))).
Proof.
  intros Hlo Hhi. split; [|split].
  - pose proof (send_frames_fields frames s) as (H1 & H2 & H3 & H4 & H5 & H6 & H7).
    pose proof (send_frames_fence fence_t fence_bits frames s Hlo Hhi) as H8.
    destruct (send_frames fence_t s frames). cbn in *. congruence.
  - apply submissions_length.
  - intros k fd tex rect Hk. rewrite (submissions_lookup _ _ _ _ _ _ Hk).
    assert (Hlt : (k < length frames)%nat) by (eapply lookup_lt_Some; eassumption).
    pose proof (send_frames_fields (take k frames) s) as (H1 & H2 & H3 & H4 & H5 & H6 & H7).
    pose proof (send_frames_fence fence_t fence_bits (take k frames) s Hlo) as H8.
    rewrite length_take in H8. replace (k `min` length frames)%nat with k in H8 by lia.
    specialize (H8 ltac:(lia)).
    unfold SendFrame_RenderingThread. cbn [snd]. rewrite H4, H6, H7, H8. reflexivity.
Qed.

(** X2.  A successful [Setup] followed by sends: every frame goes out under
    the handle given to [Setup], with the texture and fence it created. *)
Theorem Setup_then_send (s s1 : FFrameStream) (status : Status)
    (name : string) (Resolution : FIntPoint) (Channel : string)
    (Clipping : ProjectionClipping) (Handle : StreamHandle) (fmt : RSPixelFormat)
    (frames : list Frame) :
  Setup CreateStreamResources s name Resolution Channel Clipping Handle fmt
  = (true, s1, status) ->
  let created := CreateStreamResources (m_bufTexture s) (m_fence s) Resolution fmt in
  m_handle s = 0 /\ Handle <> 0 /\ created.1.1 = true
  /\ s1 = mkStream name Channel Clipping created.1.2 Resolution Handle created.2
                   (m_fenceValue s)
  /\ Forall (fun sub => sub_handle sub = Handle
                        /\ sub_bufTexture sub = created.1.2
                        /\ sub_fence sub = created.2)
            (submissions fence_t s1 frames)
  /\ m_handle (send_frames fence_t s1 frames) = Handle.
Proof.
  intros Hsetup created. subst created. revert Hsetup. unfold Setup.
  destruct (Z.eqb_spec (m_handle s) 0) as [Hunbound|_]; cbn [negb]; [|discriminate].
  destruct (CreateStreamResources _ _ _ _) as [[ok tex] fence].
  destruct ok; cbn [negb]; [|discriminate].
  destruct (Z.eqb_spec Handle 0) as [_|Hne]; [discriminate|].
  intros [= <- _]. cbn [fst snd].
  split; [exact Hunbound|]. split; [exact Hne|]. split; [reflexivity|].
  split; [reflexivity|]. split.
  - apply Forall_forall. intros sub Hin.
    apply list_elem_of_lookup in Hin as [k Hk].
    assert (Hlt : (k < length frames)%nat).
    { rewrite <- (submissions_length frames
                   (mkStream name Channel Clipping tex Resolution Handle fence (m_fenceValue s))).
      eapply lookup_lt_Some; eassumption. }
    destruct (lookup_lt_is_Some_2 frames k Hlt) as [[[fd tx] rect] Hf].
    rewrite (submissions_lookup _ _ _ _ _ _ Hf) in Hk. injection Hk as <-.
    pose proof (send_frames_fields (take k frames)
                  (mkStream name Channel Clipping tex Resolution Handle fence (m_fenceValue s)))
      as (_ & _ & _ & H4 & _ & H6 & H7).
    unfold SendFrame_RenderingThread. cbn [snd sub_handle sub_bufTexture sub_fence].
    rewrite H4, H6, H7. repeat split.
  - apply (send_frames_fields frames
             (mkStream name Channel Clipping tex Resolution Handle fence (m_fenceValue s))).
Qed.

End Submissions.

Lemma submissions_tagged_witness :
  FrameStream.submissions int32_t FrameStream.new_stream
    [FrameStream.full_frame; FrameStream.full_frame] !! 1%nat
  = Some (FrameStream.mkSubmission 0 None None (0 + 2 * 1) 0
            (FrameStream.mkTexture 1920 1080 RS_FMT_BGRA8)
            (f32_zero, f32_one) (f32_zero, f32_one)).
Proof.
  destruct (submissions_tagged int32_t ltac:(simpl; lia) FrameStream.new_stream
              [FrameStream.full_frame; FrameStream.full_frame]
              ltac:(unfold int_min; simpl; lia) ltac:(unfold int_max; simpl; lia))
    as (_ & _ & H).
  apply (H 1%nat 0 (FrameStream.mkTexture 1920 1080 RS_FMT_BGRA8)
           (mkIntRect (mkIntPoint 0 0) FrameStream.full_hd)).
  reflexivity.
Defined.

Lemma Setup_then_send_witness :
  FrameStream.m_handle
    (FrameStream.send_frames int32_t
       (FrameStream.mkStream "wall" "main" FrameStream.no_clipping
          (Some (FrameStream.mkTexture 1920 1080 RS_FMT_BGRA8)) FrameStream.full_hd 7
          (Some 1) 0)
       [FrameStream.full_frame])
  = 7.
Proof.
  apply (Setup_then_send int32_t FrameStream.allocate FrameStream.new_stream
           (FrameStream.mkStream "wall" "main" FrameStream.no_clipping
              (Some (FrameStream.mkTexture 1920 1080 RS_FMT_BGRA8)) FrameStream.full_hd 7
              (Some 1) 0)
           (FrameStream.StatusGreen "Connected to stream")
           "wall" FrameStream.full_hd "main" FrameStream.no_clipping 7 RS_FMT_BGRA8
           [FrameStream.full_frame]).
  reflexivity.
Defined.

Lemma Setup_twice_witness :
  FrameStream.Setup FrameStream.allocate
    (FrameStream.mkStream "wall" "main" FrameStream.no_clipping
       (Some (FrameStream.mkTexture 1920 1080 RS_FMT_BGRA8)) FrameStream.full_hd 7
       (Some 1) 0)
    "other" FrameStream.full_hd "aux" FrameStream.no_clipping 8 RS_FMT_RGBA32F
  = (false,
     FrameStream.mkStream "wall" "main" FrameStream.no_clipping
       (Some (FrameStream.mkTexture 1920 1080 RS_FMT_BGRA8)) FrameStream.full_hd 7
       (Some 1) 0,
     FrameStream.StatusNone).
Proof.
  apply (Setup_twice FrameStream.allocate FrameStream.new_stream
           (FrameStream.mkStream "wall" "main" FrameStream.no_clipping
              (Some (FrameStream.mkTexture 1920 1080 RS_FMT_BGRA8)) FrameStream.full_hd 7
              (Some 1) 0)
           (FrameStream.StatusGreen "Connected to stream")
           "wall" FrameStream.full_hd "main" FrameStream.no_clipping 7 RS_FMT_BGRA8).
  reflexivity.
Defined.

Lemma SendFrame_wraps_witness :
  FrameStream.m_fenceValue
    (fst (FrameStream.SendFrame_RenderingThread int32_t FrameStream.late_stream 0
            (FrameStream.mkTexture 1920 1080 RS_FMT_BGRA8)
            (mkIntRect (mkIntPoint 0 0) FrameStream.full_hd)))
  = int_min int32_t.
Proof.
  apply (SendFrame_wraps int32_t ltac:(simpl; lia) FrameStream.late_stream).
  reflexivity.
Defined.

(** ** FFrameStream: the sub-rectangle at the edges *)

Section SubRectangleEdges.
Import FrameStream.

(** A real rounds to one float only. *)
Lemma Rounds_unique (x : R) (m e m' e' : Z) :
  Rounds x m e -> Rounds x m' e' -> m = m' /\ e = e'.
Proof.
  intros H H'.
  pose proof (Rounds_mono x x m e m' e' H H' (Rle_refl x)) as H1.
  pose proof (Rounds_mono x x m' e' m e H' H (Rle_refl x)) as H2.
  lia.
Qed.

(** A positive integer below [2^32] divided by itself is exactly 1. *)
Lemma fdiv_self (W : Z) :
  0 < W < 2 ^ 32 -> fdiv (float_of_int W) (float_of_int W) = f32_one.
Proof.
  intros HW.
  destruct (float_of_int_spec W HW) as (mW & eW & EW & NW & RW & BW).
  destruct (fdiv_spec mW eW mW eW NW NW ltac:(lia) ltac:(lia)) as (m & e & Ed & _ & Rd).
  rewrite EW, Ed, f32_one_eq.
  assert (Hv : (0 < value (Zpos mW) eW)%R) by (apply value_pos; lia).
  replace (value (Zpos mW) eW / value (Zpos mW) eW)%R with 1%R in Rd
    by (field; lra).
  destruct (Rounds_unique _ _ _ _ _ Rd Rounds_one) as [Hm He].
  change (2 ^ 23) with (Zpos 8388608) in Hm. injection Hm as ->. subst e. reflexivity.
Qed.

(** X5.  A viewport that covers the whole source image gets exactly the unit
    square: [ULeft = VTop = 0] and [URight = VBottom = 1]. *)
Theorem normalized_rect_full_image (SourceTexture : Texture) :
  0 < GetSizeX SourceTexture < 2 ^ 32 ->
  0 < GetSizeY SourceTexture < 2 ^ 32 ->
  normalized_rect SourceTexture
    (mkIntRect (mkIntPoint 0 0)
               (mkIntPoint (GetSizeX SourceTexture) (GetSizeY SourceTexture)))
  = mkSubRect f32_zero f32_one f32_zero f32_one.
Proof.
  intros HW HH. unfold normalized_rect. cbn [X Y Min Max].
  rewrite (fdiv_self _ HW), (fdiv_self _ HH).
  destruct (float_of_int_spec _ HW) as (mW & eW & -> & _).
  destruct (float_of_int_spec _ HH) as (mH & eH & -> & _).
  reflexivity.
Qed.

(** X6.  Nothing guards against a source image of width 0: the left bound is
    then not a number when the rectangle starts at 0, and plus infinity
    when it starts further right. *)
Theorem normalized_rect_zero_width (SourceTexture : Texture) (ViewportRect : FIntRect) :
  GetSizeX SourceTexture = 0 ->
  0 <= X (Min ViewportRect) < 2 ^ 32 ->
  ULeft (normalized_rect SourceTexture ViewportRect)
  = if X (Min ViewportRect) =? 0 then S754_nan else S754_infinity false.
Proof.
  intros HW Hx. unfold normalized_rect. cbn [ULeft]. rewrite HW.
  destruct (Z.eqb_spec (X (Min ViewportRect)) 0) as [->|Hne].
  - reflexivity.
  - destruct (float_of_int_spec (X (Min ViewportRect)) ltac:(lia)) as (m & e & -> & _).
    reflexivity.
Qed.

End SubRectangleEdges.

Lemma normalized_rect_full_image_witness :
  FrameStream.normalized_rect (FrameStream.mkTexture 1920 1080 RS_FMT_BGRA8)
    (mkIntRect (mkIntPoint 0 0) (mkIntPoint 1920 1080))
  = FrameStream.mkSubRect f32_zero f32_one f32_zero f32_one.
Proof.
  apply (normalized_rect_full_image (FrameStream.mkTexture 1920 1080 RS_FMT_BGRA8));
    simpl; lia.
Defined.

Lemma normalized_rect_zero_width_witness :
  FrameStream.ULeft
    (FrameStream.normalized_rect (FrameStream.mkTexture 0 1080 RS_FMT_BGRA8)
       (mkIntRect (mkIntPoint 16 0) (mkIntPoint 32 1080)))
  = S754_infinity false.
Proof.
  apply (normalized_rect_zero_width (FrameStream.mkTexture 0 1080 RS_FMT_BGRA8)
           (mkIntRect (mkIntPoint 16 0) (mkIntPoint 32 1080)));
    simpl; [reflexivity | lia].
Defined.

(** ** The scene selector: further properties *)

Section SelectorFurther.
Import SceneSelector_StreamingLevels.

Variable GetShortName : string -> string.
Variable RemoveFromStart : string -> string -> string.
Variable FString_eq : string -> string -> bool.
Variable ValidateParameters : UWorld -> nat -> list AActor -> bool.
Variable SchemaSpec_default : SchemaSpec.

Local Abbreviation find := (findStreamingLevelByName GetShortName RemoveFromStart FString_eq).
Local Abbreviation level_name := (LevelName GetShortName RemoveFromStart).
Local Abbreviation bound := (bound_spec GetShortName RemoveFromStart FString_eq).
Local Abbreviation apply_scene := (ApplyScene ValidateParameters).
Local Abbreviation on_loaded_schema :=
  (OnLoadedSchema GetShortName RemoveFromStart FString_eq ValidateParameters SchemaSpec_default).

Lemma find_from_first (levels : list ULevelStreaming) (FindName : string) :
  forall i : nat,
  match find_from GetShortName RemoveFromStart FString_eq levels i FindName with
  | Some p =>
      exists l, (i <= p)%nat /\ levels !! (p - i)%nat = Some l
                /\ FString_eq FindName (level_name l) = true
                /\ forall k l', (k < p - i)%nat -> levels !! k = Some l' ->
                                FString_eq FindName (level_name l') = false
  | None =>
      forall k l', levels !! k = Some l' -> FString_eq FindName (level_name l') = false
  end.
Proof.
  induction levels as [|l rest IH]; intros i; cbn [find_from].
  - intros k l' Hk. rewrite lookup_nil in Hk. discriminate.
  - destruct (FString_eq FindName (level_name l)) eqn:Hhead.
    + exists l. rewrite Nat.sub_diag. split; [lia|]. split; [reflexivity|].
      split; [exact Hhead|]. intros k l' Hk. lia.
    + specialize (IH (S i)).
      destruct (find_from _ _ _ rest (S i) FindName) as [p|].
      * destruct IH as (l0 & Hle & Hl0 & Hmatch & Hbefore).
        exists l0. split; [lia|].
        replace (p - i)%nat with (S (p - S i)) by lia.
        split; [exact Hl0|]. split; [exact Hmatch|].
        intros [|k] l' Hk Hl'.
        -- cbn in Hl'. injection Hl' as <-. exact Hhead.
        -- cbn in Hl'. apply (Hbefore k l'); [lia | exact Hl'].
      * intros [|k] l' Hl'.
        -- cbn in Hl'. injection Hl' as <-. exact Hhead.
        -- cbn in Hl'. apply (IH k l'). exact Hl'.
Qed.

(** X7.  [findStreamingLevelByName] returns the first level of the world whose
    name, the short package name without the prefix of its world, equals
    the name looked for, and [nullptr] exactly when no level has this
    name: of two levels of one name the second is never found. *)
Theorem findStreamingLevelByName_first_match (World : UWorld) (FindName : string) :
  match find World FindName with
  | Some p =>
      exists l, GetStreamingLevels World !! p = Some l
                /\ FString_eq FindName (level_name l) = true
                /\ forall k l', (k < p)%nat -> GetStreamingLevels World !! k = Some l' ->
                                FString_eq FindName (level_name l') = false
  | None =>
      forall k l', GetStreamingLevels World !! k = Some l' ->
                   FString_eq FindName (level_name l') = false
  end.
Proof.
  unfold findStreamingLevelByName.
  pose proof (find_from_first (GetStreamingLevels World) FindName 0) as H.
  destruct (find_from _ _ _ _ 0%nat FindName) as [p|]; [|exact H].
  destruct H as (l & _ & Hl & Hmatch & Hbefore). rewrite Nat.sub_0_r in Hl, Hbefore.
  exists l. auto.
Qed.

(** *** What [ApplyScene] leaves alone *)

Lemma same_but_visibility_set (v : bool) (l : ULevelStreaming) :
  same_but_visibility l (SetShouldBeVisible v l).
Proof. reflexivity. Qed.

Lemma same_but_visibility_refl (l : ULevelStreaming) : same_but_visibility l l.
Proof. destruct l. reflexivity. Qed.

Lemma activate_from_same (spec : SchemaSpec) (sceneId : nat) :
  forall (levels : list ULevelStreaming) (j : nat),
  Forall2 same_but_visibility levels (activate_from spec sceneId j levels).1.
Proof.
  induction levels as [|l rest IH]; intros j; [constructor|].
  cbn [activate_from]. specialize (IH (S j)).
  destruct (activate_from spec sceneId (S j) rest) as [rest' log]. cbn [fst] in IH.
  destruct (negb (IsLevelLoaded l)); repeat case_decide; cbn [fst];
    constructor; auto using same_but_visibility_set, same_but_visibility_refl.
Qed.

Lemma activate_same (World : UWorld) (spec : SchemaSpec) (sceneId : nat) :
  PersistentLevelScriptActor (activate World spec sceneId).1
  = PersistentLevelScriptActor World
  /\ Forall2 same_but_visibility (GetStreamingLevels World)
             (GetStreamingLevels (activate World spec sceneId).1).
Proof.
  unfold activate.
  destruct (bool_decide (streamingLevel spec = None) && _).
  - cbn. split; [reflexivity|]. unfold hide_all.
    induction (GetStreamingLevels World); constructor; auto using same_but_visibility_set.
  - pose proof (activate_from_same spec sceneId (GetStreamingLevels World) 0) as H.
    destruct (activate_from spec sceneId 0 (GetStreamingLevels World)) as [levels log].
    cbn in *. auto.
Qed.

(** X8.  Whatever [ApplyScene] does, the bindings keep their number, every
    binding but the one of the scene is as before, and this one changes in
    its [loaded] flag at most, which is never reset; the world keeps its
    persistent root and its levels, of which only the visibility can have
    changed. *)
Theorem ApplyScene_preserves (World World' : UWorld) (sceneId : nat)
    (m_specs specs' : list SchemaSpec) (log : list Event) :
  apply_scene World sceneId m_specs = Done (specs', World', log) ->
  length specs' = length m_specs
  /\ (forall i, i <> sceneId -> specs' !! i = m_specs !! i)
  /\ (forall spec, m_specs !! sceneId = Some spec ->
        specs' !! sceneId = Some spec \/ specs' !! sceneId = Some (set_loaded spec))
  /\ PersistentLevelScriptActor World' = PersistentLevelScriptActor World
  /\ Forall2 same_but_visibility (GetStreamingLevels World) (GetStreamingLevels World').
Proof.
  assert (Hsame : Forall2 same_but_visibility (GetStreamingLevels World)
                          (GetStreamingLevels World)).
  { induction (GetStreamingLevels World); constructor;
      auto using same_but_visibility_refl. }
  unfold ApplyScene.
  destruct (m_specs !! sceneId) as [spec|] eqn:Hspec.
  2:{ intros [= <- <- _]. repeat split; auto. intros spec' [=]. }
  assert (Hi : (sceneId < length m_specs)%nat) by (eapply lookup_lt_Some; eassumption).
  destruct (loaded spec) eqn:Hl; cbn [negb].
  - pose proof (activate_same World spec sceneId) as [Hroot Hlevels].
    destruct (activate World spec sceneId) as [W' log']. cbn [fst] in *.
    intros [= <- <- _]. repeat split; auto.
    intros spec0 [= <-]. left. exact Hspec.
  - destruct (streamingLevel spec) as [p|] eqn:Hp; [|discriminate].
    unfold deref. destruct (GetStreamingLevels World !! p) as [l|]; cbn; [|discriminate].
    destruct (IsLevelLoaded l); cbn.
    2:{ intros [= <- <- _]. repeat split; auto.
        intros spec0 [= <-]. left. exact Hspec. }
    destruct (ValidateLevel ValidateParameters World _ sceneId) as [r| |]; cbn;
      [|discriminate|discriminate].
    pose proof (activate_same World (set_loaded spec) sceneId) as [Hroot Hlevels].
    destruct (activate World (set_loaded spec) sceneId) as [W' log']. cbn [fst] in *.
    intros [= <- <- _]. rewrite length_insert.
    split; [reflexivity|]. split.
    { intros i Hne. apply list_lookup_insert_ne. congruence. }
    split; [|auto].
    intros spec0 [= <-]. right. apply list_lookup_insert_eq. exact Hi.
Qed.


(** *** A second call *)

Lemma activate_from_idem (spec : SchemaSpec) (sceneId : nat) :
  forall (levels : list ULevelStreaming) (j : nat),
  activate_from spec sceneId j (activate_from spec sceneId j levels).1
  = activate_from spec sceneId j levels.
Proof.
  induction levels as [|l rest IH]; intros j; [reflexivity|].
  cbn [activate_from]. specialize (IH (S j)).
  destruct (activate_from spec sceneId (S j) rest) as [rest' log] eqn:Hrest.
  cbn [fst] in IH.
  destruct (IsLevelLoaded l) eqn:Hloaded; cbn [negb];
    repeat case_decide; cbn [fst activate_from]; rewrite IH;
    repeat case_decide; try contradiction;
    cbn [SetShouldBeVisible IsLevelLoaded GetLevelScriptActor GetWorldAssetPackageName
         GetWorld negb]; rewrite ?Hloaded; reflexivity.
Qed.

Lemma activate_idem (World : UWorld) (spec : SchemaSpec) (sceneId : nat) :
  activate (activate World spec sceneId).1 spec sceneId = activate World spec sceneId.
Proof.
  unfold activate.
  destruct (bool_decide (streamingLevel spec = None)
            && (persistentRoot spec =? PersistentLevelScriptActor World)) eqn:Hbase.
  - cbn [fst PersistentLevelScriptActor GetStreamingLevels]. rewrite Hbase.
    unfold hide_all. rewrite map_map. reflexivity.
  - pose proof (activate_from_idem spec sceneId (GetStreamingLevels World) 0) as H.
    destruct (activate_from spec sceneId 0 (GetStreamingLevels World)) as [levels log].
    cbn [fst PersistentLevelScriptActor GetStreamingLevels] in *. rewrite Hbase, H.
    reflexivity.
Qed.

Lemma activate_from_quiet (spec : SchemaSpec) (sceneId : nat) :
  forall (levels : list ULevelStreaming) (j : nat),
  Forall (fun e => is_validation e = false) (activate_from spec sceneId j levels).2.
Proof.
  induction levels as [|l rest IH]; intros j; [constructor|].
  cbn [activate_from]. specialize (IH (S j)).
  destruct (activate_from spec sceneId (S j) rest) as [rest' log]. cbn [snd] in IH.
  destruct (negb (IsLevelLoaded l)); repeat case_decide; cbn [snd]; auto.
Qed.

Lemma activate_quiet (World : UWorld) (spec : SchemaSpec) (sceneId : nat) :
  filter (fun e => negb (is_validation e)) (activate World spec sceneId).2
  = (activate World spec sceneId).2.
Proof.
  assert (H : Forall (fun e => is_validation e = false) (activate World spec sceneId).2).
  { unfold activate. destruct (bool_decide _ && _).
    - repeat constructor.
    - pose proof (activate_from_quiet spec sceneId (GetStreamingLevels World) 0) as H.
      destruct (activate_from spec sceneId 0 (GetStreamingLevels World)). exact H. }
  induction H as [|e log He _ IH]; [reflexivity|].
  cbn [filter]. rewrite filter_cons. rewrite He. cbn. 
  rewrite decide_True by exact I. f_equal. exact IH.
Qed.

(** X9.  A call of [ApplyScene] that has run to its end leaves bindings and a
    world in which a second call for the same scene changes nothing: it
    repeats what the first one logged, load request or parameters, but
    validates nothing. *)
Theorem ApplyScene_settles (World World' : UWorld) (sceneId : nat)
    (m_specs specs' : list SchemaSpec) (log : list Event) :
  apply_scene World sceneId m_specs = Done (specs', World', log) ->
  apply_scene World' sceneId specs'
  = Done (specs', World', filter (fun e => negb (is_validation e)) log).
Proof.
  unfold ApplyScene at 1.
  destruct (m_specs !! sceneId) as [spec|] eqn:Hspec.
  2:{ intros [= <- <- <-]. unfold ApplyScene. rewrite Hspec. reflexivity. }
  assert (Hi : (sceneId < length m_specs)%nat) by (eapply lookup_lt_Some; eassumption).
  destruct (loaded spec) eqn:Hl; cbn [negb].
  - pose proof (activate_idem World spec sceneId) as Hidem.
    pose proof (activate_quiet World spec sceneId) as Hquiet.
    destruct (activate World spec sceneId) as [W' log'] eqn:Hact. cbn [fst snd] in *.
    intros [= <- <- <-]. unfold ApplyScene. rewrite Hspec, Hl. cbn [negb].
    rewrite Hidem, Hquiet. reflexivity.
  - destruct (streamingLevel spec) as [p|] eqn:Hp; [|discriminate].
    unfold deref. destruct (GetStreamingLevels World !! p) as [l|] eqn:Hlevel; cbn;
      [|discriminate].
    destruct (IsLevelLoaded l) eqn:Hready; cbn.
    2:{ intros [= <- <- <-]. unfold ApplyScene, deref.
        rewrite Hspec, Hl, Hp, Hlevel. cbn. rewrite Hready. reflexivity. }
    destruct (ValidateLevel ValidateParameters World _ sceneId) as [r| |] eqn:Hv; cbn;
      [|discriminate|discriminate].
    pose proof (activate_idem World (set_loaded spec) sceneId) as Hidem.
    pose proof (activate_quiet World (set_loaded spec) sceneId) as Hquiet.
    destruct (activate World (set_loaded spec) sceneId) as [W' log'] eqn:Hact.
    cbn [fst snd] in *.
    intros [= <- <- <-]. unfold ApplyScene.
    rewrite list_lookup_insert_eq by exact Hi. cbn [loaded set_loaded negb].
    change (mkSpec (streamingLevel spec) (persistentRoot spec) (hash spec)
                   (nParameters spec) true) with (set_loaded spec).
    rewrite Hidem. rewrite filter_app, Hquiet.
    replace (filter (fun e => negb (is_validation e)) r.2) with (@nil Event);
      [reflexivity|].
    revert Hv. unfold ValidateLevel.
    rewrite list_lookup_insert_eq by exact Hi.
    destruct (match streamingLevel (set_loaded spec) with
              | Some p0 => _ | None => _ end) as [root| |]; cbn; try discriminate.
    destruct (ValidateParameters _ _ _); intros [= <-]; reflexivity.
Qed.


(** *** [OnLoadedSchema] again, and [ApplyScene] after it *)

Lemma bound_twice (World : UWorld) (old : SchemaSpec) (parameters : SceneDecl) :
  bound World (bound World old parameters) parameters = bound World old parameters.
Proof.
  unfold bound_spec. cbn [loaded].
  destruct (level_ready World _); reflexivity.
Qed.

(** X10.  Loading the same schema a second time in the same world gives the
    bindings of the first time. *)
Theorem OnLoadedSchema_idempotent (World : UWorld) (Schema : list SceneDecl)
    (m_specs : list SchemaSpec) :
  exists specs log log',
    on_loaded_schema World Schema m_specs = Done (true, specs, log)
    /\ on_loaded_schema World Schema specs = Done (true, specs, log').
Proof.
  destruct (OnLoadedSchema_spec GetShortName RemoveFromStart FString_eq ValidateParameters
              SchemaSpec_default World Schema m_specs)
    as (specs & log & Hrun & Hlen & Hin & _).
  destruct (OnLoadedSchema_spec GetShortName RemoveFromStart FString_eq ValidateParameters
              SchemaSpec_default World Schema specs)
    as (specs2 & log' & Hrun2 & Hlen2 & Hin2 & _).
  exists specs, log, log'. split; [exact Hrun|]. rewrite Hrun2.
  replace specs2 with specs; [reflexivity|].
  apply list_eq. intros i.
  destruct (Schema !! i) as [parameters|] eqn:Hi.
  - destruct (Hin i parameters Hi) as (old & _ & Hnew).
    destruct (Hin2 i parameters Hi) as (old2 & Hold2 & Hnew2).
    rewrite <- Hlen, resize_all in Hold2. rewrite Hnew in Hold2. injection Hold2 as <-.
    rewrite Hnew, Hnew2, bound_twice. reflexivity.
  - apply lookup_ge_None in Hi.
    rewrite !lookup_ge_None_2 by lia. reflexivity.
Qed.

Lemma activate_from_unbound (spec : SchemaSpec) (sceneId : nat) :
  streamingLevel spec = None ->
  forall (levels : list ULevelStreaming) (j : nat),
  activate_from spec sceneId j levels = (levels, []).
Proof.
  intros Hnone. induction levels as [|l rest IH]; intros j; [reflexivity|].
  cbn [activate_from]. rewrite IH, Hnone.
  repeat case_decide; try discriminate; try contradiction; reflexivity.
Qed.

(** X11.  A scene of the schema for which the world has no streaming level is
    bound to the persistent root alone.  Applied in a world with this
    root, it hides every streaming level and applies the parameters of
    the root, without validating again; applied in a world with another
    persistent root, it does nothing at all. *)
Theorem base_scene_after_OnLoadedSchema (World : UWorld) (Schema : list SceneDecl)
    (m_specs : list SchemaSpec) :
  exists specs log,
    on_loaded_schema World Schema m_specs = Done (true, specs, log)
    /\ forall i parameters (World2 : UWorld),
         Schema !! i = Some parameters ->
         find World (name parameters) = None ->
         apply_scene World2 i specs
         = if PersistentLevelScriptActor World =? PersistentLevelScriptActor World2
           then Done (specs,
                      mkWorld (PersistentLevelScriptActor World2)
                              (map (SetShouldBeVisible false) (GetStreamingLevels World2)),
                      [ApplyParameters i [PersistentLevelScriptActor World2]])
           else Done (specs, World2, []).
Proof.
  destruct (OnLoadedSchema_spec GetShortName RemoveFromStart FString_eq ValidateParameters
              SchemaSpec_default World Schema m_specs)
    as (specs & log & Hrun & Hlen & Hin & _).
  exists specs, log. split; [exact Hrun|].
  intros i parameters World2 Hi Hfind.
  destruct (Hin i parameters Hi) as (old & _ & Hnew).
  unfold ApplyScene. rewrite Hnew. unfold bound_spec. rewrite Hfind.
  cbn [loaded level_ready negb]. unfold activate.
  cbn [streamingLevel persistentRoot]. rewrite bool_decide_eq_true_2 by reflexivity.
  cbn [andb].
  destruct (PersistentLevelScriptActor World =? PersistentLevelScriptActor World2).
  - reflexivity.
  - rewrite activate_from_unbound by reflexivity. destruct World2. reflexivity.
Qed.

Lemma activate_from_events (spec : SchemaSpec) (sceneId p : nat) :
  streamingLevel spec = Some p ->
  forall (levels : list ULevelStreaming) (j : nat),
  (j <= p)%nat ->
  (activate_from spec sceneId j levels).2
  = match levels !! (p - j)%nat with
    | Some l =>
        if IsLevelLoaded l
        then [ApplyParameters sceneId [persistentRoot spec; GetLevelScriptActor l]]
        else []
    | None => []
    end.
Proof.
  intros Hp.
  assert (Hpast : forall levels j, (p < j)%nat ->
                    (activate_from spec sceneId j levels).2 = []).
  { induction levels as [|l rest IH]; intros j Hj; [reflexivity|].
    cbn [activate_from]. specialize (IH (S j) ltac:(lia)).
    destruct (activate_from spec sceneId (S j) rest) as [rest' log].
    cbn [snd] in IH. subst log. rewrite Hp.
    destruct (negb (IsLevelLoaded l)); repeat case_decide; simplify_eq;
      try reflexivity; try lia; congruence. }
  induction levels as [|l0 rest IH]; intros j Hj.
  - rewrite lookup_nil. reflexivity.
  - cbn [activate_from]. rewrite Hp.
    destruct (decide (p = j)) as [->|N].
    + rewrite Nat.sub_diag. cbn [lookup list_lookup].
      specialize (Hpast rest (S j) ltac:(lia)).
      destruct (activate_from spec sceneId (S j) rest) as [rest' log].
      cbn [snd] in Hpast. subst log.
      destruct (IsLevelLoaded l0); cbn [negb];
        repeat case_decide; simplify_eq; reflexivity.
    + replace (p - j)%nat with (S (p - S j)) by lia. cbn [lookup list_lookup].
      specialize (IH (S j) ltac:(lia)).
      destruct (activate_from spec sceneId (S j) rest) as [rest' log].
      cbn [snd] in IH. subst log.
      destruct (negb (IsLevelLoaded l0)); repeat case_decide; simplify_eq;
        try reflexivity; congruence.
Qed.

Lemma find_first_of_name (World : UWorld) (FindName : string) :
  first_of_name GetShortName RemoveFromStart FString_eq World FindName
                (find World FindName).
Proof.
  unfold first_of_name, findStreamingLevelByName.
  pose proof (find_from_first (GetStreamingLevels World) FindName 0) as H.
  destruct (find_from _ _ _ _ 0%nat FindName) as [p|]; [|exact H].
  destruct H as (l & _ & Hl & Hmatch & Hbefore). rewrite Nat.sub_0_r in Hl, Hbefore.
  exists l. auto.
Qed.

(** The level found for a name has this name in every world that holds
    the same level objects. *)
Lemma found_level_keeps_name (World World' : UWorld) (FindName : string) (p : nat)
    (l' : ULevelStreaming) :
  find World FindName = Some p ->
  same_level_objects World World' ->
  GetStreamingLevels World' !! p = Some l' ->
  FString_eq FindName (level_name l') = true.
Proof.
  intros Hfind Hsame Hl'.
  pose proof (find_first_of_name World FindName) as Hfirst. rewrite Hfind in Hfirst.
  destruct Hfirst as (l & Hl & Hmatch & _).
  destruct (same_level_objects_lookup World World' p l l' Hsame Hl Hl')
    as [Hpackage Hworld].
  unfold LevelName in *. rewrite Hpackage, Hworld. exact Hmatch.
Qed.

(** A call for a binding that is marked loaded and has a level. *)
Lemma ApplyScene_loaded_level (World' : UWorld) (i : nat) (m_specs : list SchemaSpec)
    (spec : SchemaSpec) (p : nat) (l' : ULevelStreaming) :
  m_specs !! i = Some spec ->
  loaded spec = true ->
  streamingLevel spec = Some p ->
  GetStreamingLevels World' !! p = Some l' ->
  exists levels,
    apply_scene World' i m_specs
    = Done (m_specs, mkWorld (PersistentLevelScriptActor World') levels,
            if IsLevelLoaded l'
            then [ApplyParameters i [persistentRoot spec; GetLevelScriptActor l']]
            else [])
    /\ length levels = length (GetStreamingLevels World')
    /\ forall k, levels !! k
                 = (fun l => if decide (k = p)
                             then (if IsLevelLoaded l
                                   then SetShouldBeVisible true l else l)
                             else SetShouldBeVisible false l)
                   <$> GetStreamingLevels World' !! k.
Proof.
  intros Hspec Hloaded Hp Hl'.
  unfold ApplyScene. rewrite Hspec, Hloaded. cbn [negb]. unfold activate. rewrite Hp.
  rewrite bool_decide_eq_false_2 by discriminate. cbn [andb].
  pose proof (activate_from_levels spec i p Hp (GetStreamingLevels World') 0) as Hlevels.
  pose proof (activate_from_length spec i (GetStreamingLevels World') 0) as Hlength.
  pose proof (activate_from_events spec i p Hp (GetStreamingLevels World') 0 ltac:(lia))
    as Hevents.
  rewrite Nat.sub_0_r, Hl' in Hevents.
  destruct (activate_from spec i 0 (GetStreamingLevels World')) as [levels log2].
  cbn [fst snd] in *. subst log2. exists levels.
  split; [reflexivity|]. split; [exact Hlength|].
  intros k. rewrite Hlevels. reflexivity.
Qed.

(** X12.  A scene of the schema whose streaming level was loaded when the
    schema was loaded has been validated then.  Applied later, in a world
    that holds the same level objects in their places, so that the
    binding still points to the level of the scene's name, it validates
    nothing and requests no load: it hides every other level and, if the
    level is loaded, shows it and applies the parameters of the
    persistent root the schema was loaded with and of the level; if the
    level is no longer loaded, the level is left as it is and no
    parameters are applied. *)
Theorem level_scene_after_OnLoadedSchema (World : UWorld) (Schema : list SceneDecl)
    (m_specs : list SchemaSpec) :
  exists specs log,
    on_loaded_schema World Schema m_specs = Done (true, specs, log)
    /\ forall i parameters p (World2 : UWorld) (l2 : ULevelStreaming),
         Schema !! i = Some parameters ->
         find World (name parameters) = Some p ->
         level_ready World (Some p) = true ->
         same_level_objects World World2 ->
         GetStreamingLevels World2 !! p = Some l2 ->
         LogValidating i ∈ log
         /\ FString_eq (name parameters) (level_name l2) = true
         /\ exists levels,
              apply_scene World2 i specs
              = Done (specs, mkWorld (PersistentLevelScriptActor World2) levels,
                      if IsLevelLoaded l2
                      then [ApplyParameters i [PersistentLevelScriptActor World;
                                               GetLevelScriptActor l2]]
                      else [])
              /\ length levels = length (GetStreamingLevels World2)
              /\ forall k, levels !! k
                           = (fun l => if decide (k = p)
                                       then (if IsLevelLoaded l
                                             then SetShouldBeVisible true l else l)
                                       else SetShouldBeVisible false l)
                             <$> GetStreamingLevels World2 !! k.
Proof.
  destruct (OnLoadedSchema_spec GetShortName RemoveFromStart FString_eq ValidateParameters
              SchemaSpec_default World Schema m_specs)
    as (specs & log & Hrun & Hlen & Hin & Hlog).
  exists specs, log. split; [exact Hrun|].
  intros i parameters p World2 l2 Hi Hfind Hready Hsame Hl2.
  destruct (Hin i parameters Hi) as (old & Hold & Hnew).
  split.
  { apply Hlog. exists i, parameters, old. split; [exact Hi|]. split; [exact Hold|].
    apply events_of_validating. rewrite Hfind. exact Hready. }
  split.
  { exact (found_level_keeps_name World World2 (name parameters) p l2 Hfind Hsame Hl2). }
  apply (ApplyScene_loaded_level World2 i specs (bound World old parameters) p l2 Hnew).
  - unfold bound_spec. cbn [loaded]. rewrite Hfind, Hready. reflexivity.
  - exact Hfind.
  - exact Hl2.
Qed.

(** X26.  A scene whose streaming level is not loaded when the schema is loaded
    keeps the [loaded] flag of the binding that stood at its index
    before.  If that flag was clear, [ApplyScene] requests the load and
    changes nothing else.  If it was set, by an earlier schema or an
    earlier load of the level, [ApplyScene] never requests the load: it
    hides every other level, leaves the level of the scene as it is and
    applies no parameters. *)
Theorem unloaded_scene_after_OnLoadedSchema (World : UWorld) (Schema : list SceneDecl)
    (m_specs : list SchemaSpec) :
  exists specs log,
    on_loaded_schema World Schema m_specs = Done (true, specs, log)
    /\ forall i parameters p (l : ULevelStreaming) (old : SchemaSpec),
         Schema !! i = Some parameters ->
         find World (name parameters) = Some p ->
         GetStreamingLevels World !! p = Some l ->
         IsLevelLoaded l = false ->
         resize (length Schema) SchemaSpec_default m_specs !! i = Some old ->
         if loaded old
         then exists levels,
                apply_scene World i specs
                = Done (specs, mkWorld (PersistentLevelScriptActor World) levels, [])
                /\ length levels = length (GetStreamingLevels World)
                /\ forall k, levels !! k
                             = (fun l' => if decide (k = p) then l'
                                          else SetShouldBeVisible false l')
                               <$> GetStreamingLevels World !! k
         else apply_scene World i specs
              = Done (specs, World,
                      [LogLoadingLevel (GetWorldAssetPackageName l);
                       LoadStreamLevel (GetWorldAssetPackageName l)]).
Proof.
  destruct (OnLoadedSchema_spec GetShortName RemoveFromStart FString_eq ValidateParameters
              SchemaSpec_default World Schema m_specs)
    as (specs & log & Hrun & Hlen & Hin & _).
  exists specs, log. split; [exact Hrun|].
  intros i parameters p l old Hi Hfind Hl Hunloaded Hold.
  destruct (Hin i parameters Hi) as (old' & Hold' & Hnew).
  assert (old' = old) by congruence. subst old'.
  set (spec := bound World old parameters) in *.
  assert (Hp : streamingLevel spec = Some p) by exact Hfind.
  assert (Hflag : loaded spec = loaded old).
  { subst spec. unfold bound_spec. cbn [loaded]. rewrite Hfind.
    unfold level_ready. rewrite Hl, Hunloaded. reflexivity. }
  unfold ApplyScene. rewrite Hnew, Hflag.
  destruct (loaded old); cbn [negb].
  - unfold activate. rewrite Hp.
    rewrite bool_decide_eq_false_2 by discriminate. cbn [andb].
    pose proof (activate_from_levels spec i p Hp (GetStreamingLevels World) 0) as Hlevels.
    pose proof (activate_from_length spec i (GetStreamingLevels World) 0) as Hlength.
    pose proof (activate_from_events spec i p Hp (GetStreamingLevels World) 0 ltac:(lia))
      as Hevents.
    rewrite Nat.sub_0_r, Hl, Hunloaded in Hevents.
    destruct (activate_from spec i 0 (GetStreamingLevels World)) as [levels log2].
    cbn [fst snd] in *. subst log2. exists levels.
    split; [reflexivity|]. split; [exact Hlength|].
    intros k. rewrite Hlevels. cbn [Nat.add].
    destruct (GetStreamingLevels World !! k) as [lk|] eqn:Hk; [|reflexivity].
    cbn [fmap option_fmap option_map]. f_equal.
    destruct (decide (k = p)) as [->|Hne]; [|reflexivity].
    assert (lk = l) by congruence. subst lk. rewrite Hunloaded. reflexivity.
  - rewrite Hp. unfold deref. rewrite Hl. cbn [mbind Outcome_bind].
    rewrite Hunloaded. reflexivity.
Qed.

(** X28.  [OnLoadedSchema] returns [true] for every
    schema and goes through every scene, binding it to the first
    streaming level of its name, or to none when no level has the name.
    A scene without a level, or whose level is loaded, is marked loaded
    and validated in the call, a failed validation being logged and
    nothing more.  A scene whose level is not loaded is not validated in
    the call, the skip is logged, and its [loaded] flag is the one the
    binding at its index had before: [resize] keeps the old bindings and
    the loop does not clear the flag.  Validation is deferred only if
    that flag is clear: the first [ApplyScene] made once the level is
    loaded then marks the binding loaded and validates it.  If the flag
    is set, that [ApplyScene] shows the level and applies the parameters
    without any validation, and the bindings stay as they are. *)
Theorem OnLoadedSchema_every_scene (World : UWorld) (Schema : list SceneDecl)
    (m_specs : list SchemaSpec) :
  exists specs log,
    on_loaded_schema World Schema m_specs = Done (true, specs, log)
    /\ length specs = length Schema
    /\ forall i parameters, Schema !! i = Some parameters ->
       exists spec old,
         resize (length Schema) SchemaSpec_default m_specs !! i = Some old
         /\ specs !! i = Some spec
         /\ first_of_name GetShortName RemoveFromStart FString_eq World
                          (name parameters) (streamingLevel spec)
         /\ persistentRoot spec = PersistentLevelScriptActor World
         /\ hash spec = decl_hash parameters
         /\ nParameters spec = decl_nParameters parameters
         /\ if level_ready World (streamingLevel spec)
            then loaded spec = true
                 /\ LogValidating i ∈ log
                 /\ (LogValidationFailed i ∈ log <->
                     ValidateParameters World i
                       [persistentRoot spec; level_root World (streamingLevel spec)]
                     = false)
            else loaded spec = loaded old
                 /\ (LogValidating i ∉ log)
                 /\ (LogValidationFailed i ∉ log)
                 /\ LogSkipValidation (name parameters) ∈ log
                 /\ forall (p : nat) (World' : UWorld) (l' : ULevelStreaming),
                      streamingLevel spec = Some p ->
                      same_level_objects World World' ->
                      GetStreamingLevels World' !! p = Some l' ->
                      IsLevelLoaded l' = true ->
                      FString_eq (name parameters) (level_name l') = true
                      /\ exists levels,
                           apply_scene World' i specs
                           = Done (if loaded old then specs
                                   else <[i := set_loaded spec]> specs,
                                   mkWorld (PersistentLevelScriptActor World') levels,
                                   (if loaded old then []
                                    else validation_events ValidateParameters World' i
                                           (set_loaded spec))
                                   ++ [ApplyParameters i
                                         [PersistentLevelScriptActor World;
                                          GetLevelScriptActor l']])
                           /\ (forall k, levels !! k
                                         = SetShouldBeVisible (bool_decide (k = p))
                                           <$> GetStreamingLevels World' !! k)
                           /\ (LogValidating i
                                 ∈ (if loaded old then []
                                    else validation_events ValidateParameters World' i
                                           (set_loaded spec))
                               <-> loaded old = false).
Proof.
  destruct (OnLoadedSchema_spec GetShortName RemoveFromStart FString_eq ValidateParameters
              SchemaSpec_default World Schema m_specs)
    as (specs & log & Hrun & Hlen & Hin & Hlog).
  exists specs, log. split; [exact Hrun|]. split; [exact Hlen|].
  intros i parameters Hi. destruct (Hin i parameters Hi) as (old & Hold & Hnew).
  exists (bound World old parameters), old.
  split; [exact Hold|]. split; [exact Hnew|].
  cbn [bound_spec streamingLevel persistentRoot hash nParameters loaded].
  split; [apply find_first_of_name|].
  do 3 (split; [reflexivity|]).
  destruct (level_ready World (find World (name parameters))) eqn:Hready.
  - destruct (events_of_validating GetShortName RemoveFromStart FString_eq
                ValidateParameters World i old parameters Hready) as [Hval Hfail].
    split; [reflexivity|]. split.
    + apply Hlog. exists i, parameters, old. auto.
    + split.
      * intros He. apply Hlog in He as (k & p & old' & Hk & _ & He).
        apply events_of_inv in He as [[_ [He|[He Hv]]]|[_ He]]; try discriminate.
        injection He as <-. rewrite Hi in Hk. injection Hk as <-. exact Hv.
      * intros Hv. apply Hlog. exists i, parameters, old. auto.
  - split; [reflexivity|]. split; [|split; [|split]].
    + intros He. apply Hlog in He as (k & p & old' & Hk & _ & He).
      apply events_of_inv in He as [[Hr [He|[He _]]]|[_ He]]; try discriminate.
      injection He as <-. rewrite Hi in Hk. injection Hk as <-. congruence.
    + intros He. apply Hlog in He as (k & p & old' & Hk & _ & He).
      apply events_of_inv in He as [[Hr [He|[He _]]]|[_ He]]; try discriminate.
      injection He as <-. rewrite Hi in Hk. injection Hk as <-. congruence.
    + apply Hlog. exists i, parameters, old. split; [exact Hi|]. split; [exact Hold|].
      unfold scene_events. rewrite Hready. apply list_elem_of_singleton. reflexivity.
    + intros p World' l' Hfind Hsame Hl' Hloaded'.
      split.
      { exact (found_level_keeps_name World World' (name parameters) p l' Hfind Hsame Hl'). }
      set (spec := bound World old parameters) in *.
      assert (Hp : streamingLevel spec = Some p) by exact Hfind.
      assert (Hflag : loaded spec = loaded old).
      { subst spec. unfold bound_spec. cbn [loaded]. rewrite Hready. reflexivity. }
      assert (Hroot : persistentRoot spec = PersistentLevelScriptActor World)
        by reflexivity.
      destruct (loaded old) eqn:Hold_flag.
      * destruct (ApplyScene_loaded_level World' i specs spec p l' Hnew Hflag Hp Hl')
          as (levels & Hcall & _ & Hlevels).
        rewrite Hloaded', Hroot in Hcall.
        exists levels. split; [exact Hcall|]. split.
        -- intros k. rewrite Hlevels.
           destruct (GetStreamingLevels World' !! k) as [lk|] eqn:Hk; [|reflexivity].
           cbn [fmap option_fmap option_map]. f_equal.
           destruct (decide (k = p)) as [->|Hne].
           ++ rewrite bool_decide_eq_true_2 by reflexivity.
              assert (lk = l') by congruence. subst lk. rewrite Hloaded'. reflexivity.
           ++ rewrite bool_decide_eq_false_2 by exact Hne. reflexivity.
        -- split; [intros He; inversion He | discriminate].
      * destruct (ApplyScene_first_activation ValidateParameters World' i specs spec p l'
                    Hnew Hflag Hp Hl' Hloaded')
          as (levels & Hcall & _ & Hlevels).
        rewrite Hroot in Hcall.
        exists levels. split; [exact Hcall|]. split; [exact Hlevels|].
        split; [reflexivity|]. intros _.
        unfold validation_events.
        destruct (ValidateParameters World' i _); apply elem_of_cons; auto.
Qed.

End SelectorFurther.

(** ** ScopedSchema: moves and schemas side by side *)

Section OwnershipFurther.
Import RenderStreamLink.

Lemma elem_of_nonnull (p : ptr) : p <> 0 -> p ∈ nonnull p.
Proof.
  intros Hp. unfold nonnull. destruct (Z.eqb_spec p 0); [contradiction|].
  apply list_elem_of_singleton. reflexivity.
Qed.

(** What [reset] reads first of a schema that reaches some allocation. *)
Lemma reset_dangling (h h' : heap) (s : ScopedSchema) (allocations : list ptr) :
  footprint h s = Some allocations ->
  allocations <> [] ->
  (forall p, p ∈ allocations -> live h' !! p = None) ->
  reset s h' = None.
Proof.
  unfold footprint, reset. intros Hfoot Hne Hdead.
  destruct (strings_footprint h (channels (schema_channels (schema s))) 0
              (Z.to_nat (nChannels (schema_channels (schema s))))) as [cs|] eqn:Hcs;
    cbn [mbind option_bind] in Hfoot; [|discriminate].
  destruct (scenes_footprint h (scenes (schema_scenes (schema s))) 0
              (Z.to_nat (nScenes (schema_scenes (schema s))))) as [ss|] eqn:Hss;
    cbn [mbind option_bind] in Hfoot; [|discriminate].
  injection Hfoot as <-.
  assert (Hch : channels (schema_channels (schema s)) <> 0 ->
                live h' !! channels (schema_channels (schema s)) = None).
  { intros Hp. apply Hdead. apply elem_of_app. right. apply elem_of_app. left.
    apply elem_of_nonnull. exact Hp. }
  assert (Hsc : scenes (schema_scenes (schema s)) <> 0 ->
                live h' !! scenes (schema_scenes (schema s)) = None).
  { intros Hp. apply Hdead. do 3 (apply elem_of_app; right).
    apply elem_of_nonnull. exact Hp. }
  destruct (Z.to_nat (nChannels (schema_channels (schema s)))) as [|n].
  - cbn [free_strings mbind option_bind]. unfold free.
    destruct (Z.eqb_spec (channels (schema_channels (schema s))) 0) as [Hc0|Hc0].
    + cbn [mbind option_bind].
      destruct (Z.to_nat (nScenes (schema_scenes (schema s)))) as [|m].
      * cbn [free_scenes mbind option_bind].
        destruct (Z.eqb_spec (scenes (schema_scenes (schema s))) 0) as [Hs0|Hs0].
        -- exfalso. apply Hne. cbn in Hcs, Hss. injection Hcs as <-. injection Hss as <-.
           unfold nonnull. rewrite Hc0, Hs0. reflexivity.
        -- rewrite (Hsc Hs0). reflexivity.
      * cbn [free_scenes scenes_footprint] in *. unfold load_scene in *.
        destruct (Z.eqb_spec (scenes (schema_scenes (schema s))) 0) as [Hs0|Hs0];
          [discriminate|].
        rewrite (Hsc Hs0). reflexivity.
    + rewrite (Hch Hc0). reflexivity.
  - cbn [free_strings strings_footprint] in *. unfold load_string_ptr in *.
    destruct (Z.eqb_spec (channels (schema_channels (schema s))) 0) as [Hc0|Hc0];
      [discriminate|].
    rewrite (Hch Hc0). reflexivity.
Qed.

(** X13.  The move constructor copies the pointers and then resets the source.
    Whenever the source owns at least one allocation, every allocation the
    new object points to has been freed, and destroying the new object is
    undefined: it reads a freed array or frees one a second time. *)
Theorem move_construct_dangles (h : heap) (other : ScopedSchema) (allocations : list ptr) :
  owns h other allocations ->
  allocations <> [] ->
  exists h',
    move_construct other h = Some (other, clear, h')
    /\ freed h' = rev allocations ++ freed h
    /\ (forall p, p ∈ allocations -> live h' !! p = None)
    /\ destroy other h' = None
    /\ destroy clear h' = Some h'.
Proof.
  intros Howns Hne.
  destruct (reset_owned h other allocations Howns) as (h' & Hreset & Hlive & Hfreed).
  assert (Hdead : forall p, p ∈ allocations -> live h' !! p = None).
  { intros p Hp. rewrite Hlive. apply lookup_without_freed. exact Hp. }
  exists h'. unfold move_construct. rewrite Hreset. cbn [mbind option_bind fst snd].
  split; [destruct other; reflexivity|]. split; [exact Hfreed|]. split; [exact Hdead|].
  split; [|reflexivity].
  unfold destroy. destruct Howns as (Hfoot & _).
  rewrite (reset_dangling h h' other allocations Hfoot Hne Hdead). reflexivity.
Qed.

(** X14.  Move assignment neither frees nor keeps what the destination owned:
    afterwards the destination holds the pointers of the source, which
    have all been freed, the source is empty, and the former allocations
    of the destination are all still allocated with no object left that
    points to them. *)
Theorem move_assign_leaks (h : heap) (this other : ScopedSchema)
    (mine theirs : list ptr) :
  owns h this mine ->
  owns h other theirs ->
  (forall p, p ∈ mine -> p ∉ theirs) ->
  exists h',
    move_assign this other h = Some (other, clear, h')
    /\ freed h' = rev theirs ++ freed h
    /\ (forall p, p ∈ theirs -> live h' !! p = None)
    /\ (forall p, p ∈ mine -> live h' !! p = live h !! p /\ is_Some (live h' !! p)).
Proof.
  intros Hmine Htheirs Hdisjoint.
  destruct (reset_owned h other theirs Htheirs) as (h' & Hreset & Hlive & Hfreed).
  exists h'. unfold move_assign. rewrite Hreset. cbn [mbind option_bind fst snd].
  split; [destruct other; reflexivity|]. split; [exact Hfreed|]. split.
  - intros p Hp. rewrite Hlive. apply lookup_without_freed. exact Hp.
  - intros p Hp.
    assert (Hsame : live h' !! p = live h !! p)
      by (rewrite Hlive; apply lookup_without; auto).
    split; [exact Hsame|]. rewrite Hsame.
    destruct Hmine as (_ & _ & Hthere). rewrite Forall_forall in Hthere. auto.
Qed.

(** X27.  Move assignment of an object to itself is defined: it frees every
    allocation of the object, each once, and leaves the object empty, so
    that its contents are lost but its destructor then frees nothing. *)
Theorem move_assign_self_empties (h : heap) (this : ScopedSchema)
    (allocations : list ptr) :
  owns h this allocations ->
  exists h',
    move_assign_self this h = Some (clear, h')
    /\ freed h' = rev allocations ++ freed h
    /\ (forall p, p ∈ allocations -> live h' !! p = None)
    /\ (forall p, p ∉ allocations -> live h' !! p = live h !! p)
    /\ destroy clear h' = Some h'.
Proof.
  intros Howns.
  destruct (reset_owned h this allocations Howns) as (h' & Hreset & Hlive & Hfreed).
  exists h'. unfold move_assign_self. destruct this as [s]. cbn [schema].
  split; [exact Hreset|]. split; [exact Hfreed|]. split; [|split; [|reflexivity]].
  - intros p Hp. rewrite Hlive. apply lookup_without_freed. exact Hp.
  - intros p Hp. rewrite Hlive. apply lookup_without. exact Hp.
Qed.

(** *** Schemas that share nothing *)

Section Agree.
Variables h h1 : heap.

Local Abbreviation agree := (fun p : ptr => live h1 !! p = live h !! p).

Lemma strings_footprint_agree (arr : ptr) :
  (arr <> 0 -> agree arr) ->
  forall (n i : nat), strings_footprint h1 arr i n = strings_footprint h arr i n.
Proof.
  intros Harr. induction n as [|n IH]; intros i; [reflexivity|].
  cbn [strings_footprint]. unfold load_string_ptr.
  destruct (Z.eqb_spec arr 0) as [|Hne]; [reflexivity|].
  rewrite (Harr Hne), IH. reflexivity.
Qed.

Lemma parameter_footprint_agree (parameter : RemoteParameter) (l : list ptr) :
  parameter_footprint h parameter = Some l ->
  (forall p, p ∈ l -> agree p) ->
  parameter_footprint h1 parameter = Some l.
Proof.
  unfold parameter_footprint. intros Hfoot Hagree.
  rewrite strings_footprint_agree; [exact Hfoot|].
  intros Hne. apply Hagree.
  destruct (strings_footprint h _ 0 _) as [opts|]; cbn [mbind option_bind] in Hfoot;
    [|discriminate].
  injection Hfoot as <-. do 4 (apply elem_of_app; right).
  apply elem_of_nonnull. exact Hne.
Qed.

Lemma parameters_footprint_agree (arr : ptr) :
  (arr <> 0 -> agree arr) ->
  forall (n j : nat) (l : list ptr),
  parameters_footprint h arr j n = Some l ->
  (forall p, p ∈ l -> agree p) ->
  parameters_footprint h1 arr j n = Some l.
Proof.
  intros Harr. induction n as [|n IH]; intros j l; [auto|].
  cbn [parameters_footprint]. unfold load_parameter.
  destruct (Z.eqb_spec arr 0) as [|Hne]; [discriminate|].
  rewrite (Harr Hne).
  destruct (match live h !! arr with Some (ParameterArray a) => a !! j | _ => None end)
    as [parameter|]; cbn [mbind option_bind]; [|discriminate].
  destruct (parameter_footprint h parameter) as [here|] eqn:Hhere;
    cbn [mbind option_bind]; [|discriminate].
  destruct (parameters_footprint h arr (S j) n) as [rest|] eqn:Hrest;
    cbn [mbind option_bind]; [|discriminate].
  intros [= <-] Hagree.
  rewrite (parameter_footprint_agree parameter here Hhere)
    by (intros p Hp; apply Hagree, elem_of_app; auto).
  rewrite (IH (S j) rest Hrest) by (intros p Hp; apply Hagree, elem_of_app; auto).
  reflexivity.
Qed.

Lemma scene_footprint_agree (scene : RemoteParameters) (l : list ptr) :
  scene_footprint h scene = Some l ->
  (forall p, p ∈ l -> agree p) ->
  scene_footprint h1 scene = Some l.
Proof.
  unfold scene_footprint. intros Hfoot Hagree.
  destruct (parameters_footprint h _ 0 _) as [ps|] eqn:Hps; cbn [mbind option_bind] in Hfoot;
    [|discriminate].
  injection Hfoot as <-.
  rewrite (parameters_footprint_agree _ ltac:(
    intros Hne; apply Hagree; do 2 (apply elem_of_app; right);
    apply elem_of_nonnull; exact Hne) _ _ _ Hps).
  - reflexivity.
  - intros p Hp. apply Hagree. apply elem_of_app. right. apply elem_of_app. auto.
Qed.

Lemma scenes_footprint_agree (arr : ptr) :
  (arr <> 0 -> agree arr) ->
  forall (n i : nat) (l : list ptr),
  scenes_footprint h arr i n = Some l ->
  (forall p, p ∈ l -> agree p) ->
  scenes_footprint h1 arr i n = Some l.
Proof.
  intros Harr. induction n as [|n IH]; intros i l; [auto|].
  cbn [scenes_footprint]. unfold load_scene.
  destruct (Z.eqb_spec arr 0) as [|Hne]; [discriminate|].
  rewrite (Harr Hne).
  destruct (match live h !! arr with Some (SceneArray a) => a !! i | _ => None end)
    as [scene|]; cbn [mbind option_bind]; [|discriminate].
  destruct (scene_footprint h scene) as [here|] eqn:Hhere;
    cbn [mbind option_bind]; [|discriminate].
  destruct (scenes_footprint h arr (S i) n) as [rest|] eqn:Hrest;
    cbn [mbind option_bind]; [|discriminate].
  intros [= <-] Hagree.
  rewrite (scene_footprint_agree scene here Hhere)
    by (intros p Hp; apply Hagree, elem_of_app; auto).
  rewrite (IH (S i) rest Hrest) by (intros p Hp; apply Hagree, elem_of_app; auto).
  reflexivity.
Qed.

Lemma footprint_agree (s : ScopedSchema) (l : list ptr) :
  footprint h s = Some l ->
  (forall p, p ∈ l -> agree p) ->
  footprint h1 s = Some l.
Proof.
  unfold footprint. intros Hfoot Hagree.
  destruct (strings_footprint h _ 0 _) as [cs|] eqn:Hcs; cbn [mbind option_bind] in Hfoot;
    [|discriminate].
  destruct (scenes_footprint h _ 0 _) as [ss|] eqn:Hss; cbn [mbind option_bind] in Hfoot;
    [|discriminate].
  injection Hfoot as <-.
  rewrite strings_footprint_agree, Hcs.
  2:{ intros Hne. apply Hagree. apply elem_of_app. right. apply elem_of_app. left.
      apply elem_of_nonnull. exact Hne. }
  cbn [mbind option_bind].
  rewrite (scenes_footprint_agree _ ltac:(
    intros Hne; apply Hagree; do 3 (apply elem_of_app; right);
    apply elem_of_nonnull; exact Hne) _ _ _ Hss).
  - reflexivity.
  - intros p Hp. apply Hagree. do 2 (apply elem_of_app; right). apply elem_of_app. auto.
Qed.

End Agree.

(** X15.  Resetting a schema touches nothing of a schema that shares no
    allocation with it: the other one owns the same allocations
    afterwards, so the two can be destroyed one after the other, in
    either order, and together free every allocation of both once. *)
Theorem reset_leaves_others (h : heap) (s t : ScopedSchema) (mine theirs : list ptr) :
  owns h s mine ->
  owns h t theirs ->
  (forall p, p ∈ mine -> p ∉ theirs) ->
  exists h1 h2,
    reset s h = Some (clear, h1)
    /\ owns h1 t theirs
    /\ destroy t h1 = Some h2
    /\ freed h2 = rev theirs ++ rev mine ++ freed h
    /\ live h2 = without (without (live h) mine) theirs.
Proof.
  intros Hmine Htheirs Hdisjoint.
  destruct (reset_owned h s mine Hmine) as (h1 & Hreset & Hlive & Hfreed).
  assert (Hagree : forall p, p ∈ theirs -> live h1 !! p = live h !! p).
  { intros p Hp. rewrite Hlive. apply lookup_without. intros Hin.
    exact (Hdisjoint p Hin Hp). }
  assert (Howns : owns h1 t theirs).
  { destruct Htheirs as (Hfoot & Hnodup & Hthere). split; [|split].
    - apply (footprint_agree h h1 t theirs Hfoot Hagree).
    - exact Hnodup.
    - rewrite Forall_forall in *. intros p Hp. rewrite (Hagree p Hp). auto. }
  destruct (reset_owned h1 t theirs Howns) as (h2 & Hreset2 & Hlive2 & Hfreed2).
  exists h1, h2. split; [exact Hreset|]. split; [exact Howns|].
  split; [unfold destroy; rewrite Hreset2; reflexivity|].
  split; [rewrite Hfreed2, Hfreed; reflexivity|].
  rewrite Hlive2, Hlive. reflexivity.
Qed.

End OwnershipFurther.

(** ** The editor module: exposed parameters *)

Section ExposedParameters.
Import RenderStreamEditor.

Variable Atof : string -> float.
Variable TCHAR_TO_UTF8 : string -> string.
Variable GetShortName : string -> string.

Local Abbreviation generate := (GenerateParameters Atof).
Local Abbreviation step_of := (GenerateParameters_step Atof).

Lemma GenerateParameters_step_app (Parameters : list FRenderStreamExposedParameterEntry)
    (Property : FProperty) :
  step_of Parameters Property = Parameters ++ step_of [] Property.
Proof.
  unfold GenerateParameters_step.
  destruct (negb _ || _); [rewrite app_nil_r; reflexivity|].
  destruct (property_value Property); try destruct (limits Atof Property _ _);
    rewrite ?app_nil_r; reflexivity.
Qed.

Lemma GenerateParameters_step_length (Property : FProperty) :
  length (step_of [] Property) = fields_of Property.
Proof.
  unfold GenerateParameters_step, fields_of, exposed.
  destruct (CPF_Edit Property), (CPF_BlueprintVisible Property),
    (CPF_DisableEditOnInstance Property); cbn [negb andb orb]; try reflexivity.
  destruct (property_value Property); try destruct (limits Atof Property _ _); reflexivity.
Qed.

Lemma fold_GenerateParameters_step (properties : list FProperty) :
  forall Parameters,
  fold_left step_of properties Parameters
  = Parameters ++ fold_left step_of properties [].
Proof.
  induction properties as [|Property rest IH]; intros Parameters; cbn [fold_left].
  - rewrite app_nil_r. reflexivity.
  - rewrite (IH (step_of Parameters Property)), (IH (step_of [] Property)).
    rewrite GenerateParameters_step_app, app_assoc. reflexivity.
Qed.

Lemma generated_length (Root : option AActor) :
  length (generate [] Root) = fields_of_actor Root.
Proof.
  destruct Root as [properties|]; cbn [GenerateParameters fields_of_actor];
    [|reflexivity].
  induction properties as [|Property rest IH]; [reflexivity|].
  cbn [fold_left sum_list_with]. rewrite fold_GenerateParameters_step, length_app, IH.
  rewrite GenerateParameters_step_length. reflexivity.
Qed.

(** X16.  [GenerateParameters] only appends: the entries that were there stay,
    in their places, and what is added does not depend on them.  An
    exposed bool, byte, int or float property adds one entry, a vector
    three, a colour four, any other property none; a null root adds
    nothing. *)
Theorem GenerateParameters_appends
    (Parameters : list FRenderStreamExposedParameterEntry) (Root : option AActor) :
  generate Parameters Root = Parameters ++ generate [] Root
  /\ length (generate [] Root) = fields_of_actor Root
  /\ generate Parameters None = Parameters.
Proof.
  split; [|split; [apply generated_length | reflexivity]].
  destruct Root as [properties|]; cbn [GenerateParameters].
  - apply fold_GenerateParameters_step.
  - rewrite app_nil_r. reflexivity.
Qed.

Lemma CreateField_created (group displayName_ suffix key_ undecoratedSuffix : string)
    (min max step defaultValue : float) (options : list string) :
  created (CreateField group displayName_ suffix key_ undecoratedSuffix
                       min max step defaultValue options).
Proof.
  unfold created, CreateField.
  destruct options as [|o options].
  - cbn. split; [reflexivity|]. split; [reflexivity|]. intros Hne. contradiction.
  - replace (0 <? Num (o :: options)) with true
      by (symmetry; apply Z.ltb_lt; unfold Num; cbn [length]; lia).
    cbn [DmxOffset DmxType Options Min Max Step].
    split; [reflexivity|]. split; [reflexivity|]. intros _. repeat split; reflexivity.
Qed.

Lemma GenerateParameters_step_created (Property : FProperty) :
  Forall created (step_of [] Property).
Proof.
  unfold GenerateParameters_step.
  destruct (negb _ || _); [constructor|].
  destruct (property_value Property); try destruct (limits Atof Property _ _);
    cbn [app];
    repeat (constructor; [apply CreateField_created|]); constructor.
Qed.

Lemma generated_created (Root : option AActor) :
  Forall created (generate [] Root).
Proof.
  destruct Root as [properties|]; cbn [GenerateParameters]; [|constructor].
  induction properties as [|Property rest IH]; [constructor|].
  cbn [fold_left]. rewrite fold_GenerateParameters_step. apply Forall_app. split.
  - apply GenerateParameters_step_created.
  - exact IH.
Qed.

(** X17.  Every entry [GenerateParameters] makes has the automatic DMX offset
    -1 and the DMX type 2; an entry with options (a bool, an enum) ranges
    over the indices of its options in steps of 1, whatever [ClampMin] and
    [ClampMax] say. *)
Theorem GenerateParameters_created (Root : option AActor) :
  Forall created (generate [] Root)
  /\ (forall (Property : FProperty) (numeric : FNumericProperty) (v : Z),
        exposed Property = true ->
        (property_value Property = ByteProperty v numeric
         \/ property_value Property = IntProperty v numeric) ->
        (EnumOptions numeric <> []) ->
        exists entry,
          step_of [] Property = [entry]
          /\ Options entry = EnumOptions numeric
          /\ Min entry = f32_zero
          /\ Max entry = float_of_int (Num (EnumOptions numeric) - 1)).
Proof.
  split; [apply generated_created|].
  intros Property numeric v Hexposed Hvalue Hoptions.
  unfold exposed in Hexposed.
  apply andb_true_iff in Hexposed as [Hflags Hinstance].
  unfold GenerateParameters_step. rewrite Hflags. cbn [negb orb].
  apply negb_true_iff in Hinstance. rewrite Hinstance.
  assert (Hpositive : (0 <? Num (EnumOptions numeric)) = true).
  { apply Z.ltb_lt. unfold Num. destruct (EnumOptions numeric); [contradiction|].
    cbn [length]. lia. }
  destruct Hvalue as [-> | ->]; destruct (limits Atof Property _ _) as [least most];
    cbn [app]; eexists; (split; [reflexivity|]); unfold CreateField;
    rewrite Hpositive; cbn [Options Min Max]; auto.
Qed.

Lemma byte_over_255 (c : Z) :
  0 <= c <= 255 ->
  fleb (float_of_int 0) (fdiv (float_of_int c) (float_of_int 255)) = true
  /\ fleb (fdiv (float_of_int c) (float_of_int 255)) (float_of_int 1) = true.
Proof.
  intros Hc.
  destruct (unit_interval c c 255 ltac:(lia) ltac:(lia) ltac:(lia)) as (H0 & _ & H1).
  split; [exact H0 | exact H1].
Qed.

Lemma default_in_range_plain (group displayName_ suffix key_ undecoratedSuffix : string)
    (min max step defaultValue : float) :
  default_in_range (CreateField group displayName_ suffix key_ undecoratedSuffix
                                min max step defaultValue [])
  = fleb min defaultValue && fleb defaultValue max.
Proof. reflexivity. Qed.

(** X18.  The four entries made of an [FColor] property have defaults within
    their range from 0 to 1: each channel, a byte, is divided by 255. *)
Theorem colour_defaults_in_range (Property : FProperty) (r g b a : Z) :
  property_value Property = ColorProperty r g b a ->
  0 <= r <= 255 -> 0 <= g <= 255 -> 0 <= b <= 255 -> 0 <= a <= 255 ->
  Forall (fun entry => default_in_range entry = true) (step_of [] Property)
  /\ (exposed Property = true -> length (step_of [] Property) = 4%nat).
Proof.
  intros Hvalue Hr Hg Hb Ha. split.
  - unfold GenerateParameters_step. rewrite Hvalue.
    destruct (negb _ || _); [constructor|].
    cbn [app].
    destruct (byte_over_255 r Hr) as [Hr0 Hr1], (byte_over_255 g Hg) as [Hg0 Hg1],
      (byte_over_255 b Hb) as [Hb0 Hb1], (byte_over_255 a Ha) as [Ha0 Ha1].
    repeat (constructor; [rewrite default_in_range_plain|]); [| | | |constructor].
    + rewrite Hr0, Hr1. reflexivity.
    + rewrite Hg0, Hg1. reflexivity.
    + rewrite Hb0, Hb1. reflexivity.
    + rewrite Ha0, Ha1. reflexivity.
  - intros Hexposed. rewrite GenerateParameters_step_length.
    unfold fields_of. rewrite Hexposed, Hvalue. reflexivity.
Qed.

Local Abbreviation convert_fields := (ConvertFields TCHAR_TO_UTF8).
Local Abbreviation converted_slot :=
  (fun entry : FRenderStreamExposedParameterEntry => Some (converted TCHAR_TO_UTF8 entry)).

Lemma store_past_end {A} (a : list (option A)) (i : nat) (x : A) :
  (length a <= i)%nat -> store a i x = None.
Proof. intros H. unfold store. rewrite decide_False by lia. reflexivity. Qed.

Lemma store_within {A} (a : list (option A)) (i : nat) (x : A) :
  (i < length a)%nat -> store a i x = Some (<[i := Some x]> a).
Proof. intros H. unfold store. rewrite decide_True by lia. reflexivity. Qed.

(** X19.  [ConvertFields] writes the slots from the iterator on, one for each
    entry, over whatever they held, and no other slot; when the entries
    do not fit in what is left of the array it writes past its end, which
    is undefined. *)
Theorem ConvertFields_bounds (input : list FRenderStreamExposedParameterEntry) :
  forall (out : list (option RemoteParameter)) (pos : nat),
  Forall (fun entry => TArray_ok (Options entry)) input ->
  ((pos + length input <= length out)%nat ->
   convert_fields out pos input
   = Some (take pos out ++ map converted_slot input ++ drop (pos + length input) out))
  /\ (input <> [] -> (length out < pos + length input)%nat ->
      convert_fields out pos input = None).
Proof.
  induction input as [|entry rest IH]; intros out pos Hok.
  - split; [|intros H; contradiction].
    intros _. cbn [ConvertFields map app length]. rewrite Nat.add_0_r, take_drop.
    reflexivity.
  - inversion Hok as [|? ? Hentry Hrest]; subst.
    cbn [ConvertFields length]. rewrite (convert_entry_spec _ _ Hentry).
    cbn [mbind option_bind]. split.
    + intros Hfits. rewrite store_within by lia. cbn [mbind option_bind].
      destruct (IH (<[pos := converted_slot entry]> out) (S pos) Hrest) as [Hin _].
      rewrite Hin by (rewrite length_insert; lia).
      f_equal. cbn [map].
      rewrite drop_insert_lt by lia.
      replace (S pos + length rest)%nat with (pos + S (length rest))%nat by lia.
      rewrite (take_S_r _ pos (converted_slot entry))
        by (apply list_lookup_insert_eq; lia).
      rewrite take_insert_ge by lia. rewrite <- app_assoc. reflexivity.
    + intros _ Hover. destruct (decide (pos < length out)%nat) as [Hlt|Hge].
      * rewrite store_within by lia. cbn [mbind option_bind].
        destruct (IH (<[pos := converted_slot entry]> out) (S pos) Hrest) as [_ Hout].
        apply Hout.
        -- destruct rest; [cbn [length] in Hover; lia | discriminate].
        -- rewrite length_insert. lia.
      * rewrite store_past_end by lia. reflexivity.
Qed.

(** X20.  The scene written for a level whose cache holds the parameters
    generated from its script actor: as many parameters as the exposed
    properties of the actor give fields, every slot of the array written,
    every parameter with the DMX settings of [CreateField] and, where it
    has options, the range of their indices. *)
Theorem scene_of_generated_parameters (LevelPath : string)
    (ChannelNames SubLevelPaths : list string) (Root : option AActor) :
  let ExposedParams := generate [] Root in
  TArray_ok ExposedParams ->
  Forall (fun entry => TArray_ok (Options entry)) ExposedParams ->
  exists parameters,
    GenerateScene TCHAR_TO_UTF8 GetShortName
      (mkCache LevelPath ChannelNames ExposedParams SubLevelPaths) None
    = Some (mkRemoteParameters (TCHAR_TO_UTF8 (GetShortName LevelPath))
              (Z.of_nat (fields_of_actor Root)) (map Some parameters))
    /\ length parameters = fields_of_actor Root
    /\ Forall (fun parameter =>
         dmxOffset parameter = -1 /\ dmxType parameter = 2
         /\ (0 < nOptions parameter ->
             min parameter = f32_zero
             /\ max parameter = float_of_int (nOptions parameter - 1)
             /\ step parameter = f32_one)) parameters.
Proof.
  intros ExposedParams Hsize Hoptions.
  pose proof (generated_length Root) as Hcount.
  fold ExposedParams in Hcount.
  exists (map (converted TCHAR_TO_UTF8) ExposedParams).
  split; [|split].
  - unfold GenerateScene. cbn [Level RenderStreamEditor.ExposedParams mbind option_bind].
    rewrite Z.add_0_l.
    assert (Hn : wrap_uint32 (wrap_int32 (Num ExposedParams)) = Num ExposedParams).
    { rewrite <- (Z.add_0_l (Num ExposedParams)). apply nParams_sum.
      - unfold int32_max. lia.
      - unfold TArray_ok, Num in *. lia. }
    rewrite Hn. unfold malloc, Num. rewrite Nat2Z.id.
    pose proof (ConvertFields_spec TCHAR_TO_UTF8 ExposedParams [] [] Hoptions) as Hconv.
    cbn [app length] in Hconv. rewrite !app_nil_r in Hconv. rewrite Hconv.
    cbn [mbind option_bind]. rewrite Hcount, map_map. reflexivity.
  - rewrite length_map. exact Hcount.
  - pose proof (generated_created Root) as Hcreated. fold ExposedParams in Hcreated.
    rewrite Forall_map. eapply Forall_impl; [exact Hcreated|].
    intros entry (Hoffset & Htype & Hrange). cbn [converted dmxOffset dmxType nOptions
      min max step]. split; [reflexivity|]. split; [reflexivity|].
    intros Hn. apply Hrange. intros Hnil. rewrite Hnil in Hn.
    unfold Num in Hn. simpl in Hn. lia.
Qed.

End ExposedParameters.

(** ** The editor module: when the metadata is generated *)

Section DirtyFlagProperties.
Import RenderStreamEditor.

Variable UWorld_StaticClass : UClass.

Local Abbreviation run := (editor_run UWorld_StaticClass).

Lemma editor_run_changes (changes : list EditorEvent) :
  Forall (fun e => is_frame e = false) changes ->
  forall (rest : list EditorEvent) (dirty : bool),
  run (changes ++ rest) dirty
  = run rest (dirty || existsb (dirties UWorld_StaticClass) changes).
Proof.
  induction 1 as [|e changes He _ IH]; intros rest dirty.
  - cbn. rewrite orb_false_r. reflexivity.
  - destruct e as [bSuccess|classes|available]; [| |discriminate];
      cbn [app editor_run existsb dirties]; rewrite IH; f_equal.
    + unfold OnPostSaveWorld. destruct bSuccess, dirty; reflexivity.
    + unfold OnAssetsDeleted. destruct (bool_decide _), dirty; reflexivity.
Qed.

(** X21.  The saves and deletions between two frames are answered together at
    the next frame: if the flag was set, or a world was saved with
    success, or a world asset was deleted, the metadata is generated
    once, and otherwise not at all.  The frame clears the flag also when
    the link is not available and nothing was generated: such changes
    are not taken up by a later frame. *)
Theorem metadata_once_per_frame (changes rest : list EditorEvent)
    (isAvailable dirty : bool) :
  Forall (fun e => is_frame e = false) changes ->
  run (changes ++ BeginFrame isAvailable :: rest) dirty
  = ((if dirty || existsb (dirties UWorld_StaticClass) changes
      then [if isAvailable then Generated else SkippedUnavailable]
      else []) ++ (run rest false).1,
     (run rest false).2).
Proof.
  intros Hchanges. rewrite (editor_run_changes changes Hchanges).
  cbn [editor_run]. unfold OnBeginFrame.
  destruct (dirty || existsb _ changes); destruct (run rest false); reflexivity.
Qed.

End DirtyFlagProperties.

(** ** The editor module: the set of channel names *)

Section ChannelSet.
Import RenderStreamEditor.

Lemma string_lt_trans (a b c : string) : string_lt a b -> string_lt b c -> string_lt a c.
Proof.
  unfold string_lt. intros Hab Hbc.
  apply (proj2 (OrderedTypeEx.String_as_OT.cmp_lt a c)).
  apply (OrderedTypeEx.String_as_OT.lt_trans a b c);
    apply OrderedTypeEx.String_as_OT.cmp_lt; assumption.
Qed.

Lemma set_emplace_elem (x : string) (s : list string) :
  forall y, y ∈ set_emplace x s <-> y = x \/ y ∈ s.
Proof.
  induction s as [|z rest IH]; intros y; cbn [set_emplace].
  - rewrite list_elem_of_singleton, elem_of_nil. tauto.
  - destruct (String.compare x z) eqn:Hcmp.
    + apply String.compare_eq_iff in Hcmp. subst z.
      rewrite elem_of_cons. tauto.
    + rewrite elem_of_cons. tauto.
    + rewrite !elem_of_cons, IH. tauto.
Qed.

Lemma set_emplace_sorted (x : string) (s : list string) :
  StronglySorted string_lt s -> StronglySorted string_lt (set_emplace x s).
Proof.
  induction 1 as [|z rest Hsorted IH Hall]; cbn [set_emplace].
  - repeat constructor.
  - destruct (String.compare x z) eqn:Hcmp.
    + constructor; assumption.
    + constructor; [constructor; assumption|].
      constructor; [exact Hcmp|].
      eapply Forall_impl; [exact Hall|]. intros y Hy.
      eapply string_lt_trans; [exact Hcmp | exact Hy].
    + constructor; [exact IH|].
      apply Forall_forall. intros y Hy. apply set_emplace_elem in Hy as [->|Hy].
      * unfold string_lt. rewrite String.compare_antisym, Hcmp. reflexivity.
      * rewrite Forall_forall in Hall. apply Hall. exact Hy.
Qed.

End ChannelSet.

(** ** The editor module: from the caches to the schema *)

Section MetadataProperties.
Import RenderStreamEditor.

Variable TCHAR_TO_UTF8 : string -> string.
Variable GetShortName : string -> string.
Variable TCHAR_TO_ANSI : string -> string.
Variable DoesPackageExist : string -> bool.

Local Abbreviation ok := (level_exists DoesPackageExist).
Local Abbreviation collect := (collect_loop TCHAR_TO_ANSI DoesPackageExist).
Local Abbreviation emplace := (emplace_channels TCHAR_TO_ANSI).
Local Abbreviation scene_of := (generated_scene TCHAR_TO_UTF8 GetShortName).
Local Abbreviation channels_of := (collected_channels TCHAR_TO_ANSI DoesPackageExist).
Local Abbreviation params_of := (collected_params DoesPackageExist).

Lemma wrap_size_t_small (i : Z) : 0 <= i < 2 ^ 64 -> wrap_size_t i = i.
Proof. intros H. unfold wrap_size_t. apply Z.mod_small. exact H. Qed.

(** [--i; ++i] on a [size_t] gives [i] back, also at 0. *)
Lemma wrap_size_t_back (i : Z) :
  0 <= i < 2 ^ 64 -> wrap_size_t (wrap_size_t (i - 1) + 1) = i.
Proof.
  intros H. unfold wrap_size_t. rewrite Zplus_mod_idemp_l.
  replace (i - 1 + 1) with i by lia. apply Z.mod_small. exact H.
Qed.

Lemma collect_loop_spec (remaining : list CacheRef) :
  forall (kept deleted : list CacheRef) (channels : list string)
         (params : gmap string CacheRef) (fuel : nat),
  (length remaining < fuel)%nat ->
  Z.of_nat (length kept + length remaining) <= int32_max ->
  collect fuel (Z.of_nat (length kept))
          (mkCollected (kept ++ remaining) deleted channels params)
  = Some (mkCollected (kept ++ List.filter ok remaining)
            (deleted ++ List.filter (fun Cache => negb (ok Cache)) remaining)
            (channels_of remaining channels)
            (params_of remaining params)).
Proof.
  induction remaining as [|Cache rest IH]; intros kept deleted channels params fuel Hfuel Hsize.
  - destruct fuel as [|fuel]; [cbn in Hfuel; lia|].
    cbn [collect_loop ChannelCaches List.filter]. unfold Num.
    rewrite !app_nil_r. rewrite Z.ltb_irrefl. reflexivity.
  - destruct fuel as [|fuel]; [cbn in Hfuel; lia|].
    cbn [length] in Hfuel, Hsize.
    cbn [collect_loop ChannelCaches CachesForDelete ChannelSet LevelParams]. unfold Num.
    replace (Z.of_nat (length kept) <? Z.of_nat (length (kept ++ Cache :: rest))) with true
      by (symmetry; apply Z.ltb_lt; rewrite length_app; cbn [length]; lia).
    rewrite Nat2Z.id, list_lookup_middle by reflexivity.
    cbn [List.filter collected_channels collected_params fold_left].
    unfold int32_max in Hsize.
    change (DoesPackageExist (Level Cache.2)) with (ok Cache).
    destruct (ok Cache) eqn:Hok; cbn [negb].
    + rewrite wrap_size_t_small by lia.
      replace (Z.of_nat (length kept) + 1) with (Z.of_nat (length (kept ++ [Cache])))
        by (rewrite length_app; cbn [length]; lia).
      replace (kept ++ Cache :: rest) with ((kept ++ [Cache]) ++ rest)
        by (rewrite <- app_assoc; reflexivity).
      rewrite IH; [|lia|rewrite length_app; cbn [length]; unfold int32_max; lia].
      rewrite <- !app_assoc. reflexivity.
    + rewrite wrap_size_t_back by lia.
      replace (delete (length kept) (kept ++ Cache :: rest)) with (kept ++ rest).
      2:{ rewrite delete_take_drop, take_app_length.
          replace (kept ++ Cache :: rest) with ((kept ++ [Cache]) ++ rest)
            by (rewrite <- app_assoc; reflexivity).
          replace (S (length kept)) with (length (kept ++ [Cache]))
            by (rewrite length_app; cbn [length]; lia).
          rewrite drop_app_length. reflexivity. }
      rewrite IH; [|lia|unfold int32_max; lia].
      rewrite <- !app_assoc. reflexivity.
Qed.

Lemma collected_params_lookup (remaining : list CacheRef) :
  forall (params : gmap string CacheRef) (Path : string),
  params_of remaining params !! Path
  = match cache_of_level DoesPackageExist remaining Path with
    | Some Cache => Some Cache
    | None => params !! Path
    end.
Proof.
  unfold cache_of_level.
  induction remaining as [|Cache rest IH]; intros params Path; [reflexivity|].
  cbn [collected_params fold_left List.filter].
  fold (params_of rest (if ok Cache then <[Level Cache.2 := Cache]> params else params)).
  rewrite IH.
  destruct (ok Cache) eqn:Hok; cbn [andb].
  - destruct (decide (Level Cache.2 = Path)) as [Heq|Hne].
    + rewrite (bool_decide_eq_true_2 _ Heq).
      destruct (List.filter _ rest) as [|c0 l0] eqn:Hrest.
      * cbn. rewrite <- Heq. apply lookup_insert_eq.
      * change (last (Cache :: c0 :: l0)) with (last (c0 :: l0)).
        destruct (last (c0 :: l0)) eqn:Hlast; [reflexivity|].
        apply last_None in Hlast. discriminate.
    + rewrite (bool_decide_eq_false_2 _ Hne).
      destruct (last _); [reflexivity|]. apply lookup_insert_ne. exact Hne.
  - reflexivity.
Qed.

Lemma cache_of_level_inv (caches : list CacheRef) (Path : string) (Cache : CacheRef) :
  cache_of_level DoesPackageExist caches Path = Some Cache ->
  Cache ∈ caches /\ ok Cache = true /\ Level Cache.2 = Path.
Proof.
  unfold cache_of_level. intros Hlast. apply last_Some_elem_of in Hlast.
  apply list_elem_of_In, filter_In in Hlast as [Hin Hcond].
  apply andb_true_iff in Hcond as [Hok Hpath]. apply bool_decide_eq_true in Hpath.
  split; [apply list_elem_of_In; exact Hin|]. auto.
Qed.

Lemma cache_of_level_some (caches : list CacheRef) (Cache : CacheRef) :
  Cache ∈ caches -> ok Cache = true ->
  is_Some (cache_of_level DoesPackageExist caches (Level Cache.2)).
Proof.
  intros Hin Hok. unfold cache_of_level.
  destruct (last _) eqn:Hlast; [eauto|]. apply last_None in Hlast.
  assert (Hthere : In Cache (List.filter
            (fun c => ok c && bool_decide (Level c.2 = Level Cache.2)) caches)).
  { apply filter_In. split; [apply list_elem_of_In; exact Hin|].
    rewrite Hok, bool_decide_eq_true_2 by reflexivity. reflexivity. }
  rewrite Hlast in Hthere. destruct Hthere.
Qed.

Lemma collect_loop_run (caches : list CacheRef) :
  TArray_ok caches ->
  exists channels params,
    collect (S (length caches)) 0 (mkCollected caches [] [] ∅)
    = Some (mkCollected (List.filter ok caches)
              (List.filter (fun Cache => negb (ok Cache)) caches) channels params)
    /\ (forall Path, params !! Path = cache_of_level DoesPackageExist caches Path)
    /\ (forall Path Cache, params !! Path = Some Cache ->
          Cache ∈ caches /\ ok Cache = true /\ Level Cache.2 = Path)
    /\ (forall Cache, Cache ∈ caches -> ok Cache = true ->
          is_Some (params !! Level Cache.2)).
Proof.
  intros Hsize.
  exists (channels_of caches []), (params_of caches ∅).
  assert (Hparams : forall Path, params_of caches ∅ !! Path
                                 = cache_of_level DoesPackageExist caches Path).
  { intros Path. rewrite collected_params_lookup.
    destruct (cache_of_level _ caches Path); [reflexivity | apply lookup_empty]. }
  split; [|split; [exact Hparams|split]].
  - apply (collect_loop_spec caches [] [] [] ∅ (S (length caches))); [lia|].
    exact Hsize.
  - intros Path Cache Hlookup. rewrite Hparams in Hlookup.
    apply cache_of_level_inv. exact Hlookup.
  - intros Cache Hin Hok. rewrite Hparams. apply cache_of_level_some; assumption.
Qed.

(** X22.  The loop over the caches, with its removal of elements while it
    iterates and its index that passes below 0, ends and keeps, in their
    order, exactly the caches whose level package exists; the others are
    listed for deletion, in their order.  [LevelParams] then holds, for a
    path, the last kept cache of this level: every value is a kept cache
    filed under its own level, and every kept cache has its level in the
    map. *)
Theorem collect_caches (caches : list CacheRef) :
  TArray_ok caches ->
  exists channels params,
    collect (S (length caches)) 0 (mkCollected caches [] [] ∅)
    = Some (mkCollected (List.filter ok caches)
              (List.filter (fun Cache => negb (ok Cache)) caches) channels params)
    /\ (forall Path, params !! Path = cache_of_level DoesPackageExist caches Path)
    /\ (forall Path Cache, params !! Path = Some Cache ->
          Cache ∈ caches /\ ok Cache = true /\ Level Cache.2 = Path)
    /\ (forall Cache, Cache ∈ caches -> ok Cache = true ->
          is_Some (params !! Level Cache.2)).
Proof. exact (collect_loop_run caches). Qed.


Lemma emplace_channels_spec (cache : URenderStreamChannelCacheAsset) :
  forall s : list string,
  StronglySorted string_lt s ->
  StronglySorted string_lt (emplace cache s)
  /\ forall x, x ∈ emplace cache s
               <-> x ∈ s \/ exists Channel, Channel ∈ Channels cache
                                            /\ x = TCHAR_TO_ANSI Channel.
Proof.
  unfold emplace_channels.
  induction (Channels cache) as [|Channel rest IH]; intros s Hsorted; cbn [fold_left].
  - split; [exact Hsorted|]. intros x. split; [auto|].
    intros [H|(Channel & Hin & _)]; [exact H|]. inversion Hin.
  - destruct (IH (set_emplace (TCHAR_TO_ANSI Channel) s)
                 (set_emplace_sorted _ _ Hsorted)) as [Hs Helem].
    split; [exact Hs|]. intros x. rewrite Helem, set_emplace_elem. split.
    + intros [[->|H]|(c & Hin & ->)].
      * right. exists Channel. split; [apply elem_of_cons; auto | reflexivity].
      * auto.
      * right. exists c. split; [apply elem_of_cons; auto | reflexivity].
    + intros [H|(c & Hin & ->)]; [auto|].
      apply elem_of_cons in Hin as [->|Hin]; [auto|].
      right. exists c. auto.
Qed.

Lemma collected_channels_spec (remaining : list CacheRef) :
  forall s : list string,
  StronglySorted string_lt s ->
  StronglySorted string_lt (channels_of remaining s)
  /\ forall x, x ∈ channels_of remaining s
               <-> x ∈ s \/ exists Cache Channel,
                              Cache ∈ remaining /\ ok Cache = true
                              /\ Channel ∈ Channels Cache.2
                              /\ x = TCHAR_TO_ANSI Channel.
Proof.
  induction remaining as [|Cache rest IH]; intros s Hsorted;
    cbn [collected_channels fold_left].
  - split; [exact Hsorted|]. intros x. split; [auto|].
    intros [H|(Cache & Channel & Hin & _)]; [exact H|]. inversion Hin.
  - fold (channels_of rest (if ok Cache then emplace Cache.2 s else s)).
    destruct (ok Cache) eqn:Hok.
    + destruct (emplace_channels_spec Cache.2 s Hsorted) as [Hs Helem].
      destruct (IH _ Hs) as [Hs' Helem']. split; [exact Hs'|].
      intros x. rewrite Helem', Helem. split.
      * intros [[H|(Channel & Hin & ->)]|(c & Channel & Hc & Hokc & Hin & ->)].
        -- auto.
        -- right. exists Cache, Channel. rewrite elem_of_cons. auto.
        -- right. exists c, Channel. rewrite elem_of_cons. auto.
      * intros [H|(c & Channel & Hc & Hokc & Hin & ->)]; [auto|].
        apply elem_of_cons in Hc as [->|Hc].
        -- left. right. exists Channel. auto.
        -- right. exists c, Channel. auto.
    + destruct (IH _ Hsorted) as [Hs' Helem']. split; [exact Hs'|].
      intros x. rewrite Helem'. split.
      * intros [H|(c & Channel & Hc & Hokc & Hin & ->)]; [auto|].
        right. exists c, Channel. rewrite elem_of_cons. auto.
      * intros [H|(c & Channel & Hc & Hokc & Hin & ->)]; [auto|].
        apply elem_of_cons in Hc as [->|Hc]; [congruence|].
        right. exists c, Channel. auto.
Qed.

(** X23.  The channels of the schema are the channel names of the caches whose
    level package exists, each once, in the order of [std::string]; the
    schema has one channel for each of them. *)
Theorem metadata_channels (caches : list CacheRef) :
  TArray_ok caches ->
  exists st,
    collect (S (length caches)) 0 (mkCollected caches [] [] ∅) = Some st
    /\ StronglySorted string_lt (ChannelSet st)
    /\ (forall x, x ∈ ChannelSet st
                  <-> exists Cache Channel,
                        Cache ∈ caches /\ ok Cache = true
                        /\ Channel ∈ Channels Cache.2
                        /\ x = TCHAR_TO_ANSI Channel)
    /\ (Num (ChannelSet st) < 2 ^ 32 ->
        build_channels st = (Num (ChannelSet st), ChannelSet st)).
Proof.
  intros Hsize. eexists. split.
  - apply (collect_loop_spec caches [] [] [] ∅ (S (length caches))); [lia|]. exact Hsize.
  - cbn [ChannelSet].
    destruct (collected_channels_spec caches [] (SSorted_nil _)) as [Hsorted Helem].
    split; [exact Hsorted|]. split.
    + intros x. rewrite Helem. split; [|auto].
      intros [H|H]; [inversion H | exact H].
    + intros Hfits. unfold build_channels. cbn [ChannelSet].
      assert (Hn : wrap_uint32 (Num (channels_of caches []))
                   = Num (channels_of caches [])).
      { unfold wrap_uint32. apply Z.mod_small. unfold Num in Hfits |- *. lia. }
      rewrite Hn. unfold Num. rewrite Nat2Z.id, firstn_all. reflexivity.
Qed.


(** *** The scenes *)

Local Abbreviation write := (write_scene TCHAR_TO_UTF8 GetShortName).
Local Abbreviation schema_of := (metadata_schema TCHAR_TO_UTF8 GetShortName TCHAR_TO_ANSI
                                                  DoesPackageExist).

Lemma GenerateScene_value (cache : URenderStreamChannelCacheAsset)
    (persistent : option URenderStreamChannelCacheAsset) :
  well_sized cache ->
  (forall p, persistent = Some p -> well_sized p) ->
  GenerateScene TCHAR_TO_UTF8 GetShortName cache persistent
  = Some (scene_of cache persistent).
Proof.
  intros [Hcache Hopt_c] Hpersistent. unfold GenerateScene, generated_scene.
  assert (Hp : TArray_ok (persistent_params persistent)
               /\ Forall (fun entry => TArray_ok (Options entry))
                         (persistent_params persistent)).
  { destruct persistent as [p|]; cbn [persistent_params].
    - exact (Hpersistent p eq_refl).
    - split; [unfold TArray_ok, int32_max; cbn; lia | constructor]. }
  destruct Hp as [Hsize_p Hopt_p].
  assert (Hn : wrap_uint32 (wrap_int32
                 (match persistent with
                  | Some p => Num (ExposedParams p)
                  | None => 0
                  end + Num (ExposedParams cache)))
               = Num (persistent_params persistent) + Num (ExposedParams cache)).
  { unfold TArray_ok in *.
    destruct persistent as [p|]; cbn [persistent_params] in *;
      unfold Num in *; cbn [length] in *; apply nParams_sum;
      unfold int32_max in *; lia. }
  rewrite Hn. unfold malloc, Num.
  rewrite <- Nat2Z.inj_add, Nat2Z.id, replicate_add.
  destruct persistent as [p|]; cbn [persistent_params] in *.
  - pose proof (ConvertFields_spec TCHAR_TO_UTF8 (ExposedParams p) []
                  (replicate (length (ExposedParams cache)) None) Hopt_p) as Hfirst.
    cbn [app length] in Hfirst. rewrite Hfirst. cbn [mbind option_bind].
    pose proof (ConvertFields_spec TCHAR_TO_UTF8 (ExposedParams cache)
                  (map (fun entry => Some (converted TCHAR_TO_UTF8 entry)) (ExposedParams p))
                  [] Hopt_c) as Hsecond.
    rewrite length_map, !app_nil_r in Hsecond. rewrite Hsecond.
    cbn [mbind option_bind]. rewrite map_app. reflexivity.
  - cbn [mbind option_bind replicate app length].
    pose proof (ConvertFields_spec TCHAR_TO_UTF8 (ExposedParams cache) [] [] Hopt_c)
      as Hsecond.
    cbn [app length] in Hsecond. rewrite !app_nil_r in Hsecond. rewrite Hsecond.
    reflexivity.
Qed.

Lemma write_scene_next (done post : list (option RemoteParameters))
    (cache : URenderStreamChannelCacheAsset)
    (persistent : option URenderStreamChannelCacheAsset) :
  well_sized cache ->
  (forall p, persistent = Some p -> well_sized p) ->
  write (done ++ None :: post) (length done) cache persistent
  = Ok ((done ++ [Some (scene_of cache persistent)]) ++ post).
Proof.
  intros Hcache Hpersistent. unfold write_scene.
  rewrite (GenerateScene_value cache persistent Hcache Hpersistent), store_next.
  reflexivity.
Qed.

Lemma sublevel_scenes_spec (params : gmap string CacheRef)
    (MainMap : URenderStreamChannelCacheAsset) :
  well_sized MainMap ->
  (forall Path Cache, params !! Path = Some Cache -> well_sized Cache.2) ->
  forall (paths : list string) (done post : list (option RemoteParameters)),
  sublevel_scenes TCHAR_TO_UTF8 GetShortName params MainMap paths
    (done ++ replicate (length paths) None ++ post) (length done)
  = match mapM (fun Path => params !! Path) paths with
    | Some found =>
        Ok (done ++ map (fun Cache : CacheRef => Some (scene_of Cache.2 (Some MainMap))) found
            ++ post)
    | None => KeyNotFound
    end.
Proof.
  intros Hmain Hparams.
  induction paths as [|Path rest IH]; intros done post; [reflexivity|].
  cbn [sublevel_scenes mapM length replicate app]. unfold LevelParams_at.
  destruct (params !! Path) as [Cache|] eqn:HCache; cbn [mbind Result_bind option_bind];
    [|reflexivity].
  rewrite write_scene_next;
    [|exact (Hparams _ _ HCache) | intros p [= <-]; exact Hmain].
  cbn [mbind Result_bind].
  replace (S (length done)) with (length (done ++ [Some (scene_of Cache.2 (Some MainMap))]))
    by (rewrite length_app; cbn [length]; lia).
  rewrite IH.
  destruct (mapM _ rest) as [found|]; cbn [mbind option_bind mret option_ret fmap option_map];
    [|reflexivity].
  cbn [map app]. rewrite <- app_assoc. reflexivity.
Qed.

(** X24.  With the scene selector [StreamingLevels] and a default map, the
    schema has one scene for the default map alone, followed by one scene
    for each of its sublevels, in their order: the scene of the last kept
    cache of the sublevel, named after the sublevel, with the parameters
    of the default map before its own.  When a sublevel has no kept cache,
    the look-up in [LevelParams] fails its [check] and no schema is
    saved. *)
Theorem streaming_level_scenes (caches : list CacheRef) (Main : CacheRef) :
  TArray_ok caches ->
  well_sized Main.2 ->
  (forall Cache, Cache ∈ caches -> well_sized Cache.2) ->
  1 + Num (SubLevels Main.2) <= int32_max ->
  exists st,
    collect (S (length caches)) 0 (mkCollected caches [] [] ∅) = Some st
    /\ ((forall Path, Path ∈ SubLevels Main.2 ->
           is_Some (cache_of_level DoesPackageExist caches Path)) ->
        exists scenes,
          schema_of Selector_StreamingLevels caches (Some Main)
          = Ok (st, build_channels st,
                (1 + Num (SubLevels Main.2),
                 Some (scene_of Main.2 None) :: map Some scenes))
          /\ Forall2 (fun Path scene =>
               exists Cache,
                 cache_of_level DoesPackageExist caches Path = Some Cache
                 /\ scene = scene_of Cache.2 (Some Main.2)
                 /\ name scene = TCHAR_TO_UTF8 (GetShortName Path)
                 /\ nParameters scene
                    = Num (ExposedParams Main.2) + Num (ExposedParams Cache.2))
               (SubLevels Main.2) scenes)
    /\ ((exists Path, Path ∈ SubLevels Main.2
                      /\ cache_of_level DoesPackageExist caches Path = None) ->
        schema_of Selector_StreamingLevels caches (Some Main) = KeyNotFound).
Proof.
  intros Hsize Hmain Hcaches Hsub.
  destruct (collect_loop_run caches Hsize) as (channels & params & Hrun & Hparams & Hinv & _).
  eexists. split; [exact Hrun|].
  assert (Hn : wrap_uint32 (wrap_int32 (1 + Num (SubLevels Main.2)))
               = 1 + Num (SubLevels Main.2)).
  { apply nParams_sum; unfold int32_max, Num in *; lia. }
  assert (Hsized : forall Path Cache, params !! Path = Some Cache -> well_sized Cache.2).
  { intros Path Cache Hlookup. apply Hcaches. apply (Hinv Path Cache Hlookup). }
  assert (Hbuild : build_scenes TCHAR_TO_UTF8 GetShortName Selector_StreamingLevels
                     (mkCollected (List.filter ok caches)
                        (List.filter (fun Cache => negb (ok Cache)) caches) channels params)
                     (Some Main)
                   = match mapM (fun Path => params !! Path) (SubLevels Main.2) with
                     | Some found =>
                         Ok (1 + Num (SubLevels Main.2),
                             Some (scene_of Main.2 None)
                             :: map (fun Cache : CacheRef =>
                                       Some (scene_of Cache.2 (Some Main.2))) found)
                     | None => KeyNotFound
                     end).
  { unfold build_scenes. cbn [LevelParams]. rewrite Hn. unfold malloc, Num.
    replace (Z.to_nat (1 + Z.of_nat (length (SubLevels Main.2))))
      with (S (length (SubLevels Main.2))) by lia.
    cbn [replicate].
    pose proof (write_scene_next [] (replicate (length (SubLevels Main.2)) None)
                  Main.2 None Hmain ltac:(discriminate)) as Hfirst.
    cbn [app length] in Hfirst. rewrite Hfirst. cbn [mbind Result_bind].
    pose proof (sublevel_scenes_spec params Main.2 Hmain Hsized (SubLevels Main.2)
                  [Some (scene_of Main.2 None)] []) as Hloop.
    rewrite !app_nil_r in Hloop. cbn [length app] in Hloop. rewrite Hloop.
    destruct (mapM _ (SubLevels Main.2)); cbn [mbind Result_bind];
      rewrite ?app_nil_r; reflexivity. }
  split.
  - intros Hall.
    destruct (mapM (fun Path => params !! Path) (SubLevels Main.2)) as [found|] eqn:Hfound.
    + exists (map (fun Cache : CacheRef => scene_of Cache.2 (Some Main.2)) found).
      split.
      * unfold metadata_schema. rewrite Hrun, Hbuild. cbn [mbind Result_bind].
        rewrite map_map. reflexivity.
      * apply mapM_Some in Hfound. apply Forall2_fmap_r.
        eapply Forall2_impl; [exact Hfound|].
        intros Path Cache Hlookup. cbn beta in Hlookup. exists Cache.
        rewrite <- Hparams. split; [exact Hlookup|]. split; [reflexivity|].
        destruct (Hinv Path Cache Hlookup) as (_ & _ & Hlevel).
        cbn [generated_scene name nParameters persistent_params]. rewrite Hlevel.
        split; reflexivity.
    + exfalso. apply mapM_None in Hfound. apply Exists_exists in Hfound as (Path & Hin & Hnone).
      rewrite Hparams in Hnone. destruct (Hall Path Hin) as [Cache HCache]. congruence.
  - intros (Path & Hin & Hnone). unfold metadata_schema. rewrite Hrun, Hbuild.
    replace (mapM (fun Path => params !! Path) (SubLevels Main.2)) with (@None (list CacheRef));
      [reflexivity|].
    symmetry. apply mapM_None. apply Exists_exists. exists Path.
    split; [exact Hin|]. rewrite Hparams. exact Hnone.
Qed.


Lemma add_parents_spec (params : gmap string CacheRef) (Cache : CacheRef) :
  forall (paths : list string) (LevelParents : gmap Z CacheRef),
  match add_parents params Cache paths LevelParents with
  | Ok LevelParents' =>
      Forall (fun Path => is_Some (params !! Path)) paths
      /\ (forall a Parent, LevelParents' !! a = Some Parent ->
            LevelParents !! a = Some Parent
            \/ (Parent = Cache /\ parent_of params Cache paths a))
      /\ (forall a, is_Some (LevelParents !! a) -> is_Some (LevelParents' !! a))
      /\ (forall a, parent_of params Cache paths a -> is_Some (LevelParents' !! a))
  | KeyNotFound => Exists (fun Path => params !! Path = None) paths
  | Undefined => False
  end.
Proof.
  induction paths as [|Path rest IH]; intros LevelParents; cbn [add_parents].
  - split; [constructor|]. split; [auto|]. split; [auto|].
    intros a (Path & Child & Hin & _). inversion Hin.
  - unfold LevelParams_at.
    destruct (params !! Path) as [Child|] eqn:HChild; cbn [mbind Result_bind].
    2:{ apply Exists_cons_hd. exact HChild. }
    specialize (IH (<[Child.1 := Cache]> LevelParents)).
    destruct (add_parents params Cache rest _) as [LevelParents'| |].
    + destruct IH as (Hall & Hfrom & Hkeep & Hadded).
      split; [constructor; [eauto | exact Hall]|]. split; [|split].
      * intros a Parent Hlookup. destruct (Hfrom a Parent Hlookup) as [Hold|[-> Hnew]].
        -- destruct (decide (a = Child.1)) as [->|Hne].
           ++ rewrite lookup_insert_eq in Hold. injection Hold as <-.
              right. split; [reflexivity|]. exists Path, Child.
              split; [apply elem_of_cons; auto|]. auto.
           ++ rewrite lookup_insert_ne in Hold by congruence. auto.
        -- right. split; [reflexivity|].
           destruct Hnew as (Path' & Child' & Hin & Hlookup' & Hfst).
           exists Path', Child'. split; [apply elem_of_cons; auto|]. auto.
      * intros a Hsome. apply Hkeep.
        destruct (decide (a = Child.1)) as [->|Hne].
        -- rewrite lookup_insert_eq. eauto.
        -- rewrite lookup_insert_ne by congruence. exact Hsome.
      * intros a (Path' & Child' & Hin & Hlookup' & Hfst).
        apply elem_of_cons in Hin as [Heq|Hin].
        -- subst Path'. apply Hkeep.
           assert (Hsame : Some Child' = Some Child)
             by (transitivity (params !! Path); [symmetry; exact Hlookup' | exact HChild]).
           injection Hsame as ->. subst a. rewrite lookup_insert_eq. eauto.
        -- apply Hadded. exists Path', Child'. auto.
    + apply Exists_cons_tl. exact IH.
    + exact IH.
Qed.

Lemma level_parents_spec (params : gmap string CacheRef) :
  forall (caches : list CacheRef) (LevelParents : gmap Z CacheRef),
  match level_parents params caches LevelParents with
  | Ok LevelParents' =>
      Forall (fun Cache => Forall (fun Path => is_Some (params !! Path))
                                  (SubLevels Cache.2)) caches
      /\ (forall a Parent, LevelParents' !! a = Some Parent ->
            LevelParents !! a = Some Parent
            \/ (Parent ∈ caches /\ parent_of params Parent (SubLevels Parent.2) a))
      /\ (forall a, is_Some (LevelParents !! a) -> is_Some (LevelParents' !! a))
      /\ (forall Parent a, Parent ∈ caches ->
            parent_of params Parent (SubLevels Parent.2) a ->
            is_Some (LevelParents' !! a))
  | KeyNotFound =>
      Exists (fun Cache => Exists (fun Path => params !! Path = None)
                                  (SubLevels Cache.2)) caches
  | Undefined => False
  end.
Proof.
  induction caches as [|Cache rest IH]; intros LevelParents; cbn [level_parents].
  - split; [constructor|]. split; [auto|]. split; [auto|].
    intros Parent a Hin. inversion Hin.
  - pose proof (add_parents_spec params Cache (SubLevels Cache.2) LevelParents) as Hadd.
    destruct (add_parents params Cache (SubLevels Cache.2) LevelParents)
      as [LevelParents1| |]; cbn [mbind Result_bind].
    + destruct Hadd as (Hall1 & Hfrom1 & Hkeep1 & Hadded1).
      specialize (IH LevelParents1).
      destruct (level_parents params rest LevelParents1) as [LevelParents'| |].
      * destruct IH as (Hall & Hfrom & Hkeep & Hadded).
        split; [constructor; assumption|]. split; [|split].
        -- intros a Parent Hlookup.
           destruct (Hfrom a Parent Hlookup) as [Hold|[Hin Hnew]].
           ++ destruct (Hfrom1 a Parent Hold) as [Hold1|[-> Hnew]]; [auto|].
              right. split; [apply elem_of_cons; auto | exact Hnew].
           ++ right. split; [apply elem_of_cons; auto | exact Hnew].
        -- auto.
        -- intros Parent a Hin Hparent. apply elem_of_cons in Hin as [->|Hin].
           ++ apply Hkeep, Hadded1. exact Hparent.
           ++ apply (Hadded Parent a Hin Hparent).
      * apply Exists_cons_tl. exact IH.
      * exact IH.
    + apply Exists_cons_hd. exact Hadd.
    + exact Hadd.
Qed.

Lemma map_scenes_spec (LevelParents : gmap Z CacheRef) :
  (forall a Parent, LevelParents !! a = Some Parent -> well_sized Parent.2) ->
  forall (caches : list CacheRef) (done post : list (option RemoteParameters)),
  (forall Cache, Cache ∈ caches -> well_sized Cache.2) ->
  map_scenes TCHAR_TO_UTF8 GetShortName LevelParents caches
    (done ++ replicate (length caches) None ++ post) (length done)
  = Ok (done
        ++ map (fun Cache : CacheRef =>
                  Some (scene_of Cache.2 (snd <$> LevelParents !! Cache.1))) caches
        ++ post).
Proof.
  intros Hparents.
  induction caches as [|Cache rest IH]; intros done post Hsized; [reflexivity|].
  cbn [map_scenes length replicate app map].
  rewrite write_scene_next.
  - cbn [mbind Result_bind].
    replace (S (length done))
      with (length (done ++ [Some (scene_of Cache.2 (snd <$> LevelParents !! Cache.1))]))
      by (rewrite length_app; cbn [length]; lia).
    rewrite IH by (intros c Hc; apply Hsized, elem_of_cons; auto).
    rewrite <- app_assoc. reflexivity.
  - apply Hsized, elem_of_cons. auto.
  - intros p Hp. destruct (LevelParents !! Cache.1) as [Parent|] eqn:HParent;
      [|discriminate].
    injection Hp as <-. exact (Hparents _ _ HParent).
Qed.

(** X25.  With the scene selector [Maps], the schema has one scene for each
    kept cache, in their order.  The persistent level of a scene is a
    kept cache that lists, among its sublevels, a level whose cache in
    [LevelParams] is the cache of the scene; a cache listed so by some
    kept cache has a persistent level, and any other has none.  When a
    sublevel of a kept cache has no kept cache, the look-up in
    [LevelParams] fails its [check] and no schema is saved. *)
Theorem map_scenes_of_caches (caches : list CacheRef) (MainMap : option CacheRef) :
  TArray_ok caches ->
  (forall Cache, Cache ∈ caches -> well_sized Cache.2) ->
  let kept := List.filter ok caches in
  exists st,
    collect (S (length caches)) 0 (mkCollected caches [] [] ∅) = Some st
    /\ ChannelCaches st = kept
    /\ ((forall Cache Path, Cache ∈ kept -> Path ∈ SubLevels Cache.2 ->
           is_Some (cache_of_level DoesPackageExist caches Path)) ->
        exists LevelParents : gmap Z CacheRef,
          schema_of Selector_Maps caches MainMap
          = Ok (st, build_channels st,
                (Num kept,
                 map (fun Cache : CacheRef =>
                        Some (scene_of Cache.2 (snd <$> LevelParents !! Cache.1))) kept))
          /\ (forall a Parent, LevelParents !! a = Some Parent ->
                Parent ∈ kept
                /\ exists Path Child,
                     Path ∈ SubLevels Parent.2
                     /\ cache_of_level DoesPackageExist caches Path = Some Child
                     /\ Child.1 = a)
          /\ (forall Parent Path Child,
                Parent ∈ kept -> Path ∈ SubLevels Parent.2 ->
                cache_of_level DoesPackageExist caches Path = Some Child ->
                is_Some (LevelParents !! Child.1)))
    /\ ((exists Cache Path, Cache ∈ kept /\ Path ∈ SubLevels Cache.2
                            /\ cache_of_level DoesPackageExist caches Path = None) ->
        schema_of Selector_Maps caches MainMap = KeyNotFound).
Proof.
  intros Hsize Hcaches kept.
  destruct (collect_loop_run caches Hsize) as (channels & params & Hrun & Hparams & Hinv & _).
  fold kept in Hrun.
  eexists. split; [exact Hrun|]. split; [reflexivity|].
  assert (Hkept : forall Cache, Cache ∈ kept -> Cache ∈ caches).
  { intros Cache Hin. apply list_elem_of_In, filter_In in Hin as [Hin _].
    apply list_elem_of_In. exact Hin. }
  assert (Hnum : wrap_uint32 (Num kept) = Num kept).
  { unfold wrap_uint32. apply Z.mod_small.
    pose proof (filter_length_le ok caches) as Hle. fold kept in Hle.
    unfold TArray_ok, int32_max, Num in *. lia. }
  pose proof (level_parents_spec params kept ∅) as Hlevel.
  unfold metadata_schema. rewrite Hrun. unfold build_scenes.
  cbn [LevelParams ChannelCaches].
  destruct (level_parents params kept ∅) as [LevelParents| |]; cbn [mbind Result_bind].
  - destruct Hlevel as (Hall & Hfrom & _ & Hadded).
    assert (Hparent_in : forall a Parent, LevelParents !! a = Some Parent -> Parent ∈ kept).
    { intros a Parent Hlookup. destruct (Hfrom a Parent Hlookup) as [Hold|[Hin _]];
        [rewrite lookup_empty in Hold; discriminate | exact Hin]. }
    split.
    + intros _. exists LevelParents. split; [|split].
      * rewrite Hnum. unfold malloc, Num. rewrite Nat2Z.id.
        pose proof (map_scenes_spec LevelParents
                      ltac:(intros a Parent Hl; apply Hcaches, Hkept, (Hparent_in a), Hl)
                      kept [] []
                      ltac:(intros c Hc; apply Hcaches, Hkept, Hc)) as Hscenes.
        cbn [app length] in Hscenes. rewrite !app_nil_r in Hscenes. rewrite Hscenes.
        reflexivity.
      * intros a Parent Hlookup. split; [exact (Hparent_in a Parent Hlookup)|].
        destruct (Hfrom a Parent Hlookup) as [Hold|[_ (Path & Child & Hin & Hl & Hfst)]];
          [rewrite lookup_empty in Hold; discriminate|].
        exists Path, Child. rewrite <- Hparams. auto.
      * intros Parent Path Child Hin HPath HChild.
        apply (Hadded Parent Child.1 Hin). exists Path, Child.
        rewrite Hparams. auto.
    + intros (Cache & Path & Hin & HPath & Hnone). exfalso.
      rewrite Forall_forall in Hall. specialize (Hall Cache Hin).
      rewrite Forall_forall in Hall. destruct (Hall Path HPath) as [Child HChild].
      rewrite Hparams in HChild. congruence.
  - split; [|reflexivity].
    intros Hall. exfalso. apply Exists_exists in Hlevel as (Cache & Hin & Hmissing).
    apply Exists_exists in Hmissing as (Path & HPath & Hnone).
    destruct (Hall Cache Path Hin HPath) as [Child HChild].
    rewrite Hparams in Hnone. congruence.
  - destruct Hlevel.
Qed.

End MetadataProperties.

(** ** The properties above on the demonstration data *)

Lemma ApplyScene_preserves_witness :
  exists specs' World' log,
    SceneSelector_StreamingLevels.ApplyScene SceneSelector_StreamingLevels.accept_all
      SceneSelector_StreamingLevels.demo_world_loaded 1
      SceneSelector_StreamingLevels.demo_specs
    = SceneSelector_StreamingLevels.Done (specs', World', log)
    /\ length specs' = length SceneSelector_StreamingLevels.demo_specs
    /\ Forall2 SceneSelector_StreamingLevels.same_but_visibility
         (SceneSelector_StreamingLevels.GetStreamingLevels
            SceneSelector_StreamingLevels.demo_world_loaded)
         (SceneSelector_StreamingLevels.GetStreamingLevels World').
Proof.
  eexists _, _, _. split; [reflexivity|].
  destruct (ApplyScene_preserves SceneSelector_StreamingLevels.accept_all
              SceneSelector_StreamingLevels.demo_world_loaded _ 1
              SceneSelector_StreamingLevels.demo_specs _ _ eq_refl)
    as (Hlength & _ & _ & _ & Hsame).
  split; [exact Hlength | exact Hsame].
Defined.

Lemma ApplyScene_settles_witness :
  exists specs' World',
    SceneSelector_StreamingLevels.ApplyScene SceneSelector_StreamingLevels.accept_all
      SceneSelector_StreamingLevels.demo_world_loaded 1
      SceneSelector_StreamingLevels.demo_specs
    = SceneSelector_StreamingLevels.Done
        (specs', World',
         [SceneSelector_StreamingLevels.LogValidating 1;
          SceneSelector_StreamingLevels.ApplyParameters 1 [100; 101]])
    /\ SceneSelector_StreamingLevels.ApplyScene SceneSelector_StreamingLevels.accept_all
         World' 1 specs'
       = SceneSelector_StreamingLevels.Done
           (specs', World', [SceneSelector_StreamingLevels.ApplyParameters 1 [100; 101]]).
Proof.
  eexists _, _. split; [reflexivity|].
  apply (ApplyScene_settles SceneSelector_StreamingLevels.accept_all
           SceneSelector_StreamingLevels.demo_world_loaded _ 1
           SceneSelector_StreamingLevels.demo_specs _
           [SceneSelector_StreamingLevels.LogValidating 1;
            SceneSelector_StreamingLevels.ApplyParameters 1 [100; 101]]).
  reflexivity.
Defined.

Lemma base_scene_after_OnLoadedSchema_witness :
  exists specs log,
    SceneSelector_StreamingLevels.OnLoadedSchema
      SceneSelector_StreamingLevels.short_name SceneSelector_StreamingLevels.remove_prefix
      String.eqb SceneSelector_StreamingLevels.accept_all
      SceneSelector_StreamingLevels.blank_spec
      SceneSelector_StreamingLevels.demo_world SceneSelector_StreamingLevels.demo_schema []
    = SceneSelector_StreamingLevels.Done (true, specs, log)
    /\ SceneSelector_StreamingLevels.ApplyScene SceneSelector_StreamingLevels.accept_all
         SceneSelector_StreamingLevels.demo_world 0 specs
       = SceneSelector_StreamingLevels.Done
           (specs,
            SceneSelector_StreamingLevels.mkWorld 100
              [SceneSelector_StreamingLevels.mkLevel "Forest" None false false 0;
               SceneSelector_StreamingLevels.mkLevel "Cave" None true false 102],
            [SceneSelector_StreamingLevels.ApplyParameters 0 [100]]).
Proof.
  destruct (base_scene_after_OnLoadedSchema
              SceneSelector_StreamingLevels.short_name
              SceneSelector_StreamingLevels.remove_prefix
              String.eqb SceneSelector_StreamingLevels.accept_all
              SceneSelector_StreamingLevels.blank_spec
              SceneSelector_StreamingLevels.demo_world
              SceneSelector_StreamingLevels.demo_schema [])
    as (specs & log & Hrun & Happly).
  exists specs, log. split; [exact Hrun|].
  exact (Happly 0%nat (SceneSelector_StreamingLevels.mkSceneDecl "Base" 2 11)
           SceneSelector_StreamingLevels.demo_world eq_refl eq_refl).
Defined.

Lemma level_scene_after_OnLoadedSchema_witness :
  exists specs log levels,
    SceneSelector_StreamingLevels.OnLoadedSchema
      SceneSelector_StreamingLevels.short_name SceneSelector_StreamingLevels.remove_prefix
      String.eqb SceneSelector_StreamingLevels.accept_all
      SceneSelector_StreamingLevels.blank_spec
      SceneSelector_StreamingLevels.demo_world
      [SceneSelector_StreamingLevels.mkSceneDecl "Cave" 1 5] []
    = SceneSelector_StreamingLevels.Done (true, specs, log)
    /\ SceneSelector_StreamingLevels.LogValidating 0 ∈ log
    /\ SceneSelector_StreamingLevels.ApplyScene SceneSelector_StreamingLevels.accept_all
         SceneSelector_StreamingLevels.demo_world_loaded 0 specs
       = SceneSelector_StreamingLevels.Done
           (specs, SceneSelector_StreamingLevels.mkWorld 100 levels,
            [SceneSelector_StreamingLevels.ApplyParameters 0 [100; 102]])
    /\ length levels = 2%nat.
Proof.
  destruct (level_scene_after_OnLoadedSchema
              SceneSelector_StreamingLevels.short_name
              SceneSelector_StreamingLevels.remove_prefix
              String.eqb SceneSelector_StreamingLevels.accept_all
              SceneSelector_StreamingLevels.blank_spec
              SceneSelector_StreamingLevels.demo_world
              [SceneSelector_StreamingLevels.mkSceneDecl "Cave" 1 5] [])
    as (specs & log & Hrun & Happly).
  destruct (Happly 0%nat (SceneSelector_StreamingLevels.mkSceneDecl "Cave" 1 5) 1%nat
              SceneSelector_StreamingLevels.demo_world_loaded
              (SceneSelector_StreamingLevels.mkLevel "Cave" None true true 102)
              eq_refl eq_refl eq_refl demo_world_same_objects eq_refl)
    as (Hvalidated & _ & levels & Hcall & Hlength & _).
  exists specs, log, levels. auto.
Defined.

Lemma OnLoadedSchema_every_scene_witness :
  exists specs log levels,
    SceneSelector_StreamingLevels.OnLoadedSchema
      SceneSelector_StreamingLevels.short_name SceneSelector_StreamingLevels.remove_prefix
      String.eqb SceneSelector_StreamingLevels.accept_all
      SceneSelector_StreamingLevels.blank_spec
      SceneSelector_StreamingLevels.demo_world SceneSelector_StreamingLevels.demo_schema []
    = SceneSelector_StreamingLevels.Done (true, specs, log)
    /\ SceneSelector_StreamingLevels.LogSkipValidation "Forest" ∈ log
    /\ (SceneSelector_StreamingLevels.LogValidating 1 ∉ log)
    /\ SceneSelector_StreamingLevels.ApplyScene SceneSelector_StreamingLevels.accept_all
         SceneSelector_StreamingLevels.demo_world_loaded 1 specs
       = SceneSelector_StreamingLevels.Done
           (<[1%nat := SceneSelector_StreamingLevels.mkSpec (Some 0%nat) 100 12 3 true]> specs,
            SceneSelector_StreamingLevels.mkWorld 100 levels,
            [SceneSelector_StreamingLevels.LogValidating 1;
             SceneSelector_StreamingLevels.ApplyParameters 1 [100; 101]]).
Proof.
  destruct (OnLoadedSchema_every_scene
              SceneSelector_StreamingLevels.short_name
              SceneSelector_StreamingLevels.remove_prefix
              String.eqb SceneSelector_StreamingLevels.accept_all
              SceneSelector_StreamingLevels.blank_spec
              SceneSelector_StreamingLevels.demo_world
              SceneSelector_StreamingLevels.demo_schema [])
    as (specs & log & Hrun & _ & Hscene).
  destruct (Hscene 1%nat (SceneSelector_StreamingLevels.mkSceneDecl "Forest" 3 12) eq_refl)
    as (spec & old & Hold & Hnew & _ & _ & _ & _ & Hcase).
  pose proof Hrun as Hvalue. vm_compute in Hvalue.
  injection Hvalue as Hspecs Hlog. subst specs log.
  cbn in Hold, Hnew. injection Hold as <-. injection Hnew as <-.
  cbn in Hcase. destruct Hcase as (_ & Hnot & _ & Hskip & Hlater).
  destruct (Hlater 0%nat SceneSelector_StreamingLevels.demo_world_loaded
              (SceneSelector_StreamingLevels.mkLevel "Forest" None true false 101)
              eq_refl demo_world_same_objects eq_refl eq_refl)
    as (_ & levels & Hcall & _).
  eexists _, _, levels. split; [exact Hrun|]. split; [exact Hskip|].
  split; [exact Hnot | exact Hcall].
Defined.

(** C7, on the code.  The deferred validation is lost when the bindings
    are reused.  The schema is loaded while "Forest" is loaded, which
    marks its binding loaded; "Forest" is unloaded and the schema is
    loaded again, with another declaration of "Forest".  The second call
    binds the new hash and count, logs that the validation is skipped
    and leaves the binding marked loaded: [resize] keeps the binding and
    the loop sets the flag and never clears it.  Once "Forest" is loaded
    again, [ApplyScene 1] shows it and applies the parameters without
    validating, at the first call and at every later one.  From no
    bindings the same schema and world leave the binding not loaded, and
    the same [ApplyScene 1] validates. *)
Theorem OnLoadedSchema_keeps_stale_flag :
  let OnLoadedSchema :=
    SceneSelector_StreamingLevels.OnLoadedSchema
      SceneSelector_StreamingLevels.short_name SceneSelector_StreamingLevels.remove_prefix
      String.eqb SceneSelector_StreamingLevels.accept_all
      SceneSelector_StreamingLevels.blank_spec in
  let reloaded :=
    [SceneSelector_StreamingLevels.mkSceneDecl "Base" 2 11;
     SceneSelector_StreamingLevels.mkSceneDecl "Forest" 4 99] in
  let stale :=
    [SceneSelector_StreamingLevels.mkSpec None 100 11 2 true;
     SceneSelector_StreamingLevels.mkSpec (Some 0%nat) 100 12 3 true] in
  let rebound :=
    [SceneSelector_StreamingLevels.mkSpec None 100 11 2 true;
     SceneSelector_StreamingLevels.mkSpec (Some 0%nat) 100 99 4 true] in
  let fresh :=
    [SceneSelector_StreamingLevels.mkSpec None 100 11 2 true;
     SceneSelector_StreamingLevels.mkSpec (Some 0%nat) 100 99 4 false] in
  let shown :=
    SceneSelector_StreamingLevels.mkWorld 100
      [SceneSelector_StreamingLevels.mkLevel "Forest" None true true 101;
       SceneSelector_StreamingLevels.mkLevel "Cave" None true false 102] in
  OnLoadedSchema SceneSelector_StreamingLevels.demo_world_loaded
    SceneSelector_StreamingLevels.demo_schema []
  = SceneSelector_StreamingLevels.Done
      (true, stale,
       [SceneSelector_StreamingLevels.LogValidating 0;
        SceneSelector_StreamingLevels.LogValidating 1])
  /\ OnLoadedSchema SceneSelector_StreamingLevels.demo_world reloaded stale
     = SceneSelector_StreamingLevels.Done
         (true, rebound,
          [SceneSelector_StreamingLevels.LogValidating 0;
           SceneSelector_StreamingLevels.LogSkipValidation "Forest"])
  /\ SceneSelector_StreamingLevels.ApplyScene SceneSelector_StreamingLevels.accept_all
       SceneSelector_StreamingLevels.demo_world_loaded 1 rebound
     = SceneSelector_StreamingLevels.Done
         (rebound, shown, [SceneSelector_StreamingLevels.ApplyParameters 1 [100; 101]])
  /\ SceneSelector_StreamingLevels.apply_each_frame SceneSelector_StreamingLevels.accept_all
       3 SceneSelector_StreamingLevels.demo_world_loaded 1 rebound
     = SceneSelector_StreamingLevels.Done
         (rebound, shown,
          [SceneSelector_StreamingLevels.ApplyParameters 1 [100; 101];
           SceneSelector_StreamingLevels.ApplyParameters 1 [100; 101];
           SceneSelector_StreamingLevels.ApplyParameters 1 [100; 101]])
  /\ OnLoadedSchema SceneSelector_StreamingLevels.demo_world reloaded []
     = SceneSelector_StreamingLevels.Done
         (true, fresh,
          [SceneSelector_StreamingLevels.LogValidating 0;
           SceneSelector_StreamingLevels.LogSkipValidation "Forest"])
  /\ SceneSelector_StreamingLevels.ApplyScene SceneSelector_StreamingLevels.accept_all
       SceneSelector_StreamingLevels.demo_world_loaded 1 fresh
     = SceneSelector_StreamingLevels.Done
         (rebound, shown,
          [SceneSelector_StreamingLevels.LogValidating 1;
           SceneSelector_StreamingLevels.ApplyParameters 1 [100; 101]]).
Proof. cbv zeta. repeat split; reflexivity. Qed.

Lemma unloaded_scene_after_OnLoadedSchema_witness :
  exists specs log,
    SceneSelector_StreamingLevels.OnLoadedSchema
      SceneSelector_StreamingLevels.short_name SceneSelector_StreamingLevels.remove_prefix
      String.eqb SceneSelector_StreamingLevels.accept_all
      SceneSelector_StreamingLevels.blank_spec
      SceneSelector_StreamingLevels.demo_world SceneSelector_StreamingLevels.demo_schema
      [SceneSelector_StreamingLevels.mkSpec None 100 11 2 true;
       SceneSelector_StreamingLevels.mkSpec (Some 0%nat) 100 12 3 true]
    = SceneSelector_StreamingLevels.Done (true, specs, log)
    /\ exists levels,
         SceneSelector_StreamingLevels.ApplyScene SceneSelector_StreamingLevels.accept_all
           SceneSelector_StreamingLevels.demo_world 1 specs
         = SceneSelector_StreamingLevels.Done
             (specs, SceneSelector_StreamingLevels.mkWorld 100 levels, [])
         /\ length levels = 2%nat.
Proof.
  destruct (unloaded_scene_after_OnLoadedSchema
              SceneSelector_StreamingLevels.short_name
              SceneSelector_StreamingLevels.remove_prefix
              String.eqb SceneSelector_StreamingLevels.accept_all
              SceneSelector_StreamingLevels.blank_spec
              SceneSelector_StreamingLevels.demo_world
              SceneSelector_StreamingLevels.demo_schema
              [SceneSelector_StreamingLevels.mkSpec None 100 11 2 true;
               SceneSelector_StreamingLevels.mkSpec (Some 0%nat) 100 12 3 true])
    as (specs & log & Hrun & Happly).
  exists specs, log. split; [exact Hrun|].
  destruct (Happly 1%nat (SceneSelector_StreamingLevels.mkSceneDecl "Forest" 3 12) 0%nat
              (SceneSelector_StreamingLevels.mkLevel "Forest" None false false 0)
              (SceneSelector_StreamingLevels.mkSpec (Some 0%nat) 100 12 3 true)
              eq_refl eq_refl eq_refl eq_refl eq_refl)
    as (levels & Hcall & Hlength & _).
  exists levels. split; [exact Hcall | exact Hlength].
Defined.

Lemma demo_old_owns :
  RenderStreamLink.owns RenderStreamLink.demo_heap RenderStreamLink.demo_old [51; 50].
Proof.
  split; [reflexivity|]. split.
  - apply (bool_decide_unpack _). reflexivity.
  - repeat constructor; eexists; reflexivity.
Qed.

Lemma demo_schemas_disjoint (p : Z) :
  p ∈ [51; 50] -> p ∉ [11; 10; 21; 31; 32; 33; 41; 42; 40; 30; 20].
Proof.
  intros Hp Hq.
  repeat (apply elem_of_cons in Hp as [->|Hp]);
    [| |inversion Hp];
    repeat (apply elem_of_cons in Hq as [Hq|Hq]; [discriminate|]); inversion Hq.
Qed.

Lemma move_construct_dangles_witness :
  exists h',
    RenderStreamLink.move_construct RenderStreamLink.demo_schema RenderStreamLink.demo_heap
    = Some (RenderStreamLink.demo_schema, RenderStreamLink.clear, h')
    /\ RenderStreamLink.destroy RenderStreamLink.demo_schema h' = None.
Proof.
  destruct (move_construct_dangles RenderStreamLink.demo_heap RenderStreamLink.demo_schema
              _ demo_schema_owns ltac:(discriminate))
    as (h' & Hmove & _ & _ & Hdestroy & _).
  exists h'. split; [exact Hmove | exact Hdestroy].
Defined.

Lemma move_assign_leaks_witness :
  exists h',
    RenderStreamLink.move_assign RenderStreamLink.demo_old RenderStreamLink.demo_schema
      RenderStreamLink.demo_heap
    = Some (RenderStreamLink.demo_schema, RenderStreamLink.clear, h')
    /\ is_Some (RenderStreamLink.live h' !! 50)
    /\ RenderStreamLink.live h' !! 10 = None.
Proof.
  destruct (move_assign_leaks RenderStreamLink.demo_heap RenderStreamLink.demo_old
              RenderStreamLink.demo_schema _ _ demo_old_owns demo_schema_owns
              demo_schemas_disjoint)
    as (h' & Hmove & _ & Hfreed & Hkept).
  exists h'. split; [exact Hmove|]. split.
  - apply (Hkept 50). apply elem_of_cons. right. apply elem_of_cons. left. reflexivity.
  - apply (Hfreed 10). apply elem_of_cons. right. apply elem_of_cons. left. reflexivity.
Defined.

Lemma move_assign_self_empties_witness :
  exists h',
    RenderStreamLink.move_assign_self RenderStreamLink.demo_schema RenderStreamLink.demo_heap
    = Some (RenderStreamLink.clear, h')
    /\ RenderStreamLink.freed h' = [20; 30; 40; 42; 41; 33; 32; 31; 21; 10; 11]
    /\ RenderStreamLink.destroy RenderStreamLink.clear h' = Some h'.
Proof.
  destruct (move_assign_self_empties RenderStreamLink.demo_heap RenderStreamLink.demo_schema
              _ demo_schema_owns)
    as (h' & Hmove & Hfreed & _ & _ & Hdestroy).
  exists h'. split; [exact Hmove|]. split; [exact Hfreed | exact Hdestroy].
Defined.

Lemma reset_leaves_others_witness :
  exists h1 h2,
    RenderStreamLink.reset RenderStreamLink.demo_old RenderStreamLink.demo_heap
    = Some (RenderStreamLink.clear, h1)
    /\ RenderStreamLink.destroy RenderStreamLink.demo_schema h1 = Some h2
    /\ RenderStreamLink.freed h2
       = rev [11; 10; 21; 31; 32; 33; 41; 42; 40; 30; 20] ++ rev [51; 50]
         ++ RenderStreamLink.freed RenderStreamLink.demo_heap.
Proof.
  destruct (reset_leaves_others RenderStreamLink.demo_heap RenderStreamLink.demo_old
              RenderStreamLink.demo_schema _ _ demo_old_owns demo_schema_owns
              demo_schemas_disjoint)
    as (h1 & h2 & Hreset & _ & Hdestroy & Hfreed & _).
  exists h1, h2. auto.
Defined.

Lemma colour_defaults_in_range_witness :
  Forall (fun entry => RenderStreamEditor.default_in_range entry = true)
    (RenderStreamEditor.GenerateParameters_step RenderStreamEditor.parse_float []
       (RenderStreamEditor.mkProperty "Tint" "Look" true true false None None
          (RenderStreamEditor.ColorProperty 255 128 0 255))).
Proof.
  apply (colour_defaults_in_range RenderStreamEditor.parse_float
           (RenderStreamEditor.mkProperty "Tint" "Look" true true false None None
              (RenderStreamEditor.ColorProperty 255 128 0 255))
           255 128 0 255 eq_refl); lia.
Defined.

Lemma demo_options_sized :
  Forall (fun entry => RenderStreamEditor.TArray_ok (RenderStreamEditor.Options entry))
    (RenderStreamEditor.ExposedParams RenderStreamEditor.forest_cache).
Proof. repeat constructor; vm_compute; discriminate. Qed.

Lemma ConvertFields_bounds_witness :
  RenderStreamEditor.ConvertFields RenderStreamEditor.utf8 [None; None; None] 1
    (RenderStreamEditor.ExposedParams RenderStreamEditor.forest_cache)
  = Some (take 1 [None; None; None]
          ++ map (fun entry => Some (RenderStreamEditor.converted RenderStreamEditor.utf8 entry))
                 (RenderStreamEditor.ExposedParams RenderStreamEditor.forest_cache)
          ++ drop (1 + length (RenderStreamEditor.ExposedParams RenderStreamEditor.forest_cache))
                  [None; None; None])
  /\ RenderStreamEditor.ConvertFields RenderStreamEditor.utf8 [None; None] 1
       (RenderStreamEditor.ExposedParams RenderStreamEditor.forest_cache)
     = None.
Proof.
  split.
  - apply (ConvertFields_bounds RenderStreamEditor.utf8
             (RenderStreamEditor.ExposedParams RenderStreamEditor.forest_cache)
             [None; None; None] 1 demo_options_sized).
    simpl. lia.
  - apply (ConvertFields_bounds RenderStreamEditor.utf8
             (RenderStreamEditor.ExposedParams RenderStreamEditor.forest_cache)
             [None; None] 1 demo_options_sized).
    + discriminate.
    + simpl. lia.
Defined.

Lemma demo_actor_options_sized :
  Forall (fun entry => RenderStreamEditor.TArray_ok (RenderStreamEditor.Options entry))
    (RenderStreamEditor.GenerateParameters RenderStreamEditor.parse_float []
       (Some RenderStreamEditor.demo_actor)).
Proof.
  cbv [RenderStreamEditor.GenerateParameters RenderStreamEditor.demo_actor fold_left
       RenderStreamEditor.GenerateParameters_step RenderStreamEditor.CPF_Edit
       RenderStreamEditor.CPF_BlueprintVisible RenderStreamEditor.CPF_DisableEditOnInstance
       RenderStreamEditor.property_value negb andb orb app].
  repeat (constructor; [vm_compute; discriminate|]). constructor.
Qed.

Lemma scene_of_generated_parameters_witness :
  exists parameters,
    RenderStreamEditor.GenerateScene RenderStreamEditor.utf8
      RenderStreamEditor.package_short_name
      (RenderStreamEditor.mkCache "Stage" ["main"]
         (RenderStreamEditor.GenerateParameters RenderStreamEditor.parse_float []
            (Some RenderStreamEditor.demo_actor)) [])
      None
    = Some (RenderStreamEditor.mkRemoteParameters "Stage" 5 (map Some parameters))
    /\ length parameters = 5%nat.
Proof.
  destruct (scene_of_generated_parameters RenderStreamEditor.parse_float
              RenderStreamEditor.utf8 RenderStreamEditor.package_short_name
              "Stage" ["main"] [] (Some RenderStreamEditor.demo_actor))
    as (parameters & Hscene & Hlength & _).
  - vm_compute. discriminate.
  - exact demo_actor_options_sized.
  - exists parameters. split; [exact Hscene | exact Hlength].
Defined.

Lemma metadata_once_per_frame_witness :
  RenderStreamEditor.editor_run 1
    ([RenderStreamEditor.PostSaveWorld false; RenderStreamEditor.AssetsDeleted [2; 1]]
     ++ RenderStreamEditor.BeginFrame false :: [RenderStreamEditor.BeginFrame true])
    false
  = ([RenderStreamEditor.SkippedUnavailable], false).
Proof.
  apply (metadata_once_per_frame 1
           [RenderStreamEditor.PostSaveWorld false; RenderStreamEditor.AssetsDeleted [2; 1]]
           [RenderStreamEditor.BeginFrame true] false false).
  repeat constructor.
Defined.

Lemma demo_caches_well_sized (Cache : RenderStreamEditor.CacheRef) :
  Cache ∈ RenderStreamEditor.demo_caches -> RenderStreamEditor.well_sized Cache.2.
Proof.
  intros Hin. unfold RenderStreamEditor.demo_caches in Hin.
  repeat (apply elem_of_cons in Hin as [->|Hin]); [| | |inversion Hin];
    (split; [vm_compute; discriminate | repeat constructor; vm_compute; discriminate]).
Qed.

Lemma demo_caches_sized : RenderStreamEditor.TArray_ok RenderStreamEditor.demo_caches.
Proof. vm_compute. discriminate. Qed.

Lemma collect_caches_witness :
  exists channels params,
    RenderStreamEditor.collect_loop RenderStreamEditor.utf8 RenderStreamEditor.package_exists
      4 0 (RenderStreamEditor.mkCollected RenderStreamEditor.demo_caches [] [] ∅)
    = Some (RenderStreamEditor.mkCollected
              [(1, RenderStreamEditor.persistent_cache); (3, RenderStreamEditor.forest_cache)]
              [(2, RenderStreamEditor.gone_cache)] channels params)
    /\ params !! "Forest" = Some (3, RenderStreamEditor.forest_cache)
    /\ params !! "Gone" = None.
Proof.
  destruct (collect_caches RenderStreamEditor.utf8 RenderStreamEditor.package_exists
              RenderStreamEditor.demo_caches demo_caches_sized)
    as (channels & params & Hrun & Hparams & _).
  exists channels, params. split; [exact Hrun|].
  split; rewrite Hparams; reflexivity.
Defined.

Lemma metadata_channels_witness :
  exists st,
    RenderStreamEditor.collect_loop RenderStreamEditor.utf8 RenderStreamEditor.package_exists
      4 0 (RenderStreamEditor.mkCollected RenderStreamEditor.demo_caches [] [] ∅)
    = Some st
    /\ StronglySorted RenderStreamEditor.string_lt (RenderStreamEditor.ChannelSet st)
    /\ ("main" ∈ RenderStreamEditor.ChannelSet st)
    /\ ("aux" ∉ RenderStreamEditor.ChannelSet st).
Proof.
  destruct (metadata_channels RenderStreamEditor.utf8 RenderStreamEditor.package_exists
              RenderStreamEditor.demo_caches demo_caches_sized)
    as (st & Hrun & Hsorted & Helem & _).
  exists st. split; [exact Hrun|]. split; [exact Hsorted|]. split.
  - apply Helem. exists (1, RenderStreamEditor.persistent_cache), "main".
    split; [apply elem_of_cons; auto|]. split; [reflexivity|].
    split; [apply elem_of_cons; auto | reflexivity].
  - intros Hin. apply Helem in Hin as (Cache & Channel & HCache & Hok & HChannel & Hname).
    unfold RenderStreamEditor.demo_caches in HCache.
    repeat (apply elem_of_cons in HCache as [->|HCache]); [| | |inversion HCache];
      cbn in HChannel, Hok; try discriminate;
      repeat (apply elem_of_cons in HChannel as [->|HChannel]);
      try discriminate; inversion HChannel.
Defined.

Lemma streaming_level_scenes_witness :
  exists st scenes,
    RenderStreamEditor.metadata_schema RenderStreamEditor.utf8
      RenderStreamEditor.package_short_name RenderStreamEditor.utf8
      RenderStreamEditor.package_exists RenderStreamEditor.Selector_StreamingLevels
      RenderStreamEditor.demo_caches (Some (1, RenderStreamEditor.persistent_cache))
    = RenderStreamEditor.Ok
        (st, RenderStreamEditor.build_channels st,
         (1 + RenderStreamEditor.Num
                (RenderStreamEditor.SubLevels RenderStreamEditor.persistent_cache),
          Some (RenderStreamEditor.generated_scene RenderStreamEditor.utf8
                  RenderStreamEditor.package_short_name
                  RenderStreamEditor.persistent_cache None)
          :: map Some scenes))
    /\ length scenes = 1%nat.
Proof.
  destruct (streaming_level_scenes RenderStreamEditor.utf8
              RenderStreamEditor.package_short_name RenderStreamEditor.utf8
              RenderStreamEditor.package_exists RenderStreamEditor.demo_caches
              (1, RenderStreamEditor.persistent_cache) demo_caches_sized)
    as (st & _ & Hscenes & _).
  - apply demo_caches_well_sized. apply elem_of_cons. auto.
  - exact demo_caches_well_sized.
  - vm_compute. discriminate.
  - destruct Hscenes as (scenes & Hschema & Hall).
    + intros Path HPath. cbn in HPath.
      apply elem_of_cons in HPath as [->|HPath]; [|inversion HPath].
      eexists. reflexivity.
    + exists st, scenes. split; [exact Hschema|].
      apply Forall2_length in Hall. rewrite <- Hall. reflexivity.
Defined.

Lemma map_scenes_of_caches_witness :
  exists st,
    RenderStreamEditor.collect_loop RenderStreamEditor.utf8 RenderStreamEditor.package_exists
      4 0 (RenderStreamEditor.mkCollected RenderStreamEditor.demo_caches [] [] ∅)
    = Some st
    /\ exists LevelParents : gmap Z RenderStreamEditor.CacheRef,
         RenderStreamEditor.metadata_schema RenderStreamEditor.utf8
           RenderStreamEditor.package_short_name RenderStreamEditor.utf8
           RenderStreamEditor.package_exists RenderStreamEditor.Selector_Maps
           RenderStreamEditor.demo_caches None
         = RenderStreamEditor.Ok
             (st, RenderStreamEditor.build_channels st,
              (2,
               map (fun Cache : RenderStreamEditor.CacheRef =>
                      Some (RenderStreamEditor.generated_scene RenderStreamEditor.utf8
                              RenderStreamEditor.package_short_name Cache.2
                              (snd <$> LevelParents !! Cache.1)))
                   [(1, RenderStreamEditor.persistent_cache);
                    (3, RenderStreamEditor.forest_cache)]))
         /\ is_Some (LevelParents !! 3).
Proof.
  destruct (map_scenes_of_caches RenderStreamEditor.utf8
              RenderStreamEditor.package_short_name RenderStreamEditor.utf8
              RenderStreamEditor.package_exists RenderStreamEditor.demo_caches None
              demo_caches_sized demo_caches_well_sized)
    as (st & Hrun & _ & Hscenes & _).
  exists st. split; [exact Hrun|].
  destruct Hscenes as (LevelParents & Hschema & _ & Hparent).
  - intros Cache Path HCache HPath. cbn in HCache.
    repeat (apply elem_of_cons in HCache as [->|HCache]); [| |inversion HCache];
      cbn in HPath.
    + apply elem_of_cons in HPath as [->|HPath]; [|inversion HPath].
      eexists. reflexivity.
    + inversion HPath.
  - exists LevelParents. split; [exact Hschema|].
    apply (Hparent (1, RenderStreamEditor.persistent_cache) "Forest"
             (3, RenderStreamEditor.forest_cache)).
    + cbn. apply elem_of_cons. auto.
    + cbn. apply elem_of_cons. auto.
    + reflexivity.
Defined.
